(** * The aggregation pipeline of the AI job market dashboard (hello.py)

    hello.py is one straight-line script: it loads a table of job postings
    into the global data frame [df], coerces three columns, derives two more,
    and then runs about twenty independent sections, each of which reduces
    [df] to a small table and hands it to a chart.

    The script is embedded shallowly.  A data frame is a list of rows, a
    missing cell (NaN / NaT) is [None], and every pandas or standard-library
    call the script makes is a Rocq function written after the call's
    behaviour: [Series.mean] skips missing cells and divides by the number of
    present ones, [value_counts] counts in first-seen order and sorts by
    count, [groupby(...).mean()] keeps one accumulator per observed key, and
    so on.  float64 arithmetic is idealised as exact rational arithmetic
    ([Qc]); rounding error of the machine numbers is outside the model.
    Nothing is therefore stated below that rounding error can break: of a
    mean, a difference or a rounded value it is said which cells it is
    computed from and how it is ordered by operations that keep order under
    rounding, not where it lies to the last digit.
    A string is a sequence of characters with code points below 256. *)

From Stdlib Require Import QArith Qcanon Qround Ascii.
From Stdlib Require Import Rdefinitions RIneq R_sqrt Qreals Lra Psatz.
From stdpp Require Import base option list strings numbers sorting.

Local Open Scope Qc_scope.

(** * Part I: the embedding

    Every definition below is written after one call or one statement of
    hello.py; the lines it models are named with it. *)

(** ** Stable sorting

    [sorted(xs, key=..., reverse=True)] and [heapq.nlargest] sort in
    descending order this way: reverse the input, sort it ascending with a
    stable sort, and reverse the outcome, so that equal keys keep their
    input order.  [Series.sort_values(ascending=False)] reverses, sorts and
    reverses as well, but with quicksort unless told otherwise, which keeps
    no order among equal keys; where it is modelled with the stable sort,
    one of the orders it may leave has been picked. *)

Module Stable.
Section sort.
Context {A : Type} (leb : A → A → bool).

Fixpoint insert (x : A) (l : list A) : list A :=
  match l with
  | [] => [x]
  | y :: l' => if leb x y then x :: y :: l' else y :: insert x l'
  end.

Fixpoint sort (l : list A) : list A :=
  match l with
  | [] => []
  | x :: l' => insert x (sort l')
  end.

Definition sort_desc (l : list A) : list A := reverse (sort (reverse l)).

(** [before l a b]: some occurrence of [a] in [l] precedes one of [b]. *)
Definition before (l : list A) (a b : A) : Prop :=
  ∃ i j : nat, (i < j)%nat ∧ l !! i = Some a ∧ l !! j = Some b.

(** Strictly smaller key, and equal key, as [leb] sees them. *)
Definition klt (a b : A) : Prop := leb a b = true ∧ leb b a = false.
Definition keq (a b : A) : Prop := leb a b = true ∧ leb b a = true.

(** The order a stable ascending sort of [l] puts its elements in. *)
Definition asc_stable (l : list A) (a b : A) : Prop :=
  klt a b ∨ (keq a b ∧ before l a b).

(** The order a stable descending sort of [l] puts its elements in. *)
Definition desc_stable (l : list A) (a b : A) : Prop :=
  klt b a ∨ (keq a b ∧ before l a b).
End sort.
End Stable.

(** ** Frequency counts: [collections.Counter] and [Series.value_counts] *)

Module Counting.
Section counter.
Context {K : Type} `{EqDecision K}.

(** [mapping[elem] = mapping.get(elem, 0) + 1] on a dict, which keeps its
    keys in insertion order. *)
Fixpoint incr (k : K) (c : list (K * nat)) : list (K * nat) :=
  match c with
  | [] => [(k, 1%nat)]
  | (k', n) :: c' =>
      if decide (k = k') then (k', S n) :: c' else (k', n) :: incr k c'
  end.

(** [Counter(xs)] *)
Definition Counter (xs : list K) : list (K * nat) :=
  foldl (λ c x, incr x c) [] xs.

(** [key=itemgetter(1)]: entries are compared by their count only. *)
Definition count_leb (a b : K * nat) : bool := Nat.leb a.2 b.2.

(** [Counter.most_common(n)], that is
    [heapq.nlargest(n, self.items(), key=itemgetter(1))], documented as
    [sorted(self.items(), key=itemgetter(1), reverse=True)[:n]]. *)
Definition most_common (n : nat) (c : list (K * nat)) : list (K * nat) :=
  take n (Stable.sort_desc count_leb c).



(** [Series.value_counts()] with one order among equal counts picked: the
    counts are taken in first-seen order and sorted with the stable sort
    (reverse, stable ascending sort, reverse).  It is one of the tables
    [value_counts_of] admits; what is stated of it below holds for every
    descending order of the counts unless ties are named. *)
Definition value_counts (s : list (option K)) : list (K * nat) :=
  Stable.sort_desc count_leb (Counter (omap id s)).

(** [.head(n)] and [.index.tolist()] on the outcome. *)
Definition head {B} (n : nat) (t : list B) : list B := take n t.
Definition index {B} (t : list (K * B)) : list K := t.*1.

(** What the counts and the order are measured against. *)
Definition occurrences (k : K) (xs : list K) : nat :=
  length (filter (λ x, x = k) xs).


(** The distinct values of [xs] in the order they are first met. *)
Definition first_seen (xs : list K) : list K :=
  foldl (λ acc x, if decide (x ∈ acc) then acc else acc ++ [x]) [] xs.
End counter.
End Counting.

(** ** Numeric columns with missing cells

    A numeric [Series] is a list of cells; [None] is NaN.  The reductions
    are written the way [pandas.core.nanops] computes them: through the mask
    of missing cells, not by first deleting them. *)

Module Series.

Definition Qc_of_nat (n : nat) : Qc := Qc_of_Z (Z.of_nat n).

Definition notna {A} (c : option A) : bool :=
  match c with Some _ => true | None => false end.

(** [s.dropna()] *)
Definition dropna {A} (s : list (option A)) : list A := omap id s.

(** [s.count()]: the number of cells whose mask bit is clear. *)
Definition count {A} (s : list (option A)) : nat :=
  foldr (λ c n, if notna c then S n else n) 0%nat s.

(** [nansum]: missing cells are filled with 0 before adding up. *)
Definition nansum (s : list (option Qc)) : Qc :=
  foldr (λ c a, default 0 c + a) 0 s.

(** [s.mean()]: the filled sum over the number of present cells; NaN when
    no cell is present.  The quotient is exact here; the float64 one can
    differ from it in the last digits. *)
Definition mean (s : list (option Qc)) : option Qc :=
  let n := count s in
  if decide (n = 0%nat) then None else Some (nansum s / Qc_of_nat n).

Definition Qc_max (a b : Qc) : Qc := if decide (a ≤ b) then b else a.
Definition Qc_min (a b : Qc) : Qc := if decide (a ≤ b) then a else b.

(** One step of a reduction that skips missing cells. *)
Definition skipna (f : Qc → Qc → Qc) (c acc : option Qc) : option Qc :=
  match c, acc with
  | None, _ => acc
  | Some v, None => Some v
  | Some v, Some a => Some (f v a)
  end.

(** [s.max()] and [s.min()]; NaN when no cell is present. *)
Definition max (s : list (option Qc)) : option Qc := foldr (skipna Qc_max) None s.
Definition min (s : list (option Qc)) : option Qc := foldr (skipna Qc_min) None s.

(** [s.var()] with the default [ddof=1]: squared distances to the mean of
    the present cells (a missing cell adds 0), over [count - 1]; NaN when
    fewer than two cells are present.  [s.std()] is its square root. *)
Definition var (s : list (option Qc)) : option Qc :=
  let n := count s in
  if decide (n ≤ 1)%nat then None
  else
    let avg := nansum s / Qc_of_nat n in
    let sq (c : option Qc) :=
      match c with Some v => (avg - v) * (avg - v) | None => 0 end in
    Some (foldr (λ c a, sq c + a) 0 s / Qc_of_nat (n - 1)).

(** [s.std()]: the square root of the variance, a real number. *)
Definition std (s : list (option Qc)) : option R :=
  (λ v : Qc, sqrt (Q2R v)) <$> var s.

Definition Qc_leb (a b : Qc) : bool := bool_decide (a ≤ b).

Definition Qc_floor (x : Qc) : Z := Qfloor (this x).

(** [s.quantile(q)] with linear interpolation: [numpy.percentile] of the
    present cells, NaN when there is none.  The virtual index is
    [(n - 1) * q]; the outcome lies between the two sorted values around it. *)
Definition quantile (q : Qc) (s : list (option Qc)) : option Qc :=
  let xs := Stable.sort Qc_leb (dropna s) in
  match xs with
  | [] => None
  | x0 :: _ =>
      let n := length xs in
      let h := Qc_of_nat (n - 1) * q in
      let lo := Z.to_nat (Qc_floor h) in
      let hi := Nat.min (lo + 1) (n - 1) in
      let g := h - Qc_of_nat lo in
      let a := nth lo xs x0 in
      let b := nth hi xs x0 in
      Some (a + (b - a) * g)
  end.

(** [s.describe()] of a numeric column.  The [std] entry is carried as the
    variance it is the square root of, so that every entry is a rational
    number that can be computed; [std] above is the entry itself. *)
Record SummaryStats := {
  st_count : nat;
  st_mean : option Qc;
  st_var : option Qc;
  st_min : option Qc;
  st_q25 : option Qc;
  st_q50 : option Qc;
  st_q75 : option Qc;
  st_max : option Qc;
}.

Definition quarter : Qc := Q2Qc (1 # 4).
Definition half : Qc := Q2Qc (1 # 2).
Definition three_quarters : Qc := Q2Qc (3 # 4).

Definition describe (s : list (option Qc)) : SummaryStats :=
  {| st_count := count s;
     st_mean := mean s;
     st_var := var s;
     st_min := min s;
     st_q25 := quantile quarter s;
     st_q50 := quantile half s;
     st_q75 := quantile three_quarters s;
     st_max := max s |}.

(** The textbook statistics of a list of numbers, with no notion of a
    missing value: what the reductions above are compared with. *)
Module Plain.
Definition sum (xs : list Qc) : Qc := foldr Qcplus 0 xs.

Definition mean (xs : list Qc) : option Qc :=
  match xs with
  | [] => None
  | _ => Some (sum xs / Qc_of_nat (length xs))
  end.

Fixpoint reduce (f : Qc → Qc → Qc) (x : Qc) (xs : list Qc) : Qc :=
  match xs with
  | [] => x
  | y :: ys => f x (reduce f y ys)
  end.

Definition max (xs : list Qc) : option Qc :=
  match xs with
  | [] => None
  | x :: xs' => Some (reduce Qc_max x xs')
  end.

Definition min (xs : list Qc) : option Qc :=
  match xs with
  | [] => None
  | x :: xs' => Some (reduce Qc_min x xs')
  end.

Definition var (xs : list Qc) : option Qc :=
  match xs with
  | [] | [_] => None
  | _ =>
      let avg := sum xs / Qc_of_nat (length xs) in
      Some (sum ((λ v, (avg - v) * (avg - v)) <$> xs) / Qc_of_nat (length xs - 1))
  end.

(** The number of values of [xs] below [x], and not above it. *)
Definition count_lt (x : Qc) (xs : list Qc) : nat :=
  length (filter (λ y, y < x) xs).
Definition count_le (x : Qc) (xs : list Qc) : nat :=
  length (filter (λ y, y ≤ x) xs).

(** The value of rank [k] (from 0) of [xs]: at most [k] values are below
    it and more than [k] are not above it. *)
Definition nth_smallest (k : nat) (xs : list Qc) : option Qc :=
  snd <$> list_find (λ x, (count_lt x xs ≤ k)%nat ∧ (k < count_le x xs)%nat) xs.

(** The quantile by linear interpolation between the values of the two
    ranks around [(n - 1) * q]; no list is sorted for it. *)
Definition quantile (q : Qc) (xs : list Qc) : option Qc :=
  let n := length xs in
  let h := Qc_of_nat (n - 1) * q in
  let lo := Z.to_nat (Qc_floor h) in
  let hi := Nat.min (lo + 1) (n - 1) in
  match nth_smallest lo xs, nth_smallest hi xs with
  | Some a, Some b => Some (a + (b - a) * (h - Qc_of_nat lo))
  | _, _ => None
  end.

Definition describe (xs : list Qc) : SummaryStats :=
  {| st_count := length xs;
     st_mean := mean xs;
     st_var := var xs;
     st_min := min xs;
     st_q25 := quantile quarter xs;
     st_q50 := quantile half xs;
     st_q75 := quantile three_quarters xs;
     st_max := max xs |}.
End Plain.
End Series.

(** ** Text: [str.strip], [str.split(",")] and [re.split(r',\s*', x)] *)

Module Text.

(** [str.isspace] on one character, for code points below 256; the regular
    expression class [\s] of a [str] pattern is the same set. *)
Definition is_space (c : ascii) : bool :=
  let n := nat_of_ascii c in
  ((9 <=? n) && (n <=? 13) || (28 <=? n) && (n <=? 32)
   || (n =? 133) || (n =? 160))%nat.

Definition comma : ascii := ","%char.

Fixpoint lstrip (s : string) : string :=
  match s with
  | EmptyString => EmptyString
  | String c s' => if is_space c then lstrip s' else s
  end.

Fixpoint rstrip (s : string) : string :=
  match s with
  | EmptyString => EmptyString
  | String c s' =>
      match rstrip s' with
      | EmptyString => if is_space c then EmptyString else String c EmptyString
      | r => String c r
      end
  end.

(** [s.strip()] *)
Definition strip (s : string) : string := rstrip (lstrip s).

(** Puts [c] in front of the first piece of a split. *)
Definition cons_head (c : ascii) (ps : list string) : list string :=
  match ps with
  | [] => [String c EmptyString]
  | p :: ps' => String c p :: ps'
  end.

(** [s.split(",")]: one piece more than there are commas. *)
Fixpoint split (s : string) : list string :=
  match s with
  | EmptyString => [EmptyString]
  | String c s' =>
      if Ascii.eqb c comma then EmptyString :: split s'
      else cons_head c (split s')
  end.

(** [re.split(r',\s*', s)]: a separator is a comma with all the white space
    that follows it.  [in_sep] holds while that white space is consumed. *)
Fixpoint re_split_from (in_sep : bool) (s : string) : list string :=
  match s with
  | EmptyString => [EmptyString]
  | String c s' =>
      if in_sep && is_space c then re_split_from true s'
      else if Ascii.eqb c comma then EmptyString :: re_split_from true s'
      else cons_head c (re_split_from false s')
  end.

Definition re_split (s : string) : list string := re_split_from false s.

(** Truth value of a [str]: non-empty. *)
Definition truthy (s : string) : bool :=
  match s with EmptyString => false | _ => true end.

(** Lines 87-88: the tokens of every present [required_skills] cell, trimmed,
    the empty ones left out.
    [[skill.strip() for sublist in skills_series for skill in sublist
      if skill.strip()]] *)
Definition all_skills (required_skills : list (option string)) : list string :=
  sublist ← re_split <$> Series.dropna required_skills;
  skill ← sublist;
  if truthy (strip skill) then [strip skill] else [].

(** Line 96: [[s.strip() for s in x.split(",")]] *)
Definition split_strip (x : string) : list string := strip <$> split x.
End Text.

(** ** Grouping: [df.groupby(keys)[col]] *)

Module GroupBy.
Section groupby.
Context {K V : Type} `{EqDecision K} (key_leb : K → K → bool).

(** A row joins the group of its key; a new key opens a new group after
    the ones seen so far. *)
Fixpoint add_to_group (k : K) (v : V) (g : list (K * list V)) : list (K * list V) :=
  match g with
  | [] => [(k, [v])]
  | (k', vs) :: g' =>
      if decide (k = k') then (k', vs ++ [v]) :: g'
      else (k', vs) :: add_to_group k v g'
  end.

(** The split step.  A row whose key is missing belongs to no group
    ([dropna=True], the default). *)
Definition groups (rows : list (option K * V)) : list (K * list V) :=
  foldl (λ g r, match r.1 with Some k => add_to_group k r.2 g | None => g end)
    [] rows.

(** Groups come out in ascending key order ([sort=True], the default). *)
Definition groupby (rows : list (option K * V)) : list (K * list V) :=
  Stable.sort (λ a b, key_leb a.1 b.1) (groups rows).

(** The apply step: one reduced value per group. *)
Definition agg {B} (f : list V → B) (g : list (K * list V)) : list (K * B) :=
  (λ kv, (kv.1, f kv.2)) <$> g.

(** The cells of the rows whose key is [k], in row order. *)
Definition members (k : K) (rows : list (option K * V)) : list V :=
  snd <$> filter (λ r, r.1 = Some k) rows.
End groupby.
End GroupBy.

(** ** The data frame of job postings *)

Module Frame.

(** A cell as the loader delivers it: a number, a text, or nothing. *)
Inductive Cell :=
| CNum (q : Qc)
| CStr (s : string)
| CNaN.

(** A parsed [Timestamp]: calendar date and time of day in nanoseconds. *)
Record Timestamp := {
  ts_year : Z;
  ts_month : Z;
  ts_day : Z;
  ts_nanos : Z;
}.

(** Days from 1970-01-01 to a date of the proleptic Gregorian calendar. *)
Definition days_from_civil (y m d : Z) : Z :=
  let y' := if (m <=? 2)%Z then (y - 1)%Z else y in
  let era := (y' `div` 400)%Z in
  let yoe := (y' - era * 400)%Z in
  let mp := if (2 <? m)%Z then (m - 3)%Z else (m + 9)%Z in
  let doy := ((153 * mp + 2) `div` 5 + d - 1)%Z in
  let doe := (yoe * 365 + yoe `div` 4 - yoe `div` 100 + doy)%Z in
  (era * 146097 + doe - 719468)%Z.

Definition nanos_per_day : Z := 86400000000000.

Definition epoch_nanos (t : Timestamp) : Z :=
  (days_from_civil (ts_year t) (ts_month t) (ts_day t) * nanos_per_day
   + ts_nanos t)%Z.

(** [(a - b).days]: whole days of the difference, rounded down. *)
Definition timedelta_days (a b : Timestamp) : Z :=
  ((epoch_nanos a - epoch_nanos b) `div` nanos_per_day)%Z.

(** The grammars of [pd.to_numeric] and [pd.to_datetime] are pandas', not
    this script's: they are taken as given.  [None] is a text (or number)
    the grammar rejects. *)
Record Parsers := {
  numeric_of_string : string → option Qc;
  datetime_of_string : string → option Timestamp;
  datetime_of_number : Qc → option Timestamp;
}.

(** [pd.to_numeric(col, errors='coerce')] on one cell. *)
Definition to_numeric (P : Parsers) (c : Cell) : option Qc :=
  match c with
  | CNum q => Some q
  | CStr s => numeric_of_string P s
  | CNaN => None
  end.

(** [pd.to_datetime(col, errors='coerce')] on one cell. *)
Definition to_datetime (P : Parsers) (c : Cell) : option Timestamp :=
  match c with
  | CNum q => datetime_of_number P q
  | CStr s => datetime_of_string P s
  | CNaN => None
  end.

(** A row as [get_df] returns it.  [raw_others] stands for the columns the
    script reduces nowhere (remote ratio, years of experience, ...). *)
Record RawRow := {
  raw_job_title : option string;
  raw_company_name : option string;
  raw_company_location : option string;
  raw_experience_level : option string;
  raw_required_skills : option string;
  raw_salary_usd : Cell;
  raw_posting_date : Cell;
  raw_application_deadline : Cell;
  raw_employment_type : option string;
  raw_industry : option string;
  raw_others : list Cell;
}.

(** A row of [df] once lines 15-19 have run. *)
Record Row := {
  job_title : option string;
  company_name : option string;
  company_location : option string;
  experience_level : option string;
  required_skills : option string;
  salary_usd : option Qc;
  posting_date : option Timestamp;
  application_deadline : option Timestamp;
  posting_year : option Z;
  posting_month : option Z;
  employment_type : option string;
  industry : option string;
  others : list Cell;
}.

(** [df]: its rows, and the column [deadline_days], which exists only once
    line 187 has assigned it. *)
Record DataFrame := {
  rows : list Row;
  deadline_days : option (list (option Z));
}.

(** Lines 15-19 on one row. *)
Definition coerce (P : Parsers) (r : RawRow) : Row :=
  let date := to_datetime P (raw_posting_date r) in
  {| job_title := raw_job_title r;
     company_name := raw_company_name r;
     company_location := raw_company_location r;
     experience_level := raw_experience_level r;
     required_skills := raw_required_skills r;
     salary_usd := to_numeric P (raw_salary_usd r);
     posting_date := date;
     application_deadline := to_datetime P (raw_application_deadline r);
     posting_year := ts_year <$> date;
     posting_month := ts_month <$> date;
     employment_type := raw_employment_type r;
     industry := raw_industry r;
     others := raw_others r |}.

(** Lines 12-19: the frame every section reads. *)
Definition ingest (P : Parsers) (raw : list RawRow) : DataFrame :=
  {| rows := coerce P <$> raw; deadline_days := None |}.

(** [df[mask]]: the rows whose mask bit is set. *)
Fixpoint boolean_index {A} (l : list A) (mask : list bool) : list A :=
  match l, mask with
  | x :: l', b :: mask' =>
      if b then x :: boolean_index l' mask' else boolean_index l' mask'
  | _, _ => []
  end.

(** [col >= t] and [t > m] on a cell that may be missing: a comparison
    with NaN is false. *)
Definition ge_cell (c : option Qc) (t : Qc) : bool :=
  match c with Some v => bool_decide (t ≤ v) | None => false end.

Definition gt_cell (t : Qc) (m : option Qc) : bool :=
  match m with Some v => bool_decide (v < t) | None => false end.

(** [col.isin(values)]: a missing cell is in no list of texts. *)
Definition isin (c : option string) (values : list string) : bool :=
  match c with Some s => bool_decide (s ∈ values) | None => false end.

(** [col == value] *)
Definition eq_cell `{EqDecision A} (c : option A) (v : A) : bool :=
  match c with Some x => bool_decide (x = v) | None => false end.

(** Line 28: [df[df["salary_usd"] >= salary_min]] *)
Definition filtered_df (df : list Row) (salary_min : Qc) : list Row :=
  boolean_index df ((λ r, ge_cell (salary_usd r) salary_min) <$> df).

(** Key orders of the groupings. *)
Definition string_leb (a b : string) : bool := String.leb a b.

Definition pair_leb {A B} (lt : A → A → bool) (eqb : A → A → bool)
    (leb : B → B → bool) (a b : A * B) : bool :=
  if lt a.1 b.1 then true else if eqb a.1 b.1 then leb a.2 b.2 else false.

Definition year_level_leb : Z * string → Z * string → bool :=
  pair_leb Z.ltb Z.eqb string_leb.

Definition text_pair_leb : string * string → string * string → bool :=
  pair_leb String.ltb String.eqb string_leb.

(** A pair of key columns: the key is missing when either cell is. *)
Definition key2 {A B} (a : option A) (b : option B) : option (A * B) :=
  match a, b with Some x, Some y => Some (x, y) | _, _ => None end.

(** [df.groupby(keys)["salary_usd"].mean().reset_index()] *)
Definition mean_salary_by {K} `{EqDecision K} (key_leb : K → K → bool)
    (key : Row → option K) (df : list Row) : list (K * option Qc) :=
  GroupBy.agg Series.mean
    (GroupBy.groupby key_leb ((λ r, (key r, salary_usd r)) <$> df)).

(** Lines 71-72 *)
Definition time_series (df : list Row) : list ((Z * string) * option Qc) :=
  mean_salary_by year_level_leb
    (λ r, key2 (posting_year r) (experience_level r))
    (boolean_index df ((λ r, Series.notna (posting_year r)) <$> df)).

(** Lines 40-41: [df[col].value_counts().head(10).index.tolist()] *)
Definition top_values (n : nat) (col : list (option string)) : list string :=
  Counting.index (Counting.head n (Counting.value_counts col)).

Definition top_titles (df : list Row) : list string :=
  top_values 10 (job_title <$> df).

Definition top_locations (df : list Row) : list string :=
  top_values 10 (company_location <$> df).

(** Lines 144-145 *)
Definition exp_country (top_locations : list string) (df : list Row)
    : list ((string * string) * option Qc) :=
  mean_salary_by text_pair_leb
    (λ r, key2 (company_location r) (experience_level r))
    (boolean_index df ((λ r, isin (company_location r) top_locations) <$> df)).

(** Line 137: [df.groupby("posting_month").size()] *)
Definition monthly (df : list Row) : list (Z * nat) :=
  GroupBy.agg length
    (GroupBy.groupby Z.leb ((λ r, (posting_month r, ())) <$> df)).

(** Line 78 *)
Definition ds_2024 (df : list Row) : list Row :=
  boolean_index df
    ((λ r, eq_cell (job_title r) "Data Scientist"%string
           && eq_cell (posting_year r) 2024%Z) <$> df).

(** Line 187: application deadline minus posting date, in days. *)
Definition deadline_span (r : Row) : option Z :=
  match application_deadline r, posting_date r with
  | Some a, Some p => Some (timedelta_days a p)
  | _, _ => None
  end.

(** Lines 87-89 *)
Definition skill_counts (df : list Row) : list (string * nat) :=
  Counting.most_common 15
    (Counting.Counter (Text.all_skills (required_skills <$> df))).

(** Line 95: [df[["salary_usd", "required_skills"]].dropna()], a frame of
    its own: a row stays when both cells are present. *)
Definition df_skills (df : list Row) : list (Qc * string) :=
  omap (λ r, key2 (salary_usd r) (required_skills r)) df.

(** [frame.explode(col)]: one row per list element; an empty list gives
    one row with a missing cell. *)
Definition explode {A B} (t : list (A * list B)) : list (A * option B) :=
  r ← t;
  match r.2 with
  | [] => [(r.1, None)]
  | xs => (λ x, (r.1, Some x)) <$> xs
  end.

(** Lines 96-97 *)
Definition exploded_skills (df : list Row) : list (Qc * option string) :=
  explode ((λ r, (r.1, Text.split_strip r.2)) <$> df_skills df).

Definition opt_leb (a b : option Qc) : bool :=
  match a, b with
  | Some x, Some y => bool_decide (x ≤ y)
  | _, _ => true
  end.

(** [t.sort_values(by=value, ascending=False)]: present values in
    descending order, rows with a missing value last.  Among equal values
    the stable sort picks one of the orders pandas' default sort may
    leave. *)
Definition sort_values_desc {K} (t : list (K * option Qc)) : list (K * option Qc) :=
  Stable.sort_desc (λ a b, opt_leb a.2 b.2) (filter (λ kv, is_Some kv.2) t)
  ++ filter (λ kv, kv.2 = None) t.

(** Lines 98-100 *)
Definition skill_salary (skill_counts : list (string * nat)) (df : list Row)
    : list (string * option Qc) :=
  let top_10_skills := Counting.index (Counting.head 10 skill_counts) in
  let ex := exploded_skills df in
  let kept := boolean_index ex ((λ r, isin r.2 top_10_skills) <$> ex) in
  sort_values_desc
    (GroupBy.agg Series.mean
       (GroupBy.groupby string_leb ((λ r, (r.2, Some r.1)) <$> kept))).

(** [numpy.rint]: the nearest integer, a tie going to the even one. *)
Definition rint (x : Qc) : Z :=
  let f := Series.Qc_floor x in
  let r := x - Qc_of_Z f in
  if decide (r < Series.half) then f
  else if decide (Series.half < r) then (f + 1)%Z
  else if Z.even f then f else (f + 1)%Z.

(** [numpy.round(x, 2)]: [rint(x * 100) / 100].  The product and the
    quotient are exact here; in float64 the product can fall on the other
    side of a tie. *)
Definition round2 (x : Qc) : Qc := Qc_of_Z (rint (x * Qc_of_Z 100)) / Qc_of_Z 100.

(** The table of a [pivot_table]: row labels, column labels, and one cell
    per pair of them; [None] is a pair with no data. *)
Record PivotTable := {
  pt_index : list string;
  pt_columns : list string;
  pt_values : list (list (option Qc));
}.

(** The cell of a key in a keyed table; missing when the key is absent. *)
Definition cell_of {K} `{EqDecision K} (k : K) (t : list (K * option Qc)) : option Qc :=
  match list_find (λ kv, kv.1 = k) t with
  | Some (_, kv) => kv.2
  | None => None
  end.

(** [frame.pivot_table(index=.., columns=.., values="salary_usd",
    aggfunc="mean")], first half: the mean per observed pair of keys, the
    pairs whose mean is missing dropped ([dropna=True]). *)
Definition pivot_agged (row_key col_key : Row → option string) (df : list Row)
    : list ((string * string) * option Qc) :=
  filter (λ kv, is_Some kv.2)
    (mean_salary_by text_pair_leb (λ r, key2 (row_key r) (col_key r)) df).

(** Second half: the means laid out in two dimensions over the sorted
    labels that are left. *)
Definition pivot_mean (row_key col_key : Row → option string) (df : list Row)
    : PivotTable :=
  let agged := pivot_agged row_key col_key df in
  let index := Stable.sort string_leb (Counting.first_seen (agged.*1.*1)) in
  let columns := Stable.sort string_leb (Counting.first_seen (agged.*1.*2)) in
  {| pt_index := index;
     pt_columns := columns;
     pt_values := (λ i, (λ c, cell_of (i, c) agged) <$> columns) <$> index |}.

Definition round_table (t : PivotTable) : PivotTable :=
  {| pt_index := pt_index t;
     pt_columns := pt_columns t;
     pt_values :=
       (λ line : list (option Qc), (λ c : option Qc, round2 <$> c) <$> line)
         <$> pt_values t |}.

(** Line 42 *)
Definition top_data (titles locations : list string) (df : list Row) : list Row :=
  boolean_index df
    ((λ r, isin (job_title r) titles && isin (company_location r) locations)
       <$> df).

(** Line 45 *)
Definition heatmap_df (titles locations : list string) (df : list Row) : PivotTable :=
  round_table (pivot_mean job_title company_location (top_data titles locations df)).

(** Line 199: [df["salary_usd"].describe().round(2)].  The variance entry
    stands for the standard deviation and is left as it is. *)
Definition stats (df : list Row) : Series.SummaryStats :=
  let d := Series.describe (salary_usd <$> df) in
  {| Series.st_count := Series.st_count d;
     Series.st_mean := round2 <$> Series.st_mean d;
     Series.st_var := Series.st_var d;
     Series.st_min := round2 <$> Series.st_min d;
     Series.st_q25 := round2 <$> Series.st_q25 d;
     Series.st_q50 := round2 <$> Series.st_q50 d;
     Series.st_q75 := round2 <$> Series.st_q75 d;
     Series.st_max := round2 <$> Series.st_max d |}.
End Frame.

(** ** The aggregates of the remaining charts

    What the other sections reduce [df] to before charting it, each as a
    function of the rows of [df].  Two of them read a text column that no
    other aggregate touches (employment type, industry); they are given
    that column, cell by cell in row order. *)

Module Charts.
Import Frame.

(** Line 64 *)
Definition exp_data (top_locations : list string) (df : list Row) : list Row :=
  boolean_index df ((λ r, isin (company_location r) top_locations) <$> df).

(** Line 65:
    [exp_data.groupby(["company_location", "experience_level"]).size()] *)
Definition exp_bar (top_locations : list string) (df : list Row)
    : list ((string * string) * nat) :=
  GroupBy.agg length
    (GroupBy.groupby text_pair_leb
       ((λ r, (key2 (company_location r) (experience_level r), ()))
          <$> exp_data top_locations df)).

(** Line 116: [df["job_title"].value_counts().head(15)] *)
Definition job_freq (df : list Row) : list (string * nat) :=
  Counting.head 15 (Counting.value_counts (job_title <$> df)).

(** The three reductions of line 121 on one group. *)
Record Range := {
  r_min : option Qc;
  r_max : option Qc;
  r_mean : option Qc;
}.

(** Line 121:
    [df.groupby("job_title")["salary_usd"].agg(["min", "max", "mean"])] *)
Definition salary_ranges (df : list Row) : list (string * Range) :=
  GroupBy.agg
    (λ cells, {| r_min := Series.min cells;
                 r_max := Series.max cells;
                 r_mean := Series.mean cells |})
    (GroupBy.groupby string_leb ((λ r, (job_title r, salary_usd r)) <$> df)).

(** [a - b] on cells that may be missing. *)
Definition sub_cell (a b : option Qc) : option Qc :=
  match a, b with
  | Some x, Some y => Some (x - y)
  | _, _ => None
  end.

(** Lines 125-127: what one bar of the range chart is drawn from: its
    height [max - min], its base [min], and its label [mean.round(0)].
    The difference is exact here; in float64 the base plus the height need
    not give the maximum back. *)
Definition bar_height (r : Range) : option Qc := sub_cell (r_max r) (r_min r).
Definition bar_base (r : Range) : option Qc := r_min r.
Definition bar_text (r : Range) : option Qc := (λ m, Qc_of_Z (rint m)) <$> r_mean r.

Record Bar := {
  b_base : option Qc;
  b_height : option Qc;
  b_text : option Qc;
}.

(** Lines 122-130: the bars [go.Bar] is given, one per line of
    [salary_ranges]. *)
Definition range_bars (df : list Row) : list (string * Bar) :=
  (λ e, (e.1, {| b_base := bar_base e.2;
                 b_height := bar_height e.2;
                 b_text := bar_text e.2 |})) <$> salary_ranges df.

(** Line 151: the rows whose location is among the 30 most frequent. *)
Definition map_data (df : list Row) : list Row :=
  boolean_index df
    ((λ r, isin (company_location r) (top_values 30 (company_location <$> df)))
       <$> df).

(** Line 152 *)
Definition map_avg (df : list Row) : list (string * option Qc) :=
  mean_salary_by string_leb company_location (map_data df).

(** Line 159:
    [df.groupby("company_name")["salary_usd"].mean()
       .sort_values(ascending=False).head(5)] *)
Definition top_companies (df : list Row) : list (string * option Qc) :=
  Counting.head 5
    (sort_values_desc (mean_salary_by string_leb company_name df)).

(** Line 165: [df["employment_type"].value_counts()] *)
Definition emp_counts (employment_type : list (option string))
    : list (string * nat) :=
  Counting.value_counts employment_type.

(** Line 193:
    [df.groupby("industry")["salary_usd"].mean().sort_values(ascending=False)];
    a row is its industry cell and its salary cell. *)
Definition industry_salary (rows : list (option string * option Qc))
    : list (string * option Qc) :=
  sort_values_desc
    (GroupBy.agg Series.mean (GroupBy.groupby string_leb rows)).

(** Line 194: the chart takes [industry_salary.head(15)]. *)
Definition industry_chart (rows : list (option string * option Qc))
    : list (string * option Qc) :=
  Counting.head 15 (industry_salary rows).
End Charts.

(** ** The script, section by section

    The script's globals are its state: [df], the two variables one section
    assigns and a later one reads ([top_locations], [skill_counts]), and what
    has been handed to the page so far.  A section is the code under one
    [# ======] header of the script, and every section that hands a chart, a
    table or a computed text to the page is here, in the script's order; the
    headings and the two constant texts at the two ends are not.  A chart
    that is given [df] or a part of it as it is (histogram, scatter, box and
    violin plot) is recorded with the rows it is given.

    One call of the script can raise: [ff.create_annotated_heatmap] (line
    46) raises [IndexError] when the table it is given has no line, and the
    script has no handler, so the run ends there.  The other chart
    constructors are plotly's and are taken to draw whatever frame they are
    given. *)

Module Script.
Import Frame.

Inductive Message :=
| ThresholdAboveAll      (* "You've set a salary threshold above all available listings." *)
| NoJobsFound            (* "No jobs found for this salary threshold." *)
| NoDataScientist2024.   (* "No Data Scientist job data found for 2024." *)

(** The column a plot of the whole frame puts on its x axis; the y axis is
    [salary_usd] throughout. *)
Inductive Column :=
| JobTitle
| CompanyLocation
| JobDescriptionLength
| RemoteRatio
| CompanySize
| EducationRequired
| YearsExperience.

(** What [text], [plotly] and [table] receive. *)
Inductive Output :=
| Warning (m : Message)
| SalaryHistogram (salary_min : Qc) (frame : list Row)
| Heatmap (t : PivotTable)
| TimeSeriesLine (t : list ((Z * string) * option Qc))
| DataScientistHistogram (frame : list Row)
| SkillsBar (t : list (string * nat))
| SkillSalaryBar (t : list (string * option Qc))
| MonthlyLine (t : list (Z * nat))
| ExpCountryBar (t : list ((string * string) * option Qc))
| DeadlineHistogram (days : list Z)
| StatsText (s : Series.SummaryStats)
| BoxPlot (x : Column) (frame : list Row)
| ViolinPlot (x : Column) (frame : list Row)
| ScatterPlot (x : Column) (trendline : bool) (frame : list Row)
| ExperienceBar (t : list ((string * string) * nat))
| JobTitleBar (t : list (string * nat))
| SalaryRangeBar (t : list (string * Charts.Bar))
| WorldMap (t : list (string * option Qc))
| CompaniesTable (t : list (string * option Qc))
| EmploymentPie (t : list (string * nat))
| IndustryBar (t : list (string * option Qc)).

Record State := {
  v_df : DataFrame;
  v_top_locations : list string;
  v_skill_counts : list (string * nat);
  shown : list Output;
}.

(** A statement of the script: it reads and updates the globals. *)
Definition Stmt (A : Type) : Type := State → A * State.

#[global] Instance stmt_ret : MRet Stmt := λ A x s, (x, s).
#[global] Instance stmt_bind : MBind Stmt :=
  λ A B f m s, let (x, s') := m s in f x s'.

Definition read {A} (f : State → A) : Stmt A := λ s, (f s, s).

(** [text(..)], [plotly(..)], [table(..)] *)
Definition show (o : Output) : Stmt () :=
  λ s, ((), {| v_df := v_df s;
               v_top_locations := v_top_locations s;
               v_skill_counts := v_skill_counts s;
               shown := shown s ++ [o] |}).

Definition set_top_locations (l : list string) : Stmt () :=
  λ s, ((), {| v_df := v_df s;
               v_top_locations := l;
               v_skill_counts := v_skill_counts s;
               shown := shown s |}).

Definition set_skill_counts (t : list (string * nat)) : Stmt () :=
  λ s, ((), {| v_df := v_df s;
               v_top_locations := v_top_locations s;
               v_skill_counts := t;
               shown := shown s |}).

(** [df["deadline_days"] = col] *)
Definition set_deadline_days (col : list (option Z)) : Stmt () :=
  λ s, ((), {| v_df := {| rows := rows (v_df s); deadline_days := Some col |};
               v_top_locations := v_top_locations s;
               v_skill_counts := v_skill_counts s;
               shown := shown s |}).

Definition empty {A} (frame : list A) : bool :=
  match frame with [] => true | _ => false end.

(** What a statement can raise. *)
Inductive Exception :=
| IndexError.

(** How a piece of the script ends: at its last statement, or at the
    statement that raises, with the globals as they are then. *)
Inductive Outcome :=
| Done (s : State)
| Raise (e : Exception) (s : State).

(** The globals a piece of the script leaves behind, however it ends. *)
Definition final (o : Outcome) : State :=
  match o with Done s | Raise _ s => s end.

(** A section of the script. *)
Definition Step : Type := State → Outcome.

(** A section none of whose statements raises. *)
Definition straight (stmt : Stmt ()) : Step := λ s, Done (stmt s).2.

(** Lines 27-36, for the value [salary_min] the slider returns. *)
Definition sec_threshold (salary_min : Qc) : Stmt () :=
  df ← read (rows ∘ v_df);
  let filtered := filtered_df df salary_min in
  if gt_cell salary_min (Series.max (salary_usd <$> df))
  then show (Warning ThresholdAboveAll)
  else if empty filtered then show (Warning NoJobsFound)
  else show (SalaryHistogram salary_min filtered).

(** Lines 53-67: what follows the construction of the heatmap. *)
Definition top_charts (heatmap : PivotTable) (top_data : list Row)
    (locations : list string) : Stmt () :=
  show (Heatmap heatmap);;
  show (BoxPlot JobTitle top_data);;
  show (ViolinPlot CompanyLocation top_data);;
  df ← read (rows ∘ v_df);
  show (ExperienceBar (Charts.exp_bar locations df)).

(** Lines 40-67.  Line 46 raises when the pivot table has no line, after
    [top_locations] has been assigned and before anything of the section
    has been handed to the page. *)
Definition sec_top : Step := λ s,
  let df := rows (v_df s) in
  let titles := top_titles df in
  let locations := top_locations df in
  let s' := (set_top_locations locations s).2 in
  let heatmap := heatmap_df titles locations df in
  if empty (pt_values heatmap) then Raise IndexError s'
  else Done (top_charts heatmap (top_data titles locations df) locations s').2.

(** Lines 71-74 *)
Definition sec_time_series : Stmt () :=
  df ← read (rows ∘ v_df);
  show (TimeSeriesLine (time_series df)).

(** Lines 78-83 *)
Definition sec_ds_2024 : Stmt () :=
  df ← read (rows ∘ v_df);
  let ds := ds_2024 df in
  if empty ds then show (Warning NoDataScientist2024)
  else show (DataScientistHistogram ds).

(** Lines 87-91 *)
Definition sec_skills : Stmt () :=
  df ← read (rows ∘ v_df);
  let counts := skill_counts df in
  set_skill_counts counts;;
  show (SkillsBar counts).

(** Lines 95-102 *)
Definition sec_skill_salary : Stmt () :=
  df ← read (rows ∘ v_df);
  counts ← read v_skill_counts;
  show (SkillSalaryBar (skill_salary counts df)).

(** Lines 106-107 *)
Definition sec_description_length : Stmt () :=
  df ← read (rows ∘ v_df);
  show (ScatterPlot JobDescriptionLength false df).

(** Lines 111-112 *)
Definition sec_remote : Stmt () :=
  df ← read (rows ∘ v_df);
  show (BoxPlot RemoteRatio df).

(** Lines 116-133 *)
Definition sec_titles : Stmt () :=
  df ← read (rows ∘ v_df);
  show (JobTitleBar (Charts.job_freq df));;
  show (SalaryRangeBar (Charts.range_bars df)).

(** Lines 137-140 *)
Definition sec_monthly : Stmt () :=
  df ← read (rows ∘ v_df);
  show (MonthlyLine (monthly df)).

(** Lines 144-147 *)
Definition sec_exp_country : Stmt () :=
  df ← read (rows ∘ v_df);
  locations ← read v_top_locations;
  show (ExpCountryBar (exp_country locations df)).

(** Lines 151-155 *)
Definition sec_map : Stmt () :=
  df ← read (rows ∘ v_df);
  show (WorldMap (Charts.map_avg df)).

(** Lines 159-160 *)
Definition sec_companies : Stmt () :=
  df ← read (rows ∘ v_df);
  show (CompaniesTable (Charts.top_companies df)).

(** Lines 165-168 *)
Definition sec_employment : Stmt () :=
  df ← read (rows ∘ v_df);
  show (EmploymentPie (Charts.emp_counts (employment_type <$> df))).

(** Lines 172-173 *)
Definition sec_company_size : Stmt () :=
  df ← read (rows ∘ v_df);
  show (BoxPlot CompanySize df).

(** Lines 177-178 *)
Definition sec_education : Stmt () :=
  df ← read (rows ∘ v_df);
  show (BoxPlot EducationRequired df).

(** Lines 182-183 *)
Definition sec_experience : Stmt () :=
  df ← read (rows ∘ v_df);
  show (ScatterPlot YearsExperience true df).

(** Lines 187-189: the column is assigned to [df], then the rows where it
    is present are charted. *)
Definition sec_deadline : Stmt () :=
  df ← read (rows ∘ v_df);
  set_deadline_days (deadline_span <$> df);;
  col ← read (deadline_days ∘ v_df);
  show (DeadlineHistogram (Series.dropna (default [] col))).

(** Lines 193-195 *)
Definition sec_industry : Stmt () :=
  df ← read (rows ∘ v_df);
  show (IndustryBar
          (Charts.industry_chart ((λ r, (industry r, salary_usd r)) <$> df))).

(** Lines 199-210 *)
Definition sec_stats : Stmt () :=
  df ← read (rows ∘ v_df);
  show (StatsText (stats df)).

(** The sections in the order the script runs them. *)
Definition sections (salary_min : Qc) : list Step :=
  [ straight (sec_threshold salary_min); sec_top; straight sec_time_series;
    straight sec_ds_2024; straight sec_skills; straight sec_skill_salary;
    straight sec_description_length; straight sec_remote; straight sec_titles;
    straight sec_monthly; straight sec_exp_country; straight sec_map;
    straight sec_companies; straight sec_employment; straight sec_company_size;
    straight sec_education; straight sec_experience; straight sec_deadline;
    straight sec_industry; straight sec_stats ].

(** Running sections one after the other: nothing runs after a raise. *)
Definition exec (body : list Step) (s : State) : Outcome :=
  foldl (λ o step, match o with Done s' => step s' | Raise _ _ => o end)
    (Done s) body.

(** Lines 11-19: the state the first section starts from.  The two
    variables are unbound until their section assigns them. *)
Definition start (P : Parsers) (raw : list RawRow) : State :=
  {| v_df := ingest P raw;
     v_top_locations := [];
     v_skill_counts := [];
     shown := [] |}.

(** One run of the dashboard on a loaded dataset and a slider value. *)
Definition run (P : Parsers) (raw : list RawRow) (salary_min : Qc) : Outcome :=
  exec (sections salary_min) (start P raw).

(** How the script has fared when its first [n] sections are behind it: in
    [Done s] the [n]-th section (from 0) finds the globals [s]. *)
Definition before_section (n : nat) (P : Parsers) (raw : list RawRow)
    (salary_min : Qc) : Outcome :=
  exec (take n (sections salary_min)) (start P raw).
End Script.

(** ** A small instance for the examples

    Parsers that read unsigned decimal integers and dates written
    [YYYY-MM-DD], and nothing else. *)

Module Sample.
Import Frame.

Definition digit (c : ascii) : option Z :=
  let n := Z.of_nat (nat_of_ascii c) in
  if ((48 <=? n) && (n <=? 57))%Z then Some (n - 48)%Z else None.

Fixpoint digits (acc : Z) (s : string) : option Z :=
  match s with
  | EmptyString => Some acc
  | String c s' =>
      match digit c with
      | Some d => digits (acc * 10 + d) s'
      | None => None
      end
  end.

Definition number (s : string) : option Z :=
  match s with EmptyString => None | _ => digits 0 s end.

Definition numeric (s : string) : option Qc := Qc_of_Z <$> number s.

Definition iso_date (s : string) : option Timestamp :=
  match number (String.substring 0 4 s), String.get 4 s,
        number (String.substring 5 2 s), String.get 7 s,
        number (String.substring 8 2 s), String.get 10 s with
  | Some y, Some "-"%char, Some m, Some "-"%char, Some d, None =>
      if ((1 <=? m) && (m <=? 12) && (1 <=? d) && (d <=? 31))%Z
      then Some {| ts_year := y; ts_month := m; ts_day := d; ts_nanos := 0 |}
      else None
  | _, _, _, _, _, _ => None
  end.

Definition parsers : Parsers :=
  {| numeric_of_string := numeric;
     datetime_of_string := iso_date;
     datetime_of_number := λ _, None |}.

(** A posting as a CSV line would give it: every cell a text. *)
Definition posting (title location level skills salary posted deadline : string)
    : RawRow :=
  {| raw_job_title := Some title;
     raw_company_name := None;
     raw_company_location := Some location;
     raw_experience_level := Some level;
     raw_required_skills := Some skills;
     raw_salary_usd := CStr salary;
     raw_posting_date := CStr posted;
     raw_application_deadline := CStr deadline;
     raw_employment_type := None;
     raw_industry := None;
     raw_others := [] |}.

Definition dataset : list RawRow :=
  [ posting "Data Scientist" "Germany" "SE" "Python, SQL" "90000"
      "2024-03-01" "2024-03-31";
    posting "ML Engineer" "Germany" "MI" "Python,,SQL" "n/a"
      "2024-13-40" "2024-04-15";
    posting "Data Scientist" "India" "SE" "SQL , Spark" "40000"
      "2025-01-10" "soon";
    posting "ML Engineer" "France" "EN" "Python" "undisclosed"
      "2024-05-02" "2024-06-01" ].

(** A dataset whose largest salary is 40,000. *)
Definition modest : list RawRow :=
  [ posting "Data Analyst" "India" "EN" "SQL" "40000"
      "2024-02-01" "2024-03-01";
    posting "Data Analyst" "Kenya" "EN" "SQL, Excel" "30000"
      "2024-02-03" "2024-03-03" ].
End Sample.

(** ** Vocabulary of the statements *)

Section vocabulary.
Import Frame Script.

(** The salary of [x] is present and at least [t]. *)
Definition at_least (t : Qc) (x : Row) : Prop :=
  ∃ v : Qc, salary_usd x = Some v ∧ t ≤ v.

#[global] Instance at_least_dec t x : Decision (at_least t x).
Proof.
  unfold at_least. destruct (salary_usd x) as [v|].
  - destruct (decide (t ≤ v)) as [Hle|Hgt].
    + left. by exists v.
    + right. intros (v' & [= <-] & Hle). done.
  - right. by intros (v' & [=] & _).
Defined.

(** What the page has received once the threshold section has run. *)
Definition after_threshold (t : Qc) (st : State) : list Output :=
  shown (sec_threshold t st).2.



(** The keys of the two grouped means the script charts. *)
Definition year_level (r : Row) : option (Z * string) :=
  key2 (posting_year r) (experience_level r).

Definition location_level (r : Row) : option (string * string) :=
  key2 (company_location r) (experience_level r).

(** The present salaries of the rows of [df] whose key is [k]. *)
Definition present_salaries {K} `{EqDecision K} (key : Row → option K)
    (k : K) (df : list Row) : list Qc :=
  Series.dropna (salary_usd <$> filter (λ r, key r = Some k) df).

(** What each branching section hands to the page, as a function of the
    rows of [df]. *)
Definition threshold_view (salary_min : Qc) (df : list Row) : Output :=
  if gt_cell salary_min (Series.max (salary_usd <$> df))
  then Warning ThresholdAboveAll
  else if empty (filtered_df df salary_min) then Warning NoJobsFound
  else SalaryHistogram salary_min (filtered_df df salary_min).

Definition ds_2024_view (df : list Row) : Output :=
  if empty (ds_2024 df) then Warning NoDataScientist2024
  else DataScientistHistogram (ds_2024 df).

(** The four charts of the insights section (lines 40-67). *)
Definition top_view (df : list Row) : list Output :=
  [ Heatmap (heatmap_df (top_titles df) (top_locations df) df);
    BoxPlot JobTitle (top_data (top_titles df) (top_locations df) df);
    ViolinPlot CompanyLocation (top_data (top_titles df) (top_locations df) df);
    ExperienceBar (Charts.exp_bar (top_locations df) df) ].

(** What each section hands to the page when it runs to its end, section
    by section in the script's order, each computed from the rows of [df]
    alone (and the slider value). *)
Definition section_views (salary_min : Qc) (df : list Row)
    : list (list Output) :=
  [ [threshold_view salary_min df];
    top_view df;
    [TimeSeriesLine (time_series df)];
    [ds_2024_view df];
    [SkillsBar (skill_counts df)];
    [SkillSalaryBar (skill_salary (skill_counts df) df)];
    [ScatterPlot JobDescriptionLength false df];
    [BoxPlot RemoteRatio df];
    [JobTitleBar (Charts.job_freq df); SalaryRangeBar (Charts.range_bars df)];
    [MonthlyLine (monthly df)];
    [ExpCountryBar (exp_country (top_locations df) df)];
    [WorldMap (Charts.map_avg df)];
    [CompaniesTable (Charts.top_companies df)];
    [EmploymentPie (Charts.emp_counts (employment_type <$> df))];
    [BoxPlot CompanySize df];
    [BoxPlot EducationRequired df];
    [ScatterPlot YearsExperience true df];
    [DeadlineHistogram (Series.dropna (deadline_span <$> df))];
    [IndustryBar
       (Charts.industry_chart ((λ r, (industry r, salary_usd r)) <$> df))];
    [StatsText (stats df)] ].

(** All of them, in the order they reach the page. *)
Definition views (salary_min : Qc) (df : list Row) : list Output :=
  concat (section_views salary_min df).

(** The heatmap table of the insights section has no line. *)
Definition heatmap_is_empty (df : list Row) : bool :=
  empty (pt_values (heatmap_df (top_titles df) (top_locations df) df)).

(** The globals once the first [n] sections have run to their end. *)
Definition globals_after (n : nat) (df : list Row) (salary_min : Qc) : State :=
  {| v_df := {| rows := df;
                deadline_days :=
                  if decide (n ≤ 17)%nat then None
                  else Some (deadline_span <$> df) |};
     v_top_locations := if decide (n ≤ 1)%nat then [] else top_locations df;
     v_skill_counts := if decide (n ≤ 4)%nat then [] else skill_counts df;
     shown := concat (take n (section_views salary_min df)) |}.

(** The globals when line 46 raises. *)
Definition at_the_raise (df : list Row) (salary_min : Qc) : State :=
  {| v_df := {| rows := df; deadline_days := None |};
     v_top_locations := top_locations df;
     v_skill_counts := [];
     shown := [threshold_view salary_min df] |}.

(** How the first [n] sections end on the rows [df]. *)
Definition outcome_after (n : nat) (df : list Row) (salary_min : Qc) : Outcome :=
  if decide (n ≤ 1)%nat then Done (globals_after n df salary_min)
  else if heatmap_is_empty df then Raise IndexError (at_the_raise df salary_min)
  else Done (globals_after n df salary_min).

(** The column of the scenario. *)
Definition ten_twenty_thirty : list (option Qc) :=
  [Some (Qc_of_Z 10); Some (Qc_of_Z 20); Some (Qc_of_Z 30)].
End vocabulary.

(** ** Vocabulary of the further statements *)

Section more_vocabulary.

(** The first, and the last, character of [s] is white space. *)
Definition starts_with_space (s : string) : bool :=
  match s with
  | EmptyString => false
  | String c _ => Text.is_space c
  end.

Fixpoint ends_with_space (s : string) : bool :=
  match s with
  | EmptyString => false
  | String c EmptyString => Text.is_space c
  | String _ s' => ends_with_space s'
  end.

(** Every character of [s] is white space. *)
Fixpoint all_space (s : string) : bool :=
  match s with
  | EmptyString => true
  | String c s' => Text.is_space c && all_space s'
  end.

(** The number of commas in [s]. *)
Fixpoint commas (s : string) : nat :=
  match s with
  | EmptyString => 0
  | String c s' => if Ascii.eqb c Text.comma then S (commas s') else commas s'
  end.

(** [",".join(pieces)] *)
Fixpoint join (pieces : list string) : string :=
  match pieces with
  | [] => EmptyString
  | [p] => p
  | p :: ps => String.append p (String Text.comma (join ps))
  end.

(** The sum of the counts of a table of counts. *)
Definition total {K} (t : list (K * nat)) : nat := sum_list t.*2.

(** The order [sort_values(ascending=False)] leaves two values in: the
    larger one first, a missing one after every present one. *)
Definition desc_nan_last (a b : option Qc) : Prop :=
  match a, b with
  | Some x, Some y => y ≤ x
  | Some _, None => True
  | None, None => True
  | None, Some _ => False
  end.

(** [a ≤ b] on two cells when both are present. *)
Definition le_cell (a b : option Qc) : Prop :=
  match a, b with
  | Some x, Some y => x ≤ y
  | _, _ => True
  end.

(** The linear interpolation [numpy.percentile] makes at the virtual
    index [h] of the sorted values [xs]. *)
Definition interpolate (xs : list Qc) (d h : Qc) : Qc :=
  let lo := Z.to_nat (Series.Qc_floor h) in
  let hi := Nat.min (lo + 1) (length xs - 1) in
  nth lo xs d + (nth hi xs d - nth lo xs d) * (h - Series.Qc_of_nat lo).

(** The quantile of values given in ascending order. *)
Definition quantile_of_sorted (xs : list Qc) (q : Qc) : option Qc :=
  match xs with
  | [] => None
  | x0 :: _ => Some (interpolate xs x0 (Series.Qc_of_nat (length xs - 1) * q))
  end.

(** A total order on valued entries that agrees with [opt_leb] on the
    entries whose value is present. *)
Definition present_leb {K} (a b : K * option Qc) : bool :=
  match a.2, b.2 with
  | Some x, Some y => bool_decide (x ≤ y)
  | None, _ => true
  | Some _, None => false
  end.

(** The salaries of the rows of [df] with row label [i] and column label
    [c]. *)
Definition pair_salaries (row_key col_key : Frame.Row → option string)
    (i c : string) (df : list Frame.Row) : list (option Qc) :=
  Frame.salary_usd
    <$> filter (λ r, row_key r = Some i ∧ col_key r = Some c) df.

(** The timestamp one calendar day number later, same time of day. *)
Definition next_day (t : Frame.Timestamp) : Frame.Timestamp :=
  {| Frame.ts_year := Frame.ts_year t;
     Frame.ts_month := Frame.ts_month t;
     Frame.ts_day := (Frame.ts_day t + 1)%Z;
     Frame.ts_nanos := Frame.ts_nanos t |}.
End more_vocabulary.

(** * Part II: facts about the embedding *)

Section sorted_lists.
Context {A : Type}.
Implicit Types R : relation A.

Lemma StronglySorted_weaken R R' (l : list A) :
  (∀ a b, a ∈ l → b ∈ l → R a b → R' a b) →
  StronglySorted R l → StronglySorted R' l.
Proof.
  induction l as [|x l IH]; intros HR Hl; [constructor|].
  apply StronglySorted_cons in Hl as [Hx Hl].
  apply StronglySorted_cons. split.
  - apply Forall_forall. intros y Hy.
    apply HR; [by left|by right|].
    by apply (proj1 (Forall_forall _ _) Hx).
  - apply IH; [|done]. intros a b Ha Hb. apply HR; by right.
Qed.

Lemma StronglySorted_reverse R (l : list A) :
  StronglySorted R l → StronglySorted (flip R) (reverse l).
Proof.
  induction l as [|x l IH]; intros Hl; [constructor|].
  apply StronglySorted_cons in Hl as [Hx Hl].
  rewrite reverse_cons. apply StronglySorted_app. split_and!.
  - intros a b Ha Hb. apply list_elem_of_singleton in Hb as ->.
    rewrite elem_of_reverse in Ha. unfold flip.
    by apply (proj1 (Forall_forall _ _) Hx).
  - by apply IH.
  - repeat constructor.
Qed.

Lemma StronglySorted_take R (l : list A) n :
  StronglySorted R l → StronglySorted R (take n l).
Proof.
  intros Hl. rewrite <-(take_drop n l) in Hl.
  by apply StronglySorted_app_1_l in Hl.
Qed.

Lemma StronglySorted_lookup R (l : list A) i j a b :
  StronglySorted R l → (i < j)%nat →
  l !! i = Some a → l !! j = Some b → R a b.
Proof.
  intros Hl Hij Hi Hj.
  rewrite <-(take_drop j l) in Hl.
  eapply StronglySorted_app_1_elem_of; [exact Hl| |].
  - apply list_elem_of_lookup. exists i. by rewrite lookup_take_lt.
  - apply list_elem_of_lookup. exists 0%nat.
    by rewrite lookup_drop, Nat.add_0_r.
Qed.
End sorted_lists.

Section stable_facts.
Context {A : Type} (leb : A → A → bool).
Local Abbreviation insert := (Stable.insert leb).
Local Abbreviation sort := (Stable.sort leb).
Local Abbreviation sort_desc := (Stable.sort_desc leb).
Local Abbreviation before := (@Stable.before A).
Local Abbreviation asc_stable := (Stable.asc_stable leb).
Local Abbreviation desc_stable := (Stable.desc_stable leb).

Lemma insert_perm x l : insert x l ≡ₚ x :: l.
Proof.
  induction l as [|y l IH]; simpl; [done|].
  destruct (leb x y); [done|].
  rewrite IH. apply Permutation_swap.
Qed.

Lemma sort_perm l : sort l ≡ₚ l.
Proof.
  induction l as [|x l IH]; simpl; [done|].
  by rewrite insert_perm, IH.
Qed.

Lemma sort_desc_perm l : sort_desc l ≡ₚ l.
Proof.
  unfold sort_desc.
  by rewrite reverse_Permutation, sort_perm, reverse_Permutation.
Qed.

Lemma elem_of_sort x l : x ∈ sort l ↔ x ∈ l.
Proof. by rewrite sort_perm. Qed.

Lemma elem_of_sort_desc x l : x ∈ sort_desc l ↔ x ∈ l.
Proof. by rewrite sort_desc_perm. Qed.

Lemma length_sort_desc l : length (sort_desc l) = length l.
Proof. by rewrite sort_desc_perm. Qed.

Lemma before_cons x l a b : before l a b → before (x :: l) a b.
Proof.
  intros (i & j & Hij & Hi & Hj). exists (S i), (S j). simpl.
  split; [lia|done].
Qed.

Lemma before_head x l b : b ∈ l → before (x :: l) x b.
Proof.
  intros [j Hj]%list_elem_of_lookup. exists 0%nat, (S j). simpl.
  split; [lia|done].
Qed.

Lemma before_reverse l a b : before (reverse l) a b → before l b a.
Proof.
  intros (i & j & Hij & Hi & Hj).
  pose proof (lookup_lt_Some _ _ _ Hi) as Hli.
  pose proof (lookup_lt_Some _ _ _ Hj) as Hlj.
  rewrite length_reverse in Hli, Hlj.
  rewrite reverse_lookup in Hi by done.
  rewrite reverse_lookup in Hj by done.
  exists (length l - S j)%nat, (length l - S i)%nat.
  split; [lia|done].
Qed.

Section stability.
Hypothesis leb_total : ∀ a b, leb a b = true ∨ leb b a = true.
Hypothesis leb_trans :
  ∀ a b c, leb a b = true → leb b c = true → leb a c = true.

Lemma asc_stable_leb l a b : asc_stable l a b → leb a b = true.
Proof. intros [[? _]|[[? _] _]]; done. Qed.

Lemma insert_stable (src : list A) x s :
  (∀ b, b ∈ s → before src x b) →
  StronglySorted (asc_stable src) s →
  StronglySorted (asc_stable src) (insert x s).
Proof.
  induction s as [|y s IH]; intros Hx Hs; simpl.
  { repeat constructor. }
  apply StronglySorted_cons in Hs as [Hy Hs].
  destruct (leb x y) eqn:Hxy.
  - apply StronglySorted_cons. split.
    + apply Forall_forall. intros z Hz.
      assert (leb x z = true) as Hxz.
      { apply elem_of_cons in Hz as [->|Hz]; [done|].
        eapply leb_trans; [exact Hxy|].
        eapply asc_stable_leb, (proj1 (Forall_forall _ _) Hy); done. }
      destruct (leb z x) eqn:Hzx.
      * right. split; [done|]. by apply Hx.
      * by left.
    + apply StronglySorted_cons; done.
  - apply StronglySorted_cons. split.
    + apply Forall_forall. intros z Hz.
      rewrite insert_perm in Hz. apply elem_of_cons in Hz as [->|Hz].
      * left. split; [|done]. by destruct (leb_total x y) as [?|?]; [congruence|].
      * by apply (proj1 (Forall_forall _ _) Hy).
    + apply IH; [|done]. intros b Hb. apply Hx. by right.
Qed.

Lemma sort_stable l : StronglySorted (asc_stable l) (sort l).
Proof.
  induction l as [|x l IH]; simpl; [constructor|].
  apply insert_stable.
  - intros b Hb. apply before_head. by apply elem_of_sort.
  - eapply StronglySorted_weaken; [|exact IH].
    intros a b _ _ [?|[? ?]]; [by left|right]. split; [done|].
    by apply before_cons.
Qed.

Lemma sort_desc_stable l : StronglySorted (desc_stable l) (sort_desc l).
Proof.
  unfold sort_desc. apply StronglySorted_reverse.
  eapply StronglySorted_weaken; [|apply sort_stable].
  intros a b _ _ [?|[[? ?] ?]]; [by left|right].
  split; [done|]. by apply before_reverse.
Qed.
End stability.
End stable_facts.

Section counter_facts.
Import Counting.
Context {K : Type} `{EqDecision K}.
Implicit Types (xs ks : list K) (k x : K).

Lemma first_seen_snoc xs x :
  first_seen (xs ++ [x]) =
    if decide (x ∈ first_seen xs) then first_seen xs else first_seen xs ++ [x].
Proof. unfold first_seen. by rewrite foldl_app. Qed.

Lemma elem_of_first_seen xs k : k ∈ first_seen xs ↔ k ∈ xs.
Proof.
  induction xs as [|x xs IH] using rev_ind.
  { done. }
  rewrite first_seen_snoc, elem_of_app, list_elem_of_singleton.
  destruct (decide (x ∈ first_seen xs)) as [Hin|Hni].
  - rewrite IH. split; [tauto|]. intros [?| ->]; [done|]. by apply IH.
  - by rewrite elem_of_app, list_elem_of_singleton, IH.
Qed.

Lemma NoDup_first_seen xs : NoDup (first_seen xs).
Proof.
  induction xs as [|x xs IH] using rev_ind.
  { constructor. }
  rewrite first_seen_snoc.
  destruct (decide (x ∈ first_seen xs)) as [Hin|Hni]; [done|].
  apply NoDup_app. split_and!; [done| |apply NoDup_singleton].
  intros y Hy ->%list_elem_of_singleton. done.
Qed.


Lemma occurrences_snoc k xs x :
  occurrences k (xs ++ [x]) =
    if decide (x = k) then S (occurrences k xs) else occurrences k xs.
Proof.
  unfold occurrences. rewrite filter_app, length_app.
  rewrite filter_cons, filter_nil.
  destruct (decide (x = k)); simpl; lia.
Qed.

Lemma occurrences_pos k xs : k ∈ xs ↔ (0 < occurrences k xs)%nat.
Proof.
  unfold occurrences. split.
  - intros Hk.
    assert (k ∈ filter (λ x, x = k) xs) as Hf by by apply list_elem_of_filter.
    destruct (filter _ xs); [by apply elem_of_nil in Hf|simpl; lia].
  - intros Hlen. destruct (filter (λ x, x = k) xs) as [|y l] eqn:Hf.
    { simpl in Hlen. lia. }
    assert (y ∈ filter (λ x, x = k) xs) as Hy by (rewrite Hf; left).
    by apply list_elem_of_filter in Hy as [-> ?].
Qed.

Lemma incr_tally (f : K → nat) x ks :
  NoDup ks →
  incr x ((λ k, (k, f k)) <$> ks) =
    if decide (x ∈ ks)
    then (λ k, (k, if decide (x = k) then S (f k) else f k)) <$> ks
    else ((λ k, (k, f k)) <$> ks) ++ [(x, 1%nat)].
Proof.
  induction ks as [|k ks IH]; intros Hnd; csimpl.
  { done. }
  apply NoDup_cons in Hnd as [Hk Hnd].
  destruct (decide (x = k)) as [->|Hne].
  - rewrite decide_True by left. f_equal.
    apply list_fmap_ext. intros _ k' Hk'%list_elem_of_lookup_2.
    rewrite decide_False; [done|]. by intros <-.
  - rewrite (IH Hnd).
    destruct (decide (x ∈ ks)) as [Hin|Hni].
    + rewrite decide_True by by right. done.
    + rewrite decide_False; [done|].
      intros [?|?]%elem_of_cons; done.
Qed.

(** The counter holds, in first-seen order, every distinct value with the
    number of times it occurs. *)
Lemma Counter_spec xs :
  Counter xs = (λ k, (k, occurrences k xs)) <$> first_seen xs.
Proof.
  induction xs as [|x xs IH] using rev_ind.
  { done. }
  unfold Counter in *. rewrite foldl_app. simpl. rewrite IH.
  rewrite incr_tally by apply NoDup_first_seen.
  rewrite first_seen_snoc.
  destruct (decide (x ∈ first_seen xs)) as [Hin|Hni].
  - apply list_fmap_ext. intros _ k _. by rewrite occurrences_snoc.
  - rewrite fmap_app. simpl. f_equal.
    + apply list_fmap_ext. intros _ k Hk%list_elem_of_lookup_2.
      rewrite occurrences_snoc, decide_False; [done|]. by intros ->.
    + rewrite occurrences_snoc, decide_True by done.
      do 3 f_equal.
      rewrite elem_of_first_seen, occurrences_pos in Hni. lia.
Qed.

Lemma count_leb_total (a b : K * nat) :
  count_leb a b = true ∨ count_leb b a = true.
Proof.
  unfold count_leb. destruct (Nat.leb_spec a.2 b.2); [by left|right].
  apply Nat.leb_le. lia.
Qed.

Lemma count_leb_trans (a b c : K * nat) :
  count_leb a b = true → count_leb b c = true → count_leb a c = true.
Proof. unfold count_leb. rewrite !Nat.leb_le. lia. Qed.

Lemma elem_of_Counter xs k m :
  (k, m) ∈ Counter xs ↔ k ∈ xs ∧ m = occurrences k xs.
Proof.
  rewrite Counter_spec, list_elem_of_fmap. split.
  - intros (k' & Heq & Hk). simplify_eq.
    split; [by apply elem_of_first_seen|done].
  - intros [Hk ->]. exists k. by rewrite elem_of_first_seen.
Qed.

Lemma Counter_keys xs : (Counter xs).*1 = first_seen xs.
Proof.
  rewrite Counter_spec, <-list_fmap_compose.
  rewrite <-(list_fmap_id (first_seen xs)) at 2. by apply list_fmap_ext.
Qed.


End counter_facts.

Section series_facts.
Import Series.

(** Two rationals in lowest terms are equal when their fractions are. *)
Lemma Qc_opt_eq (a b : option Qc) :
  (this <$> a : option Q) = (this <$> b) → a = b.
Proof.
  destruct a as [x|], b as [y|]; simpl; intros Heq; [|done..].
  f_equal. apply Qc_is_canon. injection Heq as ->. reflexivity.
Qed.

Lemma count_dropna {A} (s : list (option A)) : count s = length (dropna s).
Proof.
  induction s as [|[v|] s IH]; simpl; [done| |done].
  unfold dropna in *. simpl. by rewrite IH.
Qed.

Lemma nansum_dropna s : nansum s = Plain.sum (dropna s).
Proof.
  induction s as [|[v|] s IH]; simpl; [done| |].
  - unfold dropna in *. simpl. by rewrite IH.
  - rewrite IH. unfold dropna. simpl. ring.
Qed.

Lemma mean_dropna s : mean s = Plain.mean (dropna s).
Proof.
  unfold mean, Plain.mean. rewrite count_dropna, nansum_dropna.
  destruct (dropna s) as [|x xs]; [done|].
  by destruct (decide (length (x :: xs) = 0%nat)).
Qed.

Lemma dropna_Some {A} (xs : list A) : dropna (Some <$> xs) = xs.
Proof.
  unfold dropna. induction xs as [|x xs IH]; csimpl; [done|].
  by rewrite IH.
Qed.

Lemma skipna_dropna f s :
  foldr (skipna f) None s =
    match dropna s with
    | [] => None
    | x :: xs => Some (Plain.reduce f x xs)
    end.
Proof.
  induction s as [|[v|] s IH]; simpl; [done| |done].
  rewrite IH. unfold dropna. simpl.
  by destruct (omap id s).
Qed.

Lemma max_dropna s : max s = Plain.max (dropna s).
Proof. apply skipna_dropna. Qed.

Lemma min_dropna s : min s = Plain.min (dropna s).
Proof. apply skipna_dropna. Qed.

Lemma squares_dropna avg s :
  foldr (λ c a,
      match c with Some v => (avg - v) * (avg - v) | None => 0 end + a) 0 s =
    Plain.sum ((λ v, (avg - v) * (avg - v)) <$> dropna s).
Proof.
  induction s as [|[v|] s IH]; simpl; [done| |].
  - unfold dropna in *. simpl. by rewrite IH.
  - rewrite IH. unfold dropna. simpl. ring.
Qed.

Lemma var_dropna s : var s = Plain.var (dropna s).
Proof.
  unfold var, Plain.var.
  rewrite count_dropna, nansum_dropna, squares_dropna.
  destruct (dropna s) as [|x [|y xs]]; [done..|].
  destruct (decide _) as [Hle|_]; [simpl in Hle; lia|done].
Qed.

(** [describe] reads the present cells only. *)
Lemma describe_ext s1 s2 : dropna s1 = dropna s2 → describe s1 = describe s2.
Proof.
  intros Heq. unfold describe, quantile.
  by rewrite !count_dropna, !mean_dropna, !var_dropna, !min_dropna,
    !max_dropna, Heq.
Qed.

(** The maximum is a present cell that bounds every present cell. *)
Lemma reduce_max_spec x xs :
  Plain.reduce Qc_max x xs ∈ x :: xs ∧
  ∀ y, y ∈ x :: xs → y ≤ Plain.reduce Qc_max x xs.
Proof.
  revert x. induction xs as [|z xs IH]; intros x; simpl.
  { split; [left|]. intros y ->%list_elem_of_singleton. apply Qcle_refl. }
  destruct (IH z) as [Hin Hub]. unfold Qc_max at 1 3.
  destruct (decide (x ≤ Plain.reduce Qc_max z xs)) as [Hle|Hgt].
  - split; [by right|]. intros y [->|Hy]%elem_of_cons; [done|by apply Hub].
  - apply Qcnot_le_lt in Hgt. split; [left|].
    intros y [->|Hy]%elem_of_cons; [apply Qcle_refl|].
    apply Qclt_le_weak. eapply Qcle_lt_trans; [by apply Hub|done].
Qed.

Lemma max_Some s m :
  max s = Some m ↔ Some m ∈ s ∧ ∀ v, Some v ∈ s → v ≤ m.
Proof.
  assert (∀ v, Some v ∈ s ↔ v ∈ dropna s) as Hin.
  { intros v. unfold dropna. rewrite list_elem_of_omap. split.
    - intros ?. by exists (Some v).
    - by intros ([?|] & ? & [= ->]). }
  rewrite max_dropna. setoid_rewrite Hin. unfold Plain.max.
  destruct (dropna s) as [|x xs].
  { split; [done|]. by intros [?%elem_of_nil _]. }
  destruct (reduce_max_spec x xs) as [Hm Hub]. split.
  - by intros [= <-].
  - intros [Hm' Hub']. f_equal. apply Qcle_antisym; [by apply Hub'|by apply Hub].
Qed.

Lemma max_None s : max s = None ↔ ∀ v, Some v ∉ s.
Proof.
  rewrite max_dropna. unfold Plain.max, dropna. split.
  - destruct (omap id s) as [|x xs] eqn:Hs; [|done].
    intros _ v Hv. assert (v ∈ omap id s) as Hv'.
    { apply list_elem_of_omap. by exists (Some v). }
    rewrite Hs in Hv'. by apply elem_of_nil in Hv'.
  - intros Hno. destruct (omap id s) as [|x xs] eqn:Hs; [done|].
    assert (x ∈ omap id s) as ([v|] & Hv & [= ->])%list_elem_of_omap
      by (rewrite Hs; left).
    by apply Hno in Hv.
Qed.
End series_facts.

Section text_facts.
Import Text.

Lemma lstrip_space c s : is_space c = true → lstrip (String c s) = lstrip s.
Proof. intros Hc. simpl. by rewrite Hc. Qed.

Lemma strip_space c s : is_space c = true → strip (String c s) = strip s.
Proof. intros Hc. unfold strip. by rewrite lstrip_space. Qed.

Lemma comma_not_space c : Ascii.eqb c comma = true → is_space c = false.
Proof. intros ->%Ascii.eqb_eq. reflexivity. Qed.

(** The two ways of cutting a cell differ only in white space at the
    left of a piece, which [strip] removes from both. *)
Lemma re_split_split s :
  (∃ p ps ps', split s = p :: ps ∧ re_split_from false s = p :: ps' ∧
     strip <$> ps' = strip <$> ps) ∧
  (∃ p p' ps ps', split s = p :: ps ∧ re_split_from true s = p' :: ps' ∧
     lstrip p' = lstrip p ∧ strip <$> ps' = strip <$> ps).
Proof.
  induction s as [|c s [(p & ps & ps' & Hs & Hf & Hps) (q & q' & qs & qs' & Hs' & Ht & Hq & Hqs)]].
  { split; [by exists EmptyString, [], []|by exists EmptyString, EmptyString, [], []]. }
  assert (qs = ps ∧ q = p) as [-> ->] by (split; congruence).
  simpl. rewrite Hs, Hf, Ht.
  destruct (Ascii.eqb c comma) eqn:Hc.
  - rewrite (comma_not_space c Hc).
    assert (strip <$> q' :: qs' = strip <$> p :: ps) as Heq.
    { csimpl. unfold strip at 1 3. by rewrite Hq, Hqs. }
    split; [by exists EmptyString, (p :: ps), (q' :: qs')|].
    by exists EmptyString, EmptyString, (p :: ps), (q' :: qs').
  - split; [by exists (String c p), ps, ps'|].
    destruct (is_space c) eqn:Hsp; simpl.
    + exists (String c p), q', ps, qs'. by rewrite lstrip_space.
    + by exists (String c p), (String c p), ps, ps'.
Qed.

Lemma strip_re_split s : strip <$> re_split s = split_strip s.
Proof.
  destruct (re_split_split s) as [(p & ps & ps' & Hs & Hf & Hps) _].
  unfold re_split, split_strip. rewrite Hs, Hf. csimpl. by rewrite Hps.
Qed.
End text_facts.

Section frame_facts.
Context {A : Type}.

Lemma boolean_index_fmap (f : A → bool) (l : list A) :
  Frame.boolean_index l (f <$> l) = filter (λ x, f x = true) l.
Proof.
  induction l as [|x l IH]; csimpl; [done|].
  rewrite filter_cons, IH. by destruct (f x).
Qed.

Lemma dropna_app (s1 s2 : list (option A)) :
  Series.dropna (s1 ++ s2) = Series.dropna s1 ++ Series.dropna s2.
Proof. apply omap_app. Qed.

Lemma elem_of_dropna (s : list (option A)) x : x ∈ Series.dropna s ↔ Some x ∈ s.
Proof.
  unfold Series.dropna. rewrite list_elem_of_omap. split.
  - by intros ([?|] & ? & [= ->]).
  - intros ?. by exists (Some x).
Qed.

(** Deleting a missing cell leaves the present cells as they are. *)
Lemma dropna_delete_missing (s : list (option A)) i :
  s !! i = Some None → Series.dropna (delete i s) = Series.dropna s.
Proof.
  intros Hi. rewrite delete_take_drop.
  rewrite <-(take_drop_middle s i None Hi) at 3.
  by rewrite !dropna_app.
Qed.
End frame_facts.

Section groupby_facts.
Context {K V : Type} `{EqDecision K}.
Implicit Types rows : list (option K * V).

Lemma fst_tagged {B} (f : K → B) (ks : list K) :
  ((λ k, (k, f k)) <$> ks).*1 = ks.
Proof.
  induction ks as [|k ks IH]; csimpl; [done|]. by rewrite IH.
Qed.

Lemma add_to_group_tally (f : K → list V) k0 v ks :
  NoDup ks →
  GroupBy.add_to_group k0 v ((λ k, (k, f k)) <$> ks) =
    if decide (k0 ∈ ks)
    then (λ k, (k, if decide (k0 = k) then f k ++ [v] else f k)) <$> ks
    else ((λ k, (k, f k)) <$> ks) ++ [(k0, [v])].
Proof.
  induction ks as [|k ks IH]; intros Hnd; csimpl.
  { done. }
  apply NoDup_cons in Hnd as [Hk Hnd].
  destruct (decide (k0 = k)) as [->|Hne].
  - rewrite decide_True by left. f_equal.
    apply list_fmap_ext. intros _ k' Hk'%list_elem_of_lookup_2.
    rewrite decide_False; [done|]. by intros <-.
  - rewrite (IH Hnd).
    destruct (decide (k0 ∈ ks)) as [Hin|Hni].
    + rewrite decide_True by by right. done.
    + rewrite decide_False; [done|].
      intros [?|?]%elem_of_cons; done.
Qed.

Lemma members_snoc k rows r :
  GroupBy.members k (rows ++ [r]) =
    if decide (r.1 = Some k) then GroupBy.members k rows ++ [r.2]
    else GroupBy.members k rows.
Proof.
  unfold GroupBy.members. rewrite filter_app, fmap_app.
  rewrite filter_cons, filter_nil.
  destruct (decide (r.1 = Some k)); csimpl; [done|].
  by rewrite app_nil_r.
Qed.

Lemma members_nil k rows : Some k ∉ rows.*1 → GroupBy.members k rows = [].
Proof.
  intros Hk. unfold GroupBy.members.
  destruct (filter (λ r, r.1 = Some k) rows) as [|r l] eqn:Hf; [done|].
  assert (r ∈ filter (λ r, r.1 = Some k) rows) as Hr by (rewrite Hf; left).
  apply list_elem_of_filter in Hr as [Hr1 Hr].
  exfalso. apply Hk. rewrite <-Hr1. by apply list_elem_of_fmap_2.
Qed.

(** The split step holds, in first-seen order of the present keys, every
    key with the cells of its rows. *)
Lemma groups_spec rows :
  GroupBy.groups rows =
    (λ k, (k, GroupBy.members k rows))
      <$> Counting.first_seen (Series.dropna rows.*1).
Proof.
  induction rows as [|[o v] rows IH] using rev_ind.
  { done. }
  unfold GroupBy.groups in *. rewrite foldl_app. simpl. rewrite IH.
  rewrite fmap_app, dropna_app. csimpl.
  destruct o as [k0|]; csimpl.
  - rewrite add_to_group_tally by apply NoDup_first_seen.
    rewrite first_seen_snoc.
    destruct (decide (k0 ∈ _)) as [Hin|Hni].
    + apply list_fmap_ext. intros _ k _. rewrite members_snoc.
      destruct (decide (k0 = k)) as [->|Hne].
      * by rewrite decide_True.
      * rewrite decide_False; [done|]. by intros [= ->].
    + rewrite fmap_app. csimpl. f_equal.
      * apply list_fmap_ext. intros _ k Hk%list_elem_of_lookup_2.
        rewrite members_snoc.
        rewrite decide_False; [done|]. by intros [= ->].
      * rewrite members_snoc, decide_True by done.
        rewrite members_nil; [done|].
        intros Hk. apply Hni. by apply elem_of_first_seen, elem_of_dropna.
  - rewrite app_nil_r. apply list_fmap_ext. intros _ k _.
    rewrite members_snoc. by rewrite decide_False.
Qed.

Lemma groupby_keys_NoDup key_leb rows : NoDup (GroupBy.groupby key_leb rows).*1.
Proof.
  unfold GroupBy.groupby. rewrite sort_perm, groups_spec.
  rewrite fst_tagged. apply NoDup_first_seen.
Qed.

Lemma elem_of_groupby key_leb rows k vs :
  (k, vs) ∈ GroupBy.groupby key_leb rows ↔
    Some k ∈ rows.*1 ∧ vs = GroupBy.members k rows.
Proof.
  unfold GroupBy.groupby. rewrite elem_of_sort, groups_spec.
  rewrite list_elem_of_fmap. split.
  - intros (k' & Heq & Hk). simplify_eq.
    by apply elem_of_first_seen, elem_of_dropna in Hk.
  - intros [Hk ->]. exists k. split; [done|].
    by apply elem_of_first_seen, elem_of_dropna.
Qed.

Lemma elem_of_agg {B} (f : list V → B) key_leb rows k b :
  (k, b) ∈ GroupBy.agg f (GroupBy.groupby key_leb rows) ↔
    Some k ∈ rows.*1 ∧ b = f (GroupBy.members k rows).
Proof.
  unfold GroupBy.agg. rewrite list_elem_of_fmap. split.
  - intros ([k' vs] & Heq & Hk). simpl in Heq. simplify_eq.
    apply elem_of_groupby in Hk as [? ->]. done.
  - intros [Hk ->]. exists (k, GroupBy.members k rows). split; [done|].
    by apply elem_of_groupby.
Qed.

Lemma agg_keys {B} (f : list V → B) (g : list (K * list V)) :
  (GroupBy.agg f g).*1 = g.*1.
Proof.
  unfold GroupBy.agg. rewrite <-list_fmap_compose. by apply list_fmap_ext.
Qed.
End groupby_facts.

Section mean_facts.
Import Frame.
Context {K : Type} `{EqDecision K}.
Implicit Types (key : Row → option K) (df : list Row).

Lemma members_keyed {V} key (val : Row → V) df k :
  GroupBy.members k ((λ r, (key r, val r)) <$> df) =
    val <$> filter (λ r, key r = Some k) df.
Proof.
  unfold GroupBy.members. induction df as [|r df IH]; csimpl; [done|].
  rewrite !filter_cons. simpl.
  destruct (decide (key r = Some k)); csimpl; by rewrite IH.
Qed.

Lemma keys_keyed {V} key (val : Row → V) df k :
  Some k ∈ ((λ r, (key r, val r)) <$> df).*1 ↔ ∃ r, r ∈ df ∧ key r = Some k.
Proof.
  rewrite <-list_fmap_compose, list_elem_of_fmap. simpl. split.
  - intros (r & Hk & Hr). by exists r.
  - intros (r & Hr & Hk). by exists r.
Qed.

(** The grouped mean has one entry per key some row carries, holding the
    mean of the salary cells of the rows with that key. *)
Lemma elem_of_mean_salary_by key_leb key df k m :
  (k, m) ∈ mean_salary_by key_leb key df ↔
    (∃ r, r ∈ df ∧ key r = Some k) ∧
    m = Series.mean (salary_usd <$> filter (λ r, key r = Some k) df).
Proof.
  unfold mean_salary_by.
  by rewrite elem_of_agg, keys_keyed, members_keyed.
Qed.

Lemma mean_salary_by_NoDup key_leb key df :
  NoDup (mean_salary_by key_leb key df).*1.
Proof.
  unfold mean_salary_by. rewrite agg_keys. apply groupby_keys_NoDup.
Qed.



Lemma mean_Some_present (s : list (option Qc)) m :
  Series.mean s = Some m → ∃ v, Some v ∈ s.
Proof.
  rewrite mean_dropna. unfold Series.Plain.mean.
  destruct (Series.dropna s) as [|v vs] eqn:Hs; [done|].
  intros _. exists v. apply elem_of_dropna. rewrite Hs. left.
Qed.

Lemma mean_None_missing (s : list (option Qc)) :
  Series.mean s = None ↔ ∀ v, Some v ∉ s.
Proof.
  rewrite mean_dropna. unfold Series.Plain.mean. split.
  - destruct (Series.dropna s) as [|v vs] eqn:Hs; [|done].
    intros _ v Hv%elem_of_dropna. rewrite Hs in Hv. by apply elem_of_nil in Hv.
  - intros Hno. destruct (Series.dropna s) as [|v vs] eqn:Hs; [done|].
    exfalso. apply (Hno v), elem_of_dropna. rewrite Hs. left.
Qed.
End mean_facts.

(** ** Quantiles *)

(** Turns a goal on canonical rationals into one on plain rationals. *)
Ltac qc_to_q :=
  unfold Series.half, Qcle, Qclt, Qcminus, Qcdiv in *;
  unfold Qcplus, Qcmult, Qcopp, Qcinv, Q2Qc in *;
  cbn [this Qc_of_Z] in *;
  repeat match goal with
  | H : context [Qred _] |- _ => rewrite !Qred_correct in H
  end;
  rewrite ?Qred_correct.

Section qc_facts.

Lemma Qc_of_nat_S n : Series.Qc_of_nat (S n) = Series.Qc_of_nat n + 1.
Proof.
  unfold Series.Qc_of_nat. rewrite Nat2Z.inj_succ, <-Z.add_1_r.
  by rewrite Z2Qc_inj_add.
Qed.

Lemma Qc_of_nat_nonneg n : 0 ≤ Series.Qc_of_nat n.
Proof.
  unfold Series.Qc_of_nat. rewrite <-Z2Qc_inj_0. apply (proj1 (Z2Qc_inj_le _ _)). lia.
Qed.


Lemma Qc_of_nat_le n m : (n ≤ m)%nat → Series.Qc_of_nat n ≤ Series.Qc_of_nat m.
Proof. intros Hn. apply (proj1 (Z2Qc_inj_le _ _)). lia. Qed.

Lemma Qc_div_mul (x y : Qc) : y ≠ 0 → x / y * y = x.
Proof. intros Hy. field. done. Qed.


Lemma Qcle_div_l (a b c : Qc) : 0 < c → b ≤ a * c → b / c ≤ a.
Proof.
  intros Hc Hab. apply (proj2 (Qcmult_le_mono_pos_r _ _ c Hc)).
  rewrite Qc_div_mul; [done|]. intros ->. by apply Qclt_not_eq in Hc.
Qed.

End qc_facts.

Section describe_facts.

Lemma quantile_interpolate q s :
  Series.quantile q s =
    match Stable.sort Series.Qc_leb (Series.dropna s) with
    | [] => None
    | x0 :: xs =>
        Some (interpolate (x0 :: xs) x0 (Series.Qc_of_nat (length xs) * q))
    end.
Proof.
  unfold Series.quantile, interpolate.
  destruct (Stable.sort _ _) as [|x0 xs]; [done|].
  by replace (length (x0 :: xs) - 1)%nat with (length xs) by (simpl; lia).
Qed.

Lemma Qc_floor_le h : Qc_of_Z (Series.Qc_floor h) ≤ h.
Proof. unfold Qcle, Series.Qc_floor. simpl. apply Qfloor_le. Qed.

Lemma Qc_lt_floor h : h < Qc_of_Z (Series.Qc_floor h) + 1.
Proof.
  rewrite <-Z2Qc_inj_1, <-Z2Qc_inj_add.
  unfold Qclt, Series.Qc_floor. simpl. apply Qlt_floor.
Qed.

Lemma Qc_floor_mono h h' : h ≤ h' → (Series.Qc_floor h ≤ Series.Qc_floor h')%Z.
Proof. intros Hh. unfold Series.Qc_floor. by apply Qfloor_resp_le. Qed.

Lemma Qc_floor_of_Z z : Series.Qc_floor (Qc_of_Z z) = z.
Proof. unfold Series.Qc_floor. simpl. apply Qfloor_Z. Qed.

Lemma Qc_floor_nat h n :
  0 ≤ h → h ≤ Series.Qc_of_nat n →
  (Z.to_nat (Series.Qc_floor h) ≤ n)%nat ∧
  Series.Qc_of_nat (Z.to_nat (Series.Qc_floor h)) = Qc_of_Z (Series.Qc_floor h).
Proof.
  intros H0 Hn.
  assert (0 ≤ Series.Qc_floor h)%Z as Hf0.
  { rewrite <-(Qc_floor_of_Z 0). apply Qc_floor_mono. by rewrite Z2Qc_inj_0. }
  assert (Series.Qc_floor h ≤ Z.of_nat n)%Z as Hfn.
  { rewrite <-(Qc_floor_of_Z (Z.of_nat n)). by apply Qc_floor_mono. }
  split; [lia|]. unfold Series.Qc_of_nat. by rewrite Z2Nat.id.
Qed.

Lemma Qc_leb_total a b : Series.Qc_leb a b = true ∨ Series.Qc_leb b a = true.
Proof.
  unfold Series.Qc_leb. rewrite !bool_decide_eq_true.
  destruct (Qclt_le_dec a b) as [?%Qclt_le_weak|?]; auto.
Qed.

Lemma Qc_leb_trans a b c :
  Series.Qc_leb a b = true → Series.Qc_leb b c = true → Series.Qc_leb a c = true.
Proof. unfold Series.Qc_leb. rewrite !bool_decide_eq_true. apply Qcle_trans. Qed.

Lemma sort_Qc_sorted l : StronglySorted Qcle (Stable.sort Series.Qc_leb l).
Proof.
  eapply StronglySorted_weaken;
    [|apply sort_stable; [apply Qc_leb_total|apply Qc_leb_trans]].
  intros a b _ _ Hab%asc_stable_leb. by apply bool_decide_eq_true in Hab.
Qed.



Section interpolation.
Context (xs : list Qc) (d : Qc).
Hypothesis Hsorted : StronglySorted Qcle xs.
Hypothesis Hne : (0 < length xs)%nat.


End interpolation.
End describe_facts.

Section rank_facts.
Implicit Types xs l : list Qc.

Lemma scaled_rank n (q q' : Qc) :
  0 ≤ q → q ≤ q' → q' ≤ 1 →
  0 ≤ Series.Qc_of_nat n * q ∧
  Series.Qc_of_nat n * q ≤ Series.Qc_of_nat n * q' ∧
  Series.Qc_of_nat n * q' ≤ Series.Qc_of_nat n.
Proof.
  intros H0 Hq H1. pose proof (Qc_of_nat_nonneg n) as Hn.
  revert Hn. generalize (Series.Qc_of_nat n). intros c Hn.
  clear -H0 Hq H1 Hn. split_and!; qc_to_q; nra.
Qed.

Lemma Qc_floor_unique (h : Qc) (k : Z) :
  Qc_of_Z k ≤ h → h < Qc_of_Z k + 1 → Series.Qc_floor h = k.
Proof.
  intros Hlo Hhi.
  pose proof (Qc_floor_le h) as Hfl. pose proof (Qc_lt_floor h) as Hfu.
  assert (Qc_of_Z (Series.Qc_floor h) < Qc_of_Z (k + 1)) as H1.
  { rewrite Z2Qc_inj_add, Z2Qc_inj_1. by eapply Qcle_lt_trans. }
  assert (Qc_of_Z k < Qc_of_Z (Series.Qc_floor h + 1)) as H2.
  { rewrite Z2Qc_inj_add, Z2Qc_inj_1. by eapply Qcle_lt_trans. }
  apply (proj2 (Z2Qc_inj_lt _ _)) in H1.
  apply (proj2 (Z2Qc_inj_lt _ _)) in H2. lia.
Qed.

Lemma filter_length_le {A} (P Q : A → Prop) `{∀ x, Decision (P x)}
    `{∀ x, Decision (Q x)} (l : list A) :
  (∀ x, x ∈ l → P x → Q x) → (length (filter P l) ≤ length (filter Q l))%nat.
Proof.
  induction l as [|x l IH]; intros HPQ; [done|].
  rewrite !filter_cons.
  assert (length (filter P l) ≤ length (filter Q l))%nat as Hl
    by (apply IH; intros y Hy; apply HPQ; by right).
  destruct (decide (P x)) as [HP|?].
  - rewrite decide_True by (apply HPQ; [left|done]). simpl. lia.
  - destruct (decide (Q x)); simpl; lia.
Qed.

Lemma filter_length_all {A} (P : A → Prop) `{∀ x, Decision (P x)} (l : list A) :
  (∀ x, x ∈ l → P x) → length (filter P l) = length l.
Proof.
  induction l as [|x l IH]; intros HP; [done|].
  rewrite filter_cons, decide_True by (apply HP; left). simpl.
  rewrite IH; [done|]. intros y Hy. apply HP. by right.
Qed.

Lemma filter_length_none {A} (P : A → Prop) `{∀ x, Decision (P x)} (l : list A) :
  (∀ x, x ∈ l → ¬ P x) → length (filter P l) = 0%nat.
Proof.
  induction l as [|x l IH]; intros HP; [done|].
  rewrite filter_cons, decide_False by (apply HP; left).
  apply IH. intros y Hy. apply HP. by right.
Qed.

(** In a sorted list the value at place [k] has rank [k]. *)
Lemma sorted_rank l k x :
  StronglySorted Qcle l → l !! k = Some x →
  (Series.Plain.count_lt x l ≤ k)%nat ∧ (k < Series.Plain.count_le x l)%nat.
Proof.
  intros Hs Hk.
  pose proof (take_drop_middle l k x Hk) as Hl.
  assert (length (take k l) = k) as Hlen
    by (rewrite length_take; apply lookup_lt_Some in Hk; lia).
  rewrite <-Hl in Hs. apply StronglySorted_app in Hs as (Hcross & _ & Hs2).
  apply StronglySorted_cons in Hs2 as [Hx _].
  unfold Series.Plain.count_lt, Series.Plain.count_le. rewrite <-Hl. rewrite !filter_app, !length_app.
  rewrite !filter_cons.
  rewrite decide_False by (by intros ?%Qclt_not_eq).
  rewrite decide_True by apply Qcle_refl.
  rewrite (filter_length_none (λ y, y < x) (drop (S k) l)).
  2:{ intros y Hy. apply Qcle_not_lt.
      by apply (proj1 (Forall_forall _ _) Hx). }
  rewrite (filter_length_all (λ y, y ≤ x) (take k l)).
  2:{ intros y Hy. apply Hcross; [done|left]. }
  pose proof (length_filter (λ y, y < x) (take k l)). simpl. lia.
Qed.

(** Two values of the same rank are equal. *)
Lemma rank_unique xs k x y :
  (Series.Plain.count_lt x xs ≤ k)%nat → (k < Series.Plain.count_le x xs)%nat →
  (Series.Plain.count_lt y xs ≤ k)%nat → (k < Series.Plain.count_le y xs)%nat → x = y.
Proof.
  intros Hx1 Hx2 Hy1 Hy2.
  destruct (Qc_dec x y) as [[Hlt|Hlt]|?]; [| |done]; exfalso.
  - assert (Series.Plain.count_le x xs ≤ Series.Plain.count_lt y xs)%nat; [|lia].
    apply filter_length_le. intros z _ Hz. by eapply Qcle_lt_trans.
  - assert (Series.Plain.count_le y xs ≤ Series.Plain.count_lt x xs)%nat; [|lia].
    apply filter_length_le. intros z _ Hz. by eapply Qcle_lt_trans.
Qed.

(** The value of rank [k] is the one at place [k] of the sorted list,
    whichever way the list was sorted. *)
Lemma nth_smallest_sorted xs l k :
  l ≡ₚ xs → StronglySorted Qcle l → Series.Plain.nth_smallest k xs = l !! k.
Proof.
  intros Hp Hs. unfold Series.Plain.nth_smallest.
  destruct (l !! k) as [x|] eqn:Hk.
  - destruct (sorted_rank l k x Hs Hk) as [H1 H2].
    assert (x ∈ xs) as Hx by (rewrite <-Hp; by apply list_elem_of_lookup_2 in Hk).
    unfold Series.Plain.count_lt, Series.Plain.count_le in H1, H2. rewrite Hp in H1, H2.
    destruct (list_find_elem_of
                (λ x, (Series.Plain.count_lt x xs ≤ k)%nat ∧ (k < Series.Plain.count_le x xs)%nat)
                xs x Hx (conj H1 H2)) as [[i y] Hy].
    rewrite Hy. simpl. f_equal.
    apply list_find_Some in Hy as (_ & [Hy1 Hy2] & _).
    by apply (rank_unique xs k).
  - destruct (list_find _ xs) as [[i y]|] eqn:Hy; [|done]. exfalso.
    apply list_find_Some in Hy as (Hi & [Hy1 Hy2] & _).
    apply lookup_ge_None in Hk.
    pose proof (length_filter (λ z, z ≤ y) xs) as Hle.
    unfold Series.Plain.count_le in Hy2. rewrite <-Hp in Hle at 2. lia.
Qed.

Lemma quantile_plain q s :
  0 ≤ q → q ≤ 1 → Series.quantile q s = Series.Plain.quantile q (Series.dropna s).
Proof.
  intros H0 H1. unfold Series.quantile, Series.Plain.quantile.
  pose proof (sort_perm Series.Qc_leb (Series.dropna s)) as Hp.
  pose proof (sort_Qc_sorted (Series.dropna s)) as Hs.
  rewrite !(nth_smallest_sorted _ _ _ Hp Hs).
  rewrite <-(Permutation_length Hp).
  destruct (Stable.sort Series.Qc_leb (Series.dropna s)) as [|x0 l] eqn:Hl.
  { done. }
  set (L := x0 :: l) in *.
  destruct (scaled_rank (length L - 1) q q H0 (Qcle_refl q) H1) as (Hh0 & _ & Hh1).
  destruct (Qc_floor_nat _ (length L - 1) Hh0 Hh1) as [Hlo _].
  assert (0 < length L)%nat as Hpos by (unfold L; simpl; lia).
  set (lo := Z.to_nat (Series.Qc_floor (Series.Qc_of_nat (length L - 1) * q))) in *.
  destruct (nth_lookup_or_length L lo x0) as [Ha|?]; [|lia].
  destruct (nth_lookup_or_length L (Nat.min (lo + 1) (length L - 1)) x0)
    as [Hb|?]; [|lia].
  by rewrite Ha, Hb.
Qed.

(** Every entry of [describe] is the textbook statistic of the present
    cells. *)
Lemma describe_dropna s :
  Series.describe s = Series.Plain.describe (Series.dropna s).
Proof.
  unfold Series.describe, Series.Plain.describe.
  rewrite count_dropna, mean_dropna, var_dropna, min_dropna, max_dropna.
  rewrite !quantile_plain; [done|by vm_compute..].
Qed.
End rank_facts.

Section median_facts.

Lemma sorted_values_unique (l1 l2 : list Qc) :
  StronglySorted Qcle l1 → StronglySorted Qcle l2 → l1 ≡ₚ l2 → l1 = l2.
Proof.
  apply StronglySorted_unique_strong.
  intros x y _ _. apply Qcle_antisym.
Qed.

(** The quantile is the interpolation on the present values in ascending
    order, however they were put in that order. *)
Lemma quantile_sorted q s (xs : list Qc) :
  xs ≡ₚ Series.dropna s → StronglySorted Qcle xs →
  Series.quantile q s =
    match xs with
    | [] => None
    | x0 :: _ =>
        Some (interpolate xs x0 (Series.Qc_of_nat (length xs - 1) * q))
    end.
Proof.
  intros Hp Hs. rewrite quantile_interpolate.
  assert (Stable.sort Series.Qc_leb (Series.dropna s) = xs) as ->.
  { apply sorted_values_unique; [apply sort_Qc_sorted|done|].
    by rewrite sort_perm. }
  destruct xs as [|x0 xs]; [done|]. simpl. by rewrite Nat.sub_0_r.
Qed.

Lemma Qc_of_nat_double k :
  Series.Qc_of_nat (2 * k) * Series.half = Series.Qc_of_nat k.
Proof.
  unfold Series.Qc_of_nat. rewrite Nat2Z.inj_mul, Z2Qc_inj_mul.
  generalize (Qc_of_Z (Z.of_nat k)). intros c.
  apply Qc_is_canon. qc_to_q. simpl. ring.
Qed.

Lemma Qc_of_nat_double_S k :
  Series.Qc_of_nat (2 * k + 1) * Series.half =
    Series.Qc_of_nat k + Series.half.
Proof.
  unfold Series.Qc_of_nat.
  rewrite Nat2Z.inj_add, Nat2Z.inj_mul, Z2Qc_inj_add, Z2Qc_inj_mul.
  generalize (Qc_of_Z (Z.of_nat k)). intros c.
  apply Qc_is_canon. qc_to_q. simpl. ring.
Qed.

(** The median of an odd number of values is the middle one; of an even
    number, half the sum of the two middle ones. *)
Lemma interpolate_median_odd (xs : list Qc) d k :
  length xs = (2 * k + 1)%nat →
  interpolate xs d (Series.Qc_of_nat (length xs - 1) * Series.half) =
    nth k xs d.
Proof.
  intros Hlen. unfold interpolate.
  replace (length xs - 1)%nat with (2 * k)%nat by lia.
  rewrite Qc_of_nat_double.
  assert (Z.to_nat (Series.Qc_floor (Series.Qc_of_nat k)) = k) as ->
    by (unfold Series.Qc_of_nat; rewrite Qc_floor_of_Z; apply Nat2Z.id).
  ring.
Qed.

Lemma interpolate_median_even (xs : list Qc) d k :
  length xs = (2 * k + 2)%nat →
  interpolate xs d (Series.Qc_of_nat (length xs - 1) * Series.half) =
    (nth k xs d + nth (S k) xs d) * Series.half.
Proof.
  intros Hlen. unfold interpolate.
  replace (length xs - 1)%nat with (2 * k + 1)%nat by lia.
  rewrite Qc_of_nat_double_S.
  assert (Series.Qc_floor (Series.Qc_of_nat k + Series.half) = Z.of_nat k) as ->.
  { apply Qc_floor_unique; unfold Series.Qc_of_nat;
      generalize (Qc_of_Z (Z.of_nat k)); intros c; qc_to_q; lra. }
  rewrite Nat2Z.id.
  replace (Nat.min (k + 1) (2 * k + 1)) with (S k) by lia.
  replace (Series.Qc_of_nat k + Series.half - Series.Qc_of_nat k)
    with Series.half by ring.
  generalize (nth k xs d) (nth (S k) xs d). intros a b.
  apply Qc_is_canon. qc_to_q. simpl. ring.
Qed.
End median_facts.

(** * Part III: the claims *)

Section salary_exclusion.
Import Frame.
Context (P : Parsers) (raw : list RawRow) (i : nat) (r : RawRow).
Hypothesis Hrow : raw !! i = Some r.
Hypothesis Hbad : to_numeric P (raw_salary_usd r) = None.

Lemma ingested_row : rows (ingest P raw) !! i = Some (coerce P r).
Proof. simpl. by rewrite list_lookup_fmap, Hrow. Qed.






End salary_exclusion.



(** The mean of a salary column with a missing cell: 10 and 20 average to
    15 whether or not a third row has no salary; a zero would give 10. *)
Example mean_skips_missing :
  Series.mean [Some (Qc_of_Z 10); None; Some (Qc_of_Z 20)] = Some (Qc_of_Z 15).
Proof. unfold Series.mean. simpl. f_equal. apply Qc_is_canon. by vm_compute. Qed.

Section salary_floor.
Import Frame Script.

Lemma ge_cell_at_least t x : ge_cell (salary_usd x) t = true ↔ at_least t x.
Proof.
  unfold ge_cell, at_least. destruct (salary_usd x) as [v|].
  - rewrite bool_decide_eq_true. split.
    + intros Hle. by exists v.
    + by intros (v' & [= <-] & Hle).
  - split; [done|]. by intros (v' & [=] & _).
Qed.

Lemma filtered_df_filter df t : filtered_df df t = filter (at_least t) df.
Proof.
  unfold filtered_df. rewrite boolean_index_fmap.
  apply list_filter_iff. intros x. apply ge_cell_at_least.
Qed.

Lemma filter_none {A} (Q : A → Prop) `{∀ x, Decision (Q x)} (l : list A) :
  (∀ x, x ∈ l → ¬ Q x) → filter Q l = [].
Proof.
  intros Hno. destruct (filter Q l) as [|x l'] eqn:Hf; [done|].
  assert (x ∈ filter Q l) as [HQ Hx]%list_elem_of_filter by (rewrite Hf; left).
  by apply Hno in Hx.
Qed.

Lemma above_maximum_empty df t m :
  Series.max (salary_usd <$> df) = Some m → m < t → filtered_df df t = [].
Proof.
  intros [_ Hub]%max_Some Hlt. rewrite filtered_df_filter.
  apply filter_none. intros x Hx (v & Hv & Hle).
  assert (v ≤ m) as Hvm.
  { apply Hub. rewrite <-Hv. by apply list_elem_of_fmap_2. }
  apply (Qclt_not_le m t Hlt). by apply Qcle_trans with v.
Qed.

Lemma all_missing_empty df t :
  (∀ x, x ∈ df → salary_usd x = None) → filtered_df df t = [].
Proof.
  intros Hall. rewrite filtered_df_filter. apply filter_none.
  intros x Hx (v & Hv & _). by rewrite (Hall x Hx) in Hv.
Qed.

Lemma all_missing_max df :
  (∀ x, x ∈ df → salary_usd x = None) → Series.max (salary_usd <$> df) = None.
Proof.
  intros Hall. apply max_None.
  intros v (x & Hv & Hx)%list_elem_of_fmap. by rewrite (Hall x Hx) in Hv.
Qed.

Lemma below_maximum_nonempty df t m :
  Series.max (salary_usd <$> df) = Some m → t ≤ m →
  empty (filtered_df df t) = false.
Proof.
  intros [(x & Hm & Hx)%list_elem_of_fmap _]%max_Some Hle.
  assert (x ∈ filtered_df df t) as Hin.
  { rewrite filtered_df_filter. apply list_elem_of_filter.
    split; [|done]. by exists m. }
  destruct (filtered_df df t); [by apply elem_of_nil in Hin|done].
Qed.

Lemma empty_true {A} (l : list A) : empty l = true ↔ l = [].
Proof. by destruct l. Qed.

(** The three branches of lines 30-36. *)
Lemma threshold_branches t st :
  after_threshold t st =
    shown st ++
      [ if gt_cell t (Series.max (salary_usd <$> rows (v_df st)))
        then Warning ThresholdAboveAll
        else if empty (filtered_df (rows (v_df st)) t)
             then Warning NoJobsFound
             else SalaryHistogram t (filtered_df (rows (v_df st)) t) ].
Proof.
  unfold after_threshold, sec_threshold, mbind, stmt_bind, read. simpl.
  destruct (gt_cell _ _); [done|].
  by destruct (empty _).
Qed.

Lemma threshold_keeps_frame t st : v_df (sec_threshold t st).2 = v_df st.
Proof.
  unfold sec_threshold, mbind, stmt_bind, read. simpl.
  destruct (gt_cell _ _); [done|].
  by destruct (empty _).
Qed.
End salary_floor.

(** C2.  The salary-floor filter keeps exactly the rows whose salary is
    present and at least the threshold, in their order.  When the threshold
    is above the largest salary of the dataset, or when no row passes, the
    filtered set is empty and what the page receives is one of the two
    warnings, never a histogram; the frame is left as it was.  The section
    is a total function of the frame and the threshold. *)
Theorem salary_floor_filter (st : Script.State) (t : Qc) :
  Frame.filtered_df (Frame.rows (Script.v_df st)) t =
    filter (at_least t) (Frame.rows (Script.v_df st)) ∧
  (((∃ m : Qc,
       Series.max (Frame.salary_usd <$> Frame.rows (Script.v_df st)) = Some m ∧
       m < t)
    ∨ Frame.filtered_df (Frame.rows (Script.v_df st)) t = []) →
   Frame.filtered_df (Frame.rows (Script.v_df st)) t = [] ∧
   (∃ w : Script.Message,
      after_threshold t st = Script.shown st ++ [Script.Warning w]) ∧
   Script.v_df (Script.sec_threshold t st).2 = Script.v_df st).
Proof.
  split; [apply filtered_df_filter|].
  intros Hcase.
  assert (Frame.filtered_df (Frame.rows (Script.v_df st)) t = []) as Hnil.
  { destruct Hcase as [(m & Hm & Hlt)|?]; [|done].
    by apply above_maximum_empty with m. }
  split_and!; [done| |apply threshold_keeps_frame].
  rewrite threshold_branches, Hnil. simpl.
  destruct (Frame.gt_cell _ _); eauto.
Qed.

(** The scenario of a threshold of 50,000 on a dataset whose largest salary
    is 40,000: no row passes and the page receives the warning. *)
Example threshold_above_every_salary :
  Frame.filtered_df
    (Frame.rows (Frame.ingest Sample.parsers Sample.modest)) (Qc_of_Z 50000) = [] ∧
  after_threshold (Qc_of_Z 50000) (Script.start Sample.parsers Sample.modest) =
    [Script.Warning Script.ThresholdAboveAll].
Proof.
  split.
  - apply (above_maximum_empty _ _ (Qc_of_Z 40000)).
    + apply Qc_opt_eq. by vm_compute.
    + by vm_compute.
  - rewrite threshold_branches. by vm_compute.
Qed.

(** C10.  When every salary of the dataset is missing, the filter keeps no
    row whatever the threshold, the comparison of the threshold with the
    (missing) maximum is false, and the page receives the "No jobs found"
    warning.  When the dataset has a largest salary and the threshold is not
    above it, the filter keeps at least one row and the page receives the
    histogram of the rows kept. *)
Theorem threshold_against_missing_maximum (st : Script.State) (t : Qc) :
  ((∀ x, x ∈ Frame.rows (Script.v_df st) → Frame.salary_usd x = None) →
   Frame.filtered_df (Frame.rows (Script.v_df st)) t = [] ∧
   Frame.gt_cell t
     (Series.max (Frame.salary_usd <$> Frame.rows (Script.v_df st))) = false ∧
   after_threshold t st = Script.shown st ++ [Script.Warning Script.NoJobsFound]) ∧
  (∀ m : Qc,
     Series.max (Frame.salary_usd <$> Frame.rows (Script.v_df st)) = Some m →
     t ≤ m →
     (∃ x, x ∈ Frame.filtered_df (Frame.rows (Script.v_df st)) t) ∧
     after_threshold t st =
       Script.shown st ++
         [Script.SalaryHistogram t
            (Frame.filtered_df (Frame.rows (Script.v_df st)) t)]).
Proof.
  split.
  - intros Hall. rewrite threshold_branches.
    rewrite (all_missing_max _ Hall), (all_missing_empty _ t Hall). done.
  - intros m Hm Hle. rewrite threshold_branches, Hm.
    pose proof (below_maximum_nonempty _ t m Hm Hle) as Hne.
    rewrite Hne. simpl. rewrite bool_decide_eq_false_2.
    + split; [|done].
      destruct (Frame.filtered_df _ t) as [|x l]; [done|]. exists x. left.
    + by apply Qcle_not_lt.
Qed.

Section top_n.
Context {K : Type} `{EqDecision K}.

Lemma occurrences_dropna (col : list (option K)) v :
  Counting.occurrences v (Series.dropna col) = Counting.occurrences (Some v) col.
Proof.
  unfold Counting.occurrences, Series.dropna.
  induction col as [|[x|] col IH]; csimpl; [done| |].
  - rewrite !filter_cons.
    destruct (decide (x = v)) as [->|Hne].
    + rewrite decide_True by done. simpl. by rewrite IH.
    + rewrite decide_False by (by intros [= ->]). done.
  - rewrite filter_cons, decide_False by done. done.
Qed.






End top_n.



Section grouped_means.
Import Frame.

Lemma filter_filter_implied {A} (Q1 Q2 : A → Prop)
    `{∀ x, Decision (Q1 x)} `{∀ x, Decision (Q2 x)} (l : list A) :
  (∀ x, Q1 x → Q2 x) → filter Q1 (filter Q2 l) = filter Q1 l.
Proof.
  intros Himp. rewrite list_filter_filter. apply list_filter_iff.
  intros x. split; [tauto|]. intros ?. split; [done|]. by apply Himp.
Qed.

Lemma time_series_spec df k m :
  (k, m) ∈ time_series df ↔
    (∃ r, r ∈ df ∧ year_level r = Some k) ∧
    m = Series.Plain.mean (present_salaries year_level k df).
Proof.
  unfold time_series, present_salaries. rewrite boolean_index_fmap.
  rewrite elem_of_mean_salary_by, mean_dropna.
  assert (∀ r, year_level r = Some k → Series.notna (posting_year r) = true)
    as Hyear.
  { intros r. unfold year_level, key2. by destruct (posting_year r). }
  fold year_level. rewrite (filter_filter_implied _ _ _ Hyear).
  split; intros [(r & Hr & Hk) ->]; (split; [|done]); exists r.
  - by apply list_elem_of_filter in Hr as [_ Hr].
  - split; [|done]. apply list_elem_of_filter. split; [by apply Hyear|done].
Qed.

Lemma exp_country_spec locations df k m :
  (k, m) ∈ exp_country locations df ↔
    (∃ r, r ∈ df ∧ location_level r = Some k ∧ k.1 ∈ locations) ∧
    m = Series.Plain.mean (present_salaries location_level k df).
Proof.
  unfold exp_country, present_salaries. rewrite boolean_index_fmap.
  rewrite elem_of_mean_salary_by, mean_dropna. fold location_level.
  assert (∀ r, location_level r = Some k →
            (isin (company_location r) locations = true ↔ k.1 ∈ locations))
    as Hloc.
  { intros r. unfold location_level, key2, isin.
    destruct (company_location r) as [l|]; [|done].
    destruct (experience_level r); [|done].
    intros [= <-]. simpl. apply bool_decide_eq_true. }
  split.
  - intros [(r & [Hin Hr]%list_elem_of_filter & Hk) ->].
    apply (Hloc r Hk) in Hin.
    rewrite filter_filter_implied; [by eauto|].
    intros x Hx. by apply (Hloc x Hx).
  - intros [(r & Hr & Hk & Hin) ->].
    rewrite filter_filter_implied.
    + split; [|done]. exists r. split; [|done].
      apply list_elem_of_filter. split; [by apply (Hloc r Hk)|done].
    + intros x Hx. by apply (Hloc x Hx).
Qed.
End grouped_means.

(** C4, as the code has it.  The grouped mean (salary by posting year and
    experience level; by company location and experience level within the
    top locations) has exactly one entry for every pair of keys that some
    row carries, both keys present.  The entry holds the arithmetic mean of
    the salaries present in the group's rows.  A group none of whose rows
    has a salary is in the result all the same, and its mean is missing: it
    is neither left out nor filled with zero. *)
Theorem grouped_mean_keeps_empty_groups (df : list Frame.Row) (locations : list string) :
  NoDup (Frame.time_series df).*1 ∧
  NoDup (Frame.exp_country locations df).*1 ∧
  (∀ (k : Z * string) (m : option Qc),
     (k, m) ∈ Frame.time_series df ↔
       (∃ r, r ∈ df ∧ year_level r = Some k) ∧
       m = Series.Plain.mean (present_salaries year_level k df)) ∧
  (∀ (k : string * string) (m : option Qc),
     (k, m) ∈ Frame.exp_country locations df ↔
       (∃ r, r ∈ df ∧ location_level r = Some k ∧ k.1 ∈ locations) ∧
       m = Series.Plain.mean (present_salaries location_level k df)) ∧
  (∀ (k : Z * string),
     (∃ r, r ∈ df ∧ year_level r = Some k) →
     present_salaries year_level k df = [] →
     (k, None) ∈ Frame.time_series df) ∧
  (∀ (k : string * string),
     (∃ r, r ∈ df ∧ location_level r = Some k ∧ k.1 ∈ locations) →
     present_salaries location_level k df = [] →
     (k, None) ∈ Frame.exp_country locations df) ∧
  (∀ xs : list Qc,
     Series.Plain.mean xs =
       match xs with
       | [] => None
       | _ => Some (Series.Plain.sum xs / Series.Qc_of_nat (length xs))
       end).
Proof.
  split_and!.
  - apply mean_salary_by_NoDup.
  - apply mean_salary_by_NoDup.
  - apply time_series_spec.
  - apply exp_country_spec.
  - intros k Hex Hnone. apply time_series_spec. by rewrite Hnone.
  - intros k Hex Hnone. apply exp_country_spec. by rewrite Hnone.
  - done.
Qed.

(** C4, as stated, fails: in the sample dataset the only 2024 posting at
    level EN has no salary, and the only German posting at level MI has
    none either; both groups are in the result, with a missing mean. *)
Lemma all_missing_group_is_kept :
  present_salaries year_level (2024%Z, "EN"%string)
    (Frame.rows (Frame.ingest Sample.parsers Sample.dataset)) = [] ∧
  ((2024%Z, "EN"%string), None)
    ∈ Frame.time_series (Frame.rows (Frame.ingest Sample.parsers Sample.dataset)) ∧
  present_salaries location_level ("Germany"%string, "MI"%string)
    (Frame.rows (Frame.ingest Sample.parsers Sample.dataset)) = [] ∧
  (("Germany"%string, "MI"%string), None)
    ∈ Frame.exp_country
        (Frame.top_locations (Frame.rows (Frame.ingest Sample.parsers Sample.dataset)))
        (Frame.rows (Frame.ingest Sample.parsers Sample.dataset)).
Proof.
  split_and!.
  - by vm_compute.
  - apply time_series_spec. split; [|by vm_compute].
    eexists. split; [apply list_elem_of_lookup; by exists 3%nat|by vm_compute].
  - by vm_compute.
  - apply exp_country_spec. split; [|by vm_compute].
    eexists. split; [apply list_elem_of_lookup; by exists 1%nat|].
    split; [by vm_compute|].
    apply list_elem_of_lookup. by exists 0%nat.
Qed.

Section script_facts.
Import Frame Script.

Lemma sec_threshold_show t st :
  sec_threshold t st = show (threshold_view t (rows (v_df st))) st.
Proof.
  unfold sec_threshold, threshold_view, mbind, stmt_bind, read. simpl.
  destruct (gt_cell _ _); [done|]. by destruct (empty _).
Qed.

Lemma sec_ds_2024_show st :
  sec_ds_2024 st = show (ds_2024_view (rows (v_df st))) st.
Proof.
  unfold sec_ds_2024, ds_2024_view, mbind, stmt_bind, read. simpl.
  by destruct (empty _).
Qed.

(** A section that cannot raise ends with the globals its statement
    leaves. *)
Lemma final_straight stmt st : final (straight stmt st) = (stmt st).2.
Proof. reflexivity. Qed.

Lemma sec_top_outcome st :
  sec_top st =
    if heatmap_is_empty (rows (v_df st))
    then Raise IndexError (set_top_locations (top_locations (rows (v_df st))) st).2
    else Done
           {| v_df := v_df st;
              v_top_locations := top_locations (rows (v_df st));
              v_skill_counts := v_skill_counts st;
              shown := shown st ++ top_view (rows (v_df st)) |}.
Proof.
  unfold sec_top, heatmap_is_empty. destruct (empty _); [done|].
  unfold top_charts, top_view, mbind, stmt_bind, read, show. simpl.
  by rewrite <-!app_assoc.
Qed.

(** Nothing runs after a raise. *)
Lemma exec_raise (body : list Step) e st :
  foldl (λ o step, match o with Done s' => step s' | Raise _ _ => o end)
    (Raise e st) body = Raise e st.
Proof. induction body as [|step body IH]; [done|exact IH]. Qed.

(** One section more. *)
Lemma before_section_S n P raw t :
  before_section (S n) P raw t =
    match sections t !! n with
    | Some step =>
        match before_section n P raw t with
        | Done s => step s
        | Raise e s => Raise e s
        end
    | None => before_section n P raw t
    end.
Proof.
  unfold before_section, exec.
  destruct (sections t !! n) as [step|] eqn:Hn; unfold Step in *.
  - rewrite (take_S_r _ _ _ Hn), foldl_app. simpl.
    by destruct (foldl _ _ _).
  - apply lookup_ge_None in Hn. by rewrite !take_ge by lia.
Qed.

(** How the script has fared after its first [n] sections. *)
Lemma before_section_outcome n P raw t :
  before_section n P raw t = outcome_after n (rows (ingest P raw)) t.
Proof.
  induction n as [|n IH]; [reflexivity|].
  rewrite before_section_S, IH. clear IH.
  unfold outcome_after, heatmap_is_empty.
  destruct n as [|n].
  { cbn [lookup list_lookup sections]. rewrite decide_True by lia.
    rewrite decide_True by lia. unfold straight.
    by rewrite sec_threshold_show. }
  destruct n as [|n].
  { cbn [lookup list_lookup sections]. rewrite decide_True by lia.
    rewrite decide_False by lia. rewrite sec_top_outcome.
    unfold heatmap_is_empty. cbn [globals_after v_df rows].
    by destruct (empty _). }
  rewrite !decide_False by lia.
  destruct (empty _).
  { by destruct (sections t !! S (S n)). }
  do 18 (destruct n as [|n];
         [cbn [lookup list_lookup sections]; unfold straight;
          rewrite ?sec_ds_2024_show; reflexivity|]).
  cbn [lookup list_lookup sections]. unfold globals_after.
  rewrite !decide_False by lia.
  by rewrite !take_ge by (simpl; lia).
Qed.

Lemma run_outcome P raw t :
  run P raw t = outcome_after 20 (rows (ingest P raw)) t.
Proof.
  rewrite <-before_section_outcome. unfold before_section, run.
  by rewrite take_ge by (simpl; lia).
Qed.
End script_facts.

Section tokens.
Import Frame.

Lemma split_nonempty s : Text.split s ≠ [].
Proof.
  destruct s as [|c s]; simpl; [done|].
  destruct (Ascii.eqb c Text.comma); [done|].
  by destruct (Text.split s).
Qed.

(** Lines 87-88 keep the non-empty ones among the tokens line 96 makes. *)
Lemma all_skills_split_strip (col : list (option string)) :
  Text.all_skills col =
    x ← Series.dropna col; filter (λ s, Text.truthy s = true) (Text.split_strip x).
Proof.
  unfold Text.all_skills.
  induction (Series.dropna col) as [|x xs IH]; csimpl; [done|].
  rewrite IH. f_equal.
  rewrite <-strip_re_split.
  induction (Text.re_split x) as [|p ps IHp]; csimpl; [done|].
  rewrite filter_cons, IHp.
  by destruct (Text.truthy (Text.strip p)).
Qed.

(** Lines 96-97 put every token of line 96 in a row of its own, the empty
    ones included. *)
Lemma exploded_skills_tokens (df : list Row) :
  exploded_skills df =
    r ← df_skills df; (λ t, (r.1, Some t)) <$> Text.split_strip r.2.
Proof.
  unfold exploded_skills, explode.
  induction (df_skills df) as [|r rs IH]; [done|].
  rewrite fmap_cons, !bind_cons, IH. f_equal.
  cbn [fst snd]. unfold Text.split_strip.
  pose proof (split_nonempty r.2) as Hne.
  by destruct (Text.split r.2).
Qed.
End tokens.

(** C5, the two tokenizations at the cell ["Python,,SQL"] of a posting with
    a salary.  The skill count of lines 87-88 sees two tokens, the empty one
    between the commas left out.  The explode of lines 95-97 makes three
    rows, one of them with the empty token.  At the cell ["Python, SQL"]
    both make the two tokens ["Python"] and ["SQL"]. *)
Theorem explode_keeps_empty_token :
  Text.all_skills [Some "Python,,SQL"%string] = ["Python"; "SQL"]%string ∧
  (Frame.exploded_skills
     (Frame.rows
        (Frame.ingest Sample.parsers
           [Sample.posting "ML Engineer" "Germany" "MI" "Python,,SQL" "100000"
              "2024-03-01" "2024-04-15"]))).*2 =
    [Some "Python"; Some ""; Some "SQL"]%string ∧
  Text.all_skills [Some "Python, SQL"%string] = ["Python"; "SQL"]%string ∧
  (Frame.exploded_skills
     (Frame.rows
        (Frame.ingest Sample.parsers
           [Sample.posting "Data Scientist" "Germany" "SE" "Python, SQL" "90000"
              "2024-03-01" "2024-03-31"]))).*2 =
    [Some "Python"; Some "SQL"]%string.
Proof. split_and!; by vm_compute. Qed.

Section summary.

Lemma std_dropna (s : list (option Qc)) :
  Series.std s = (λ v : Qc, sqrt (Q2R v)) <$> Series.Plain.var (Series.dropna s).
Proof. unfold Series.std. by rewrite var_dropna. Qed.

Lemma std_ten_twenty_thirty : Series.std ten_twenty_thirty = Some 10%R.
Proof.
  unfold Series.std.
  assert (Series.var ten_twenty_thirty = Some (Qc_of_Z 100)) as ->.
  { apply Qc_opt_eq. by vm_compute. }
  simpl. f_equal. unfold Q2R. simpl.
  replace (100 * / 1)%R with (10 * 10)%R by lra.
  apply sqrt_square. lra.
Qed.
End summary.

(** C7.  Every entry of [describe] (count, mean, standard deviation through
    its variance, minimum, the three quartiles, maximum) is the statistic of
    exactly the present cells of the column: the same as [describe] of the
    column with its missing cells deleted, and the textbook statistic of
    the list of present values, the quartiles being found there by rank.
    Put in ascending order in any way, the present values give the
    quartiles by linear interpolation at a quarter, a half and three
    quarters of the way through them; the median is the middle value of an
    odd number of values and half the sum of the two middle ones of an even
    number.  On the column 10, 20, 30 it gives count 3, mean 20, standard
    deviation 10, minimum 10, quartiles 15, 20 (the median) and 25,
    maximum 30; rounding to two decimals changes none, nor does the order
    of the cells or a missing cell among them. *)
Theorem describe_over_present_cells :
  (∀ s : list (option Qc),
     Series.describe s = Series.Plain.describe (Series.dropna s) ∧
     Series.describe s = Series.describe (Some <$> Series.dropna s) ∧
     Series.std s =
       (λ v : Qc, sqrt (Q2R v)) <$> Series.Plain.var (Series.dropna s)) ∧
  (∀ (s : list (option Qc)) (xs : list Qc),
     xs ≡ₚ Series.dropna s → StronglySorted Qcle xs →
     Series.st_q25 (Series.describe s) = quantile_of_sorted xs Series.quarter ∧
     Series.st_q50 (Series.describe s) = quantile_of_sorted xs Series.half ∧
     Series.st_q75 (Series.describe s) =
       quantile_of_sorted xs Series.three_quarters ∧
     (∀ k : nat,
        length xs = (2 * k + 1)%nat →
        Series.st_q50 (Series.describe s) = Some (nth k xs 0)) ∧
     (∀ k : nat,
        length xs = (2 * k + 2)%nat →
        Series.st_q50 (Series.describe s) =
          Some ((nth k xs 0 + nth (S k) xs 0) * Series.half))) ∧
  Series.st_count (Series.describe ten_twenty_thirty) = 3%nat ∧
  Series.st_mean (Series.describe ten_twenty_thirty) = Some (Qc_of_Z 20) ∧
  Series.st_var (Series.describe ten_twenty_thirty) = Some (Qc_of_Z 100) ∧
  Series.std ten_twenty_thirty = Some 10%R ∧
  Series.st_min (Series.describe ten_twenty_thirty) = Some (Qc_of_Z 10) ∧
  Series.st_q25 (Series.describe ten_twenty_thirty) = Some (Qc_of_Z 15) ∧
  Series.st_q50 (Series.describe ten_twenty_thirty) = Some (Qc_of_Z 20) ∧
  Series.st_q75 (Series.describe ten_twenty_thirty) = Some (Qc_of_Z 25) ∧
  Series.st_max (Series.describe ten_twenty_thirty) = Some (Qc_of_Z 30) ∧
  (Frame.round2 <$> Series.st_mean (Series.describe ten_twenty_thirty)) =
    Some (Qc_of_Z 20) ∧
  (Frame.round2 <$> Series.st_q50 (Series.describe ten_twenty_thirty)) =
    Some (Qc_of_Z 20) ∧
  Series.describe
    [Some (Qc_of_Z 30); None; Some (Qc_of_Z 10); Some (Qc_of_Z 20)] =
    Series.describe ten_twenty_thirty.
Proof.
  split_and!; try (apply Qc_opt_eq; by vm_compute).
  - intros s. split_and!.
    + apply describe_dropna.
    + apply describe_ext. by rewrite dropna_Some.
    + apply std_dropna.
  - intros s xs Hp Hs. cbn [Series.describe Series.st_q25 Series.st_q50 Series.st_q75].
    rewrite !(quantile_sorted _ s xs Hp Hs). unfold quantile_of_sorted.
    split_and!; [done..| |].
    + intros k Hk. destruct xs as [|x0 xs']; [simpl in Hk; lia|].
      by rewrite (interpolate_median_odd _ _ k Hk), (nth_indep _ x0 0)
        by (rewrite Hk; lia).
    + intros k Hk. destruct xs as [|x0 xs']; [simpl in Hk; lia|].
      rewrite (interpolate_median_even _ _ k Hk).
      by rewrite (nth_indep _ x0 0), (nth_indep _ x0 0 (n := S k))
        by (rewrite Hk; lia).
  - reflexivity.
  - apply std_ten_twenty_thirty.
  - assert (∀ a b : Series.SummaryStats,
              Series.st_count a = Series.st_count b →
              Series.st_mean a = Series.st_mean b →
              Series.st_var a = Series.st_var b →
              Series.st_min a = Series.st_min b →
              Series.st_q25 a = Series.st_q25 b →
              Series.st_q50 a = Series.st_q50 b →
              Series.st_q75 a = Series.st_q75 b →
              Series.st_max a = Series.st_max b → a = b) as Hext.
    { intros [] []; simpl; by intros -> -> -> -> -> -> -> ->. }
    apply Hext; [reflexivity|apply Qc_opt_eq; by vm_compute..].
Qed.

Section exclusion_by_key.

Lemma filter_delete_false {A} (Q : A → Prop) `{∀ x, Decision (Q x)}
    (l : list A) i x :
  l !! i = Some x → ¬ Q x → filter Q (delete i l) = filter Q l.
Proof.
  intros Hi Hx. rewrite delete_take_drop.
  rewrite <-(take_drop_middle l i x Hi) at 3.
  rewrite !filter_app, filter_cons. by rewrite decide_False.
Qed.

(** A row whose key is missing is in no group: the grouping is the one of
    the frame without the row. *)
Lemma groupby_delete_missing_key {K V} `{EqDecision K} (key_leb : K → K → bool)
    (rows : list (option K * V)) i v :
  rows !! i = Some (None, v) →
  GroupBy.groupby key_leb (delete i rows) = GroupBy.groupby key_leb rows.
Proof.
  intros Hi. unfold GroupBy.groupby. f_equal. rewrite !groups_spec.
  rewrite list_fmap_delete, dropna_delete_missing
    by (by rewrite list_lookup_fmap, Hi).
  apply list_fmap_ext. intros _ k _. f_equal. unfold GroupBy.members.
  by rewrite (filter_delete_false _ rows i (None, v)).
Qed.
End exclusion_by_key.

Section derived.
Import Frame Script.
Context (P : Parsers) (raw : list RawRow) (i : nat) (r : RawRow).
Hypothesis Hrow : raw !! i = Some r.

Lemma span_of_raw :
  deadline_span (coerce P r) =
    match to_datetime P (raw_application_deadline r),
          to_datetime P (raw_posting_date r) with
    | Some a, Some p => Some (timedelta_days a p)
    | _, _ => None
    end.
Proof. reflexivity. Qed.

Lemma spans_without_row :
  deadline_span (coerce P r) = None →
  Series.dropna (deadline_span <$> rows (ingest P raw)) =
    Series.dropna (deadline_span <$> delete i (rows (ingest P raw))).
Proof.
  intros Hspan. rewrite list_fmap_delete. symmetry.
  apply dropna_delete_missing.
  rewrite list_lookup_fmap, (ingested_row P raw i r Hrow). simpl.
  by rewrite Hspan.
Qed.

Section undated.
Hypothesis Hdate : to_datetime P (raw_posting_date r) = None.

Lemma monthly_without_row :
  monthly (rows (ingest P raw)) = monthly (delete i (rows (ingest P raw))).
Proof.
  unfold monthly. rewrite list_fmap_delete.
  rewrite (groupby_delete_missing_key _ _ i ()); [done|].
  rewrite list_lookup_fmap, (ingested_row P raw i r Hrow). simpl.
  by rewrite Hdate.
Qed.

Lemma time_series_without_row :
  time_series (rows (ingest P raw)) =
    time_series (delete i (rows (ingest P raw))).
Proof.
  unfold time_series. rewrite !boolean_index_fmap.
  rewrite (filter_delete_false _ _ i (coerce P r)); [done| |].
  - by apply ingested_row.
  - simpl. by rewrite Hdate.
Qed.

Lemma ds_2024_without_row :
  ds_2024 (rows (ingest P raw)) = ds_2024 (delete i (rows (ingest P raw))).
Proof.
  unfold ds_2024. rewrite !boolean_index_fmap.
  rewrite (filter_delete_false _ _ i (coerce P r)); [done| |].
  - by apply ingested_row.
  - simpl. rewrite Hdate. simpl. by rewrite andb_false_r.
Qed.
End undated.
End derived.

(** C6, as the code has it.  Posting year and posting month are derived
    at ingestion, row by row, from the parsed posting date.  The deadline
    span is not: [df] has no such column until the deadline section assigns
    it, as the application deadline minus the posting date in whole days,
    row by row; a run that ends at line 46, on an empty heatmap table,
    never assigns it.  Each derivation is a function of the row's own
    cells.  A row whose posting date does not parse has no year, no month
    and no span; a row whose deadline does not parse has no span.  Such a
    row is in no group formed on the derived field: the monthly counts, the
    yearly salary means, the Data Scientist 2024 selection and the spans
    charted are those of the frame without the row. *)
Theorem derived_fields_and_their_groupings
    (P : Frame.Parsers) (raw : list Frame.RawRow) (i : nat) (r : Frame.RawRow)
    (t : Qc) :
  raw !! i = Some r →
  Frame.rows (Frame.ingest P raw) !! i = Some (Frame.coerce P r) ∧
  Frame.posting_year (Frame.coerce P r) =
    Frame.ts_year <$> Frame.to_datetime P (Frame.raw_posting_date r) ∧
  Frame.posting_month (Frame.coerce P r) =
    Frame.ts_month <$> Frame.to_datetime P (Frame.raw_posting_date r) ∧
  Frame.deadline_days (Frame.ingest P raw) = None ∧
  (∀ st : Script.State,
     Frame.rows (Script.v_df (Script.sec_deadline st).2) =
       Frame.rows (Script.v_df st) ∧
     Frame.deadline_days (Script.v_df (Script.sec_deadline st).2) =
       Some (Frame.deadline_span <$> Frame.rows (Script.v_df st))) ∧
  Frame.deadline_days (Script.v_df (Script.final (Script.run P raw t))) =
    (if heatmap_is_empty (Frame.rows (Frame.ingest P raw)) then None
     else Some (Frame.deadline_span <$> Frame.rows (Frame.ingest P raw))) ∧
  Frame.deadline_span (Frame.coerce P r) =
    match Frame.to_datetime P (Frame.raw_application_deadline r),
          Frame.to_datetime P (Frame.raw_posting_date r) with
    | Some a, Some p => Some (Frame.timedelta_days a p)
    | _, _ => None
    end ∧
  (Frame.to_datetime P (Frame.raw_posting_date r) = None →
   Frame.posting_year (Frame.coerce P r) = None ∧
   Frame.posting_month (Frame.coerce P r) = None ∧
   Frame.deadline_span (Frame.coerce P r) = None ∧
   Frame.monthly (Frame.rows (Frame.ingest P raw)) =
     Frame.monthly (delete i (Frame.rows (Frame.ingest P raw))) ∧
   Frame.time_series (Frame.rows (Frame.ingest P raw)) =
     Frame.time_series (delete i (Frame.rows (Frame.ingest P raw))) ∧
   Frame.ds_2024 (Frame.rows (Frame.ingest P raw)) =
     Frame.ds_2024 (delete i (Frame.rows (Frame.ingest P raw)))) ∧
  (Frame.deadline_span (Frame.coerce P r) = None →
   Series.dropna (Frame.deadline_span <$> Frame.rows (Frame.ingest P raw)) =
     Series.dropna
       (Frame.deadline_span <$> delete i (Frame.rows (Frame.ingest P raw)))) ∧
  (Frame.to_datetime P (Frame.raw_application_deadline r) = None →
   Frame.deadline_span (Frame.coerce P r) = None).
Proof.
  intros Hrow. split_and!; try reflexivity.
  - by apply ingested_row.
  - intros st. split; reflexivity.
  - rewrite run_outcome. unfold outcome_after.
    rewrite decide_False by lia. by destruct (heatmap_is_empty _).
  - intros Hdate. split_and!.
    + simpl. by rewrite Hdate.
    + simpl. by rewrite Hdate.
    + rewrite span_of_raw, Hdate.
      by destruct (Frame.to_datetime P (Frame.raw_application_deadline r)).
    + by apply (monthly_without_row P raw i r).
    + by apply (time_series_without_row P raw i r).
    + by apply (ds_2024_without_row P raw i r).
  - by apply spans_without_row.
  - intros Hdl. by rewrite span_of_raw, Hdl.
Qed.

Lemma derived_fields_witness :
  Sample.dataset !! 1%nat =
    Some (Sample.posting "ML Engineer" "Germany" "MI" "Python,,SQL" "n/a"
            "2024-13-40" "2024-04-15") ∧
  Frame.deadline_days
    (Script.v_df
       (Script.final
          (Script.run Sample.parsers Sample.dataset (Qc_of_Z 50000)))) =
    (if heatmap_is_empty (Frame.rows (Frame.ingest Sample.parsers Sample.dataset))
     then None
     else Some (Frame.deadline_span <$>
                  Frame.rows (Frame.ingest Sample.parsers Sample.dataset))).
Proof.
  split; [reflexivity|].
  apply (derived_fields_and_their_groupings Sample.parsers Sample.dataset 1%nat
           (Sample.posting "ML Engineer" "Germany" "MI" "Python,,SQL" "n/a"
              "2024-13-40" "2024-04-15") (Qc_of_Z 50000)).
  reflexivity.
Defined.

(** C6, as stated, fails on the deadline span: on the sample dataset the
    ingested frame has no [deadline_days] column, nor has the frame the
    deadline section starts from; the column is there once that section
    has run.  On the dataset without any posting the run ends at line 46
    and the column is never there. *)
Lemma deadline_span_is_not_derived_at_ingestion :
  Frame.deadline_days (Frame.ingest Sample.parsers Sample.dataset) = None ∧
  (∃ s : Script.State,
     Script.before_section 17 Sample.parsers Sample.dataset (Qc_of_Z 50000) =
       Script.Done s ∧
     Script.sections (Qc_of_Z 50000) !! 17%nat =
       Some (Script.straight Script.sec_deadline) ∧
     Frame.deadline_days (Script.v_df s) = None) ∧
  (∃ s : Script.State,
     Script.before_section 18 Sample.parsers Sample.dataset (Qc_of_Z 50000) =
       Script.Done s ∧
     Frame.deadline_days (Script.v_df s) =
       Some [Some 30%Z; None; None; Some 30%Z]) ∧
  (∃ s : Script.State,
     Script.run Sample.parsers [] (Qc_of_Z 50000) =
       Script.Raise Script.IndexError s ∧
     Frame.deadline_days (Script.v_df s) = None).
Proof.
  assert (heatmap_is_empty
            (Frame.rows (Frame.ingest Sample.parsers Sample.dataset)) = false)
    as Hfull by by vm_compute.
  split_and!.
  - reflexivity.
  - eexists. rewrite before_section_outcome. unfold outcome_after.
    rewrite decide_False by lia. rewrite Hfull. done.
  - eexists. rewrite before_section_outcome. unfold outcome_after.
    rewrite decide_False by lia. rewrite Hfull. split; [done|].
    by vm_compute.
  - eexists. rewrite run_outcome. unfold outcome_after.
    rewrite decide_False by lia. done.
Qed.

Section section_facts.
Import Frame Script.

(** What one section hands to the page, from the rows of [df] alone when
    the variable it reads holds the value its section computes from them. *)
Lemma section_shows t j step st :
  sections t !! j = Some step →
  (j = 10%nat → v_top_locations st = top_locations (rows (v_df st))) →
  (j = 5%nat → v_skill_counts st = skill_counts (rows (v_df st))) →
  shown (final (step st)) =
    shown st ++
      (if bool_decide (j = 1%nat) && heatmap_is_empty (rows (v_df st)) then []
       else default [] (section_views t (rows (v_df st)) !! j)).
Proof.
  intros Hj Hloc Hsk. unfold sections in Hj.
  do 20 (destruct j as [|j];
         [injection Hj as <-;
          rewrite ?final_straight, ?sec_threshold_show, ?sec_ds_2024_show,
            ?sec_top_outcome;
          cbn [bool_decide decide_rel andb];
          try (destruct (heatmap_is_empty _); simpl; by rewrite ?app_nil_r);
          try (unfold sec_exp_country, mbind, stmt_bind, read; simpl;
               by rewrite Hloc);
          try (unfold sec_skill_salary, mbind, stmt_bind, read; simpl;
               by rewrite Hsk);
          simpl; by rewrite <-?app_assoc|]).
  done.
Qed.

(** No section but the deadline section writes to [df]. *)
Lemma section_keeps_df t j step st :
  sections t !! j = Some step → j ≠ 17%nat → v_df (final (step st)) = v_df st.
Proof.
  intros Hj Hne. unfold sections in Hj.
  do 20 (destruct j as [|j];
         [injection Hj as <-;
          rewrite ?final_straight, ?sec_threshold_show, ?sec_ds_2024_show,
            ?sec_top_outcome;
          try (by destruct (heatmap_is_empty _));
          first [reflexivity|done]|]).
  done.
Qed.
End section_facts.

(** C8.  The grouped mean of the time-series section is a function of the
    rows of [df] alone: run in any state it shows that function's value and
    changes no global, so running it again shows the same value again.  The
    same holds of every section of the script: what a section hands to the
    page is a function of the rows of [df] (for the first section also of
    the slider value), given that the one variable two of the sections read
    holds what its own section computes from [df]; the section that can
    raise shows nothing when it raises.  So in a run every aggregate shown
    is a function of the ingested dataset: the run shows all of them when the
    heatmap table has a line, and the first alone when it has none.
    Running the script with another slider value gives the same aggregates
    from the second on. *)
Theorem aggregates_are_functions_of_the_dataset
    (P : Frame.Parsers) (raw : list Frame.RawRow) (t t' : Qc)
    (st : Script.State) :
  Script.v_df (Script.sec_time_series st).2 = Script.v_df st ∧
  Script.v_top_locations (Script.sec_time_series st).2 =
    Script.v_top_locations st ∧
  Script.v_skill_counts (Script.sec_time_series st).2 =
    Script.v_skill_counts st ∧
  Script.shown (Script.sec_time_series st).2 =
    Script.shown st ++
      [Script.TimeSeriesLine (Frame.time_series (Frame.rows (Script.v_df st)))] ∧
  Script.exec
    [Script.straight Script.sec_time_series; Script.straight Script.sec_time_series]
    st =
    Script.Done
      {| Script.v_df := Script.v_df st;
         Script.v_top_locations := Script.v_top_locations st;
         Script.v_skill_counts := Script.v_skill_counts st;
         Script.shown :=
           Script.shown st ++
             [Script.TimeSeriesLine
                (Frame.time_series (Frame.rows (Script.v_df st)));
              Script.TimeSeriesLine
                (Frame.time_series (Frame.rows (Script.v_df st)))] |} ∧
  (∀ (j : nat) (step : Script.Step),
     Script.sections t !! j = Some step →
     (j = 10%nat →
      Script.v_top_locations st =
        Frame.top_locations (Frame.rows (Script.v_df st))) →
     (j = 5%nat →
      Script.v_skill_counts st =
        Frame.skill_counts (Frame.rows (Script.v_df st))) →
     Script.shown (Script.final (step st)) =
       Script.shown st ++
         (if bool_decide (j = 1%nat)
             && heatmap_is_empty (Frame.rows (Script.v_df st))
          then []
          else default []
                 (section_views t (Frame.rows (Script.v_df st)) !! j))) ∧
  length (Script.sections t) = length (section_views t (Frame.rows (Script.v_df st))) ∧
  Script.run P raw t =
    (if heatmap_is_empty (Frame.rows (Frame.ingest P raw))
     then Script.Raise Script.IndexError
            (at_the_raise (Frame.rows (Frame.ingest P raw)) t)
     else Script.Done (globals_after 20 (Frame.rows (Frame.ingest P raw)) t)) ∧
  Script.shown (Script.final (Script.run P raw t)) =
    (if heatmap_is_empty (Frame.rows (Frame.ingest P raw))
     then [threshold_view t (Frame.rows (Frame.ingest P raw))]
     else views t (Frame.rows (Frame.ingest P raw))) ∧
  views t (Frame.rows (Frame.ingest P raw)) !! 5%nat =
    Some (Script.TimeSeriesLine
            (Frame.time_series (Frame.rows (Frame.ingest P raw)))) ∧
  drop 1 (Script.shown (Script.final (Script.run P raw t))) =
    drop 1 (Script.shown (Script.final (Script.run P raw t'))).
Proof.
  split_and!; try reflexivity.
  - unfold Script.exec, Script.straight. simpl. by rewrite <-app_assoc.
  - intros j step. apply section_shows.
  - rewrite run_outcome. unfold outcome_after. by rewrite decide_False by lia.
  - rewrite run_outcome. unfold outcome_after. rewrite decide_False by lia.
    destruct (heatmap_is_empty _); [done|].
    unfold globals_after. cbn [Script.final Script.shown].
    by rewrite take_ge by (simpl; lia).
  - rewrite !run_outcome. unfold outcome_after. rewrite !decide_False by lia.
    by destruct (heatmap_is_empty _).
Qed.

(** C9, as the code has it.  No section adds, removes or changes a row of
    [df], nor any column ingestion produced: after any number of sections,
    whether or not the run has ended at line 46, [df] has the ingested
    rows.  One section writes to [df]: the deadline section adds the column
    [deadline_days], so the frame the sections after it read has a column
    more than the ingested one.  Every other section leaves [df] as it
    finds it, also when it raises. *)
Theorem only_the_deadline_section_writes
    (P : Frame.Parsers) (raw : list Frame.RawRow) (t : Qc) (n : nat) :
  Frame.rows (Script.v_df (Script.final (Script.before_section n P raw t))) =
    Frame.rows (Frame.ingest P raw) ∧
  Frame.deadline_days
    (Script.v_df (Script.final (Script.before_section n P raw t))) =
    (if decide (n ≤ 17)%nat then None
     else if heatmap_is_empty (Frame.rows (Frame.ingest P raw)) then None
     else Some (Frame.deadline_span <$> Frame.rows (Frame.ingest P raw))) ∧
  Script.sections t !! 17%nat = Some (Script.straight Script.sec_deadline) ∧
  (∀ (j : nat) (step : Script.Step) (st : Script.State),
     Script.sections t !! j = Some step → j ≠ 17%nat →
     Script.v_df (Script.final (step st)) = Script.v_df st) ∧
  (∀ st : Script.State,
     Frame.rows (Script.v_df (Script.sec_deadline st).2) =
       Frame.rows (Script.v_df st) ∧
     Frame.deadline_days (Script.v_df (Script.sec_deadline st).2) =
       Some (Frame.deadline_span <$> Frame.rows (Script.v_df st))).
Proof.
  split_and!.
  - rewrite before_section_outcome. unfold outcome_after.
    destruct (decide _); [done|]. by destruct (heatmap_is_empty _).
  - rewrite before_section_outcome. unfold outcome_after, globals_after.
    destruct (decide (n ≤ 1)%nat).
    + cbn [Script.final Script.v_df Frame.deadline_days].
      destruct (decide (n ≤ 17)%nat); [done|lia].
    + destruct (heatmap_is_empty _); [by destruct (decide _)|done].
  - reflexivity.
  - intros j step st. apply section_keeps_df.
  - intros st. split; reflexivity.
Qed.

(** C9, as stated, fails: on the sample dataset the frame the last two
    sections read has a [deadline_days] column, which the ingested frame
    has not. *)
Lemma later_sections_read_a_wider_frame :
  Frame.deadline_days (Frame.ingest Sample.parsers Sample.dataset) = None ∧
  (∃ s : Script.State,
     Script.before_section 19 Sample.parsers Sample.dataset (Qc_of_Z 50000) =
       Script.Done s ∧
     Frame.deadline_days (Script.v_df s) =
       Some [Some 30%Z; None; None; Some 30%Z]) ∧
  Script.sections (Qc_of_Z 50000) !! 19%nat =
    Some (Script.straight Script.sec_stats).
Proof.
  assert (heatmap_is_empty
            (Frame.rows (Frame.ingest Sample.parsers Sample.dataset)) = false)
    as Hfull by by vm_compute.
  split_and!.
  - reflexivity.
  - eexists. rewrite before_section_outcome. unfold outcome_after.
    rewrite decide_False by lia. rewrite Hfull. split; [done|].
    by vm_compute.
  - reflexivity.
Qed.

(** * Part IV: further properties of the script *)

Section strip_facts.

Lemma lstrip_no_leading s : starts_with_space (Text.lstrip s) = false.
Proof.
  induction s as [|c s IH]; simpl; [done|].
  destruct (Text.is_space c) eqn:Hc; [done|]. simpl. by rewrite Hc.
Qed.

Lemma lstrip_id s : starts_with_space s = false → Text.lstrip s = s.
Proof. destruct s as [|c s]; simpl; [done|]. by intros ->. Qed.

Lemma rstrip_nonspace c s :
  Text.is_space c = false → Text.rstrip (String c s) = String c (Text.rstrip s).
Proof. intros Hc. simpl. rewrite Hc. by destruct (Text.rstrip s). Qed.

Lemma rstrip_no_trailing s : ends_with_space (Text.rstrip s) = false.
Proof.
  induction s as [|c s IH]; simpl; [done|].
  destruct (Text.rstrip s) as [|d r] eqn:Hr.
  - destruct (Text.is_space c) eqn:Hc; [done|]. simpl. by rewrite Hc.
  - exact IH.
Qed.

Lemma rstrip_id s : ends_with_space s = false → Text.rstrip s = s.
Proof.
  induction s as [|c s IH]; [done|].
  destruct s as [|d s]; simpl in *.
  - by intros ->.
  - intros Hs. by rewrite (IH Hs).
Qed.

Lemma rstrip_keeps_start s :
  starts_with_space s = false → starts_with_space (Text.rstrip s) = false.
Proof.
  destruct s as [|c s]; [done|]. intros Hc. simpl in Hc.
  by rewrite rstrip_nonspace.
Qed.

Lemma strip_no_leading s : starts_with_space (Text.strip s) = false.
Proof. apply rstrip_keeps_start, lstrip_no_leading. Qed.

Lemma strip_no_trailing s : ends_with_space (Text.strip s) = false.
Proof. apply rstrip_no_trailing. Qed.

Lemma strip_fixpoint s :
  starts_with_space s = false → ends_with_space s = false → Text.strip s = s.
Proof.
  intros Hl Hr. unfold Text.strip. by rewrite (lstrip_id s Hl), rstrip_id.
Qed.

Lemma lstrip_cut s :
  ∃ l, s = String.append l (Text.lstrip s) ∧ all_space l = true.
Proof.
  induction s as [|c s (l & Hs & Hl)]; simpl.
  { by exists EmptyString. }
  destruct (Text.is_space c) eqn:Hc.
  - exists (String c l). simpl. rewrite Hc, Hl. split; [|done].
    change (String c s = String c (String.append l (Text.lstrip s))).
    by rewrite <-Hs.
  - by exists EmptyString.
Qed.

Lemma rstrip_cut s :
  ∃ r, s = String.append (Text.rstrip s) r ∧ all_space r = true.
Proof.
  induction s as [|c s (r & Hs & Hr)]; simpl.
  { by exists EmptyString. }
  destruct (Text.rstrip s) as [|d r0] eqn:Hrs.
  - simpl in Hs. subst s. destruct (Text.is_space c) eqn:Hc.
    + exists (String c r). simpl. by rewrite Hc, Hr.
    + by exists r.
  - exists r. split; [|done]. simpl. by rewrite Hs at 1.
Qed.

Lemma commas_app s1 s2 :
  commas (String.append s1 s2) = (commas s1 + commas s2)%nat.
Proof.
  induction s1 as [|c s1 IH]; simpl; [done|].
  rewrite IH. by destruct (Ascii.eqb c Text.comma).
Qed.

Lemma strip_commas s : commas s = 0%nat → commas (Text.strip s) = 0%nat.
Proof.
  unfold Text.strip. intros Hs.
  destruct (lstrip_cut s) as (l & Hl & _).
  destruct (rstrip_cut (Text.lstrip s)) as (r & Hr & _).
  rewrite Hl, Hr, !commas_app in Hs. lia.
Qed.
End strip_facts.

Section split_facts.

Lemma cons_head_length c ps :
  ps ≠ [] → length (Text.cons_head c ps) = length ps.
Proof. by destruct ps. Qed.

Lemma split_length s : length (Text.split s) = S (commas s).
Proof.
  induction s as [|c s IH]; simpl; [done|].
  destruct (Ascii.eqb c Text.comma); simpl; [by rewrite IH|].
  rewrite cons_head_length, IH; [done|]. apply split_nonempty.
Qed.

Lemma join_cons_head c ps :
  ps ≠ [] → join (Text.cons_head c ps) = String c (join ps).
Proof. destruct ps as [|p [|q ps]]; done. Qed.

Lemma join_split s : join (Text.split s) = s.
Proof.
  induction s as [|c s IH]; simpl; [done|].
  destruct (Ascii.eqb c Text.comma) eqn:Hc.
  - apply Ascii.eqb_eq in Hc as ->.
    pose proof (split_nonempty s) as Hne.
    destruct (Text.split s) as [|p ps] eqn:Hs; [done|].
    simpl. by rewrite <-IH.
  - rewrite join_cons_head by apply split_nonempty. by rewrite IH.
Qed.

Lemma split_pieces_no_comma s p : p ∈ Text.split s → commas p = 0%nat.
Proof.
  revert p. induction s as [|c s IH]; simpl; intros p Hp.
  { by apply list_elem_of_singleton in Hp as ->. }
  destruct (Ascii.eqb c Text.comma) eqn:Hc.
  - apply elem_of_cons in Hp as [->|Hp]; [done|by apply IH].
  - pose proof (split_nonempty s) as Hne.
    destruct (Text.split s) as [|q qs]; [done|]. simpl in Hp.
    apply elem_of_cons in Hp as [->|Hp].
    + simpl. rewrite Hc. apply IH. left.
    + apply IH. by right.
Qed.

Lemma split_no_comma p : commas p = 0%nat → Text.split p = [p].
Proof.
  induction p as [|c p IH]; simpl; [done|].
  destruct (Ascii.eqb c Text.comma); [done|].
  intros Hp. by rewrite (IH Hp).
Qed.

Lemma split_app_comma p s :
  commas p = 0%nat →
  Text.split (String.append p (String Text.comma s)) = p :: Text.split s.
Proof.
  induction p as [|c p IH]; simpl; [done|].
  destruct (Ascii.eqb c Text.comma); [done|].
  intros Hp. by rewrite (IH Hp).
Qed.

Lemma split_join ps :
  ps ≠ [] → (∀ p, p ∈ ps → commas p = 0%nat) → Text.split (join ps) = ps.
Proof.
  induction ps as [|p ps IH]; [done|]. intros _ Hps.
  destruct ps as [|q ps].
  - simpl. apply split_no_comma, Hps. left.
  - change (join (p :: q :: ps))
      with (String.append p (String Text.comma (join (q :: ps)))).
    rewrite split_app_comma by (apply Hps; left).
    rewrite IH; [done..|]. intros x Hx. apply Hps. by right.
Qed.
End split_facts.

Section token_facts.
Import Frame.

Lemma re_split_length s :
  length (Text.re_split s) = length (Text.split s).
Proof.
  pose proof (f_equal length (strip_re_split s)) as Hlen.
  unfold Text.split_strip in Hlen. by rewrite !length_fmap in Hlen.
Qed.

Lemma truthy_nonempty s : Text.truthy s = true ↔ s ≠ EmptyString.
Proof. by destruct s. Qed.

Lemma elem_of_all_skills col t :
  t ∈ Text.all_skills col ↔
    t ≠ EmptyString ∧ ∃ cell, Some cell ∈ col ∧ t ∈ Text.split_strip cell.
Proof.
  rewrite all_skills_split_strip, list_elem_of_bind.
  setoid_rewrite list_elem_of_filter. setoid_rewrite elem_of_dropna.
  setoid_rewrite truthy_nonempty. split.
  - intros (cell & [Ht Hin] & Hcell). eauto.
  - intros (Ht & cell & Hcell & Hin). eauto.
Qed.

Lemma split_strip_clean cell t :
  t ∈ Text.split_strip cell →
  starts_with_space t = false ∧ ends_with_space t = false ∧ commas t = 0%nat.
Proof.
  unfold Text.split_strip. intros (p & -> & Hp)%list_elem_of_fmap.
  split_and!.
  - apply strip_no_leading.
  - apply strip_no_trailing.
  - by apply strip_commas, (split_pieces_no_comma cell).
Qed.

Lemma elem_of_df_skills df sal cell :
  (sal, cell) ∈ df_skills df ↔
    ∃ r, r ∈ df ∧ salary_usd r = Some sal ∧ required_skills r = Some cell.
Proof.
  unfold df_skills. rewrite list_elem_of_omap. split.
  - intros (r & Hr & Hk). exists r. split; [done|].
    unfold key2 in Hk.
    destruct (salary_usd r), (required_skills r); naive_solver.
  - intros (r & Hr & Hs & Hc). exists r. split; [done|].
    unfold key2. by rewrite Hs, Hc.
Qed.

Lemma elem_of_exploded_skills df sal tok :
  (sal, tok) ∈ exploded_skills df ↔
    ∃ cell t, tok = Some t ∧ (sal, cell) ∈ df_skills df ∧
              t ∈ Text.split_strip cell.
Proof.
  rewrite exploded_skills_tokens, list_elem_of_bind. split.
  - intros ([sal' cell] & Hin & Hr). simpl in Hin.
    apply list_elem_of_fmap in Hin as (t & [= -> ->] & Ht). eauto.
  - intros (cell & t & -> & Hr & Ht). exists (sal, cell). split; [|done].
    simpl. apply list_elem_of_fmap. eauto.
Qed.

Lemma exploded_skills_length df :
  length (exploded_skills df) =
    sum_list ((λ r, S (commas r.2)) <$> df_skills df).
Proof.
  rewrite exploded_skills_tokens.
  induction (df_skills df) as [|r rs IH]; [done|].
  rewrite bind_cons, length_app, IH, length_fmap. csimpl.
  unfold Text.split_strip. by rewrite length_fmap, split_length.
Qed.
End token_facts.

(** X1.  [s.strip()] removes white space at the two ends of [s] and
    nothing else: [s] is a run of white space, then [s.strip()], then a run
    of white space; the stripped text neither starts nor ends with white
    space, so stripping it again changes nothing; and a text that neither
    starts nor ends with white space is returned as it is. *)
Theorem strip_removes_surrounding_space (s : string) :
  (∃ l r : string,
     s = String.append l (String.append (Text.strip s) r) ∧
     all_space l = true ∧ all_space r = true) ∧
  starts_with_space (Text.strip s) = false ∧
  ends_with_space (Text.strip s) = false ∧
  Text.strip (Text.strip s) = Text.strip s ∧
  (starts_with_space s || ends_with_space s = false → Text.strip s = s).
Proof.
  split_and!.
  - destruct (lstrip_cut s) as (l & Hl & Hls).
    destruct (rstrip_cut (Text.lstrip s)) as (r & Hr & Hrs).
    exists l, r. split; [|done]. unfold Text.strip. by rewrite <-Hr, <-Hl.
  - apply strip_no_leading.
  - apply strip_no_trailing.
  - apply strip_fixpoint; [apply strip_no_leading|apply strip_no_trailing].
  - intros [Hl Hr]%orb_false_elim. by apply strip_fixpoint.
Qed.

(** X2.  [x.split(",")] cuts [x] at every comma: it returns one piece more
    than [x] has commas (so at least one, also for the empty text), no piece
    contains a comma, and joining the pieces with commas gives [x] back.
    Conversely any non-empty list of comma-free pieces is what splitting its
    join returns. *)
Theorem split_is_inverse_of_join (x : string) :
  length (Text.split x) = S (commas x) ∧
  Forall (λ p, commas p = 0%nat) (Text.split x) ∧
  join (Text.split x) = x ∧
  (∀ pieces : list string,
     pieces ≠ [] → Forall (λ p, commas p = 0%nat) pieces →
     Text.split (join pieces) = pieces).
Proof.
  split_and!.
  - apply split_length.
  - apply Forall_forall. intros p. apply split_pieces_no_comma.
  - apply join_split.
  - intros pieces Hne Hall. apply split_join; [done|].
    by apply Forall_forall.
Qed.

(** X3.  The two tokenizers of the script cut a cell at the same places:
    [re.split(r',\s*', x)] and [x.split(",")] return equally many pieces,
    and piece by piece the same text once stripped.  Hence the skills that
    are counted (lines 87-88) are, cell by cell and in order, the non-empty
    ones among the tokens that are exploded (line 96). *)
Theorem tokenizers_agree_after_strip :
  (∀ x : string,
     length (Text.re_split x) = length (Text.split x) ∧
     Text.strip <$> Text.re_split x = Text.split_strip x) ∧
  (∀ col : list (option string),
     Text.all_skills col =
       x ← Series.dropna col;
       filter (λ t, t ≠ EmptyString) (Text.split_strip x)).
Proof.
  split.
  - intros x. split; [apply re_split_length|apply strip_re_split].
  - intros col. rewrite all_skills_split_strip.
    apply list_bind_ext; [|done]. intros x.
    apply list_filter_iff. intros t. apply truthy_nonempty.
Qed.

(** X4.  Every skill that is counted is a real token: it is not empty, has
    no white space at either end, contains no comma, and is the stripped
    form of a piece of some present [required_skills] cell.  Conversely
    every non-empty stripped piece of a present cell is counted. *)
Theorem counted_skills_are_clean_tokens (col : list (option string)) :
  Forall
    (λ t, t ≠ EmptyString ∧ starts_with_space t = false ∧
          ends_with_space t = false ∧ commas t = 0%nat ∧
          ∃ cell, Some cell ∈ col ∧ t ∈ Text.split_strip cell)
    (Text.all_skills col) ∧
  (∀ cell t : string,
     Some cell ∈ col → t ∈ Text.split_strip cell → t ≠ EmptyString →
     t ∈ Text.all_skills col).
Proof.
  split.
  - apply Forall_forall. intros t (Ht & cell & Hcell & Hin)%elem_of_all_skills.
    destruct (split_strip_clean cell t Hin) as (? & ? & ?).
    split_and!; [done..|]. by exists cell.
  - intros cell t Hcell Hin Ht. apply elem_of_all_skills. eauto.
Qed.

(** X5.  The explode of lines 95-97 makes its rows from the postings that
    have both a salary and a skills cell, and from no other: such a posting
    gives one row per piece of its cell, that is one more than the cell has
    commas, each row carrying the posting's salary and a token that is
    never missing.  A posting without a salary gives no row. *)
Theorem explode_rows_per_posting (df : list Frame.Row) :
  length (Frame.exploded_skills df) =
    sum_list ((λ r, S (commas r.2)) <$> Frame.df_skills df) ∧
  (∀ (sal : Qc) (cell : string),
     (sal, cell) ∈ Frame.df_skills df ↔
       ∃ r, r ∈ df ∧ Frame.salary_usd r = Some sal ∧
            Frame.required_skills r = Some cell) ∧
  (∀ (sal : Qc) (tok : option string),
     (sal, tok) ∈ Frame.exploded_skills df ↔
       ∃ cell t, tok = Some t ∧ (sal, cell) ∈ Frame.df_skills df ∧
                 t ∈ Text.split_strip cell) ∧
  Forall (λ row, is_Some row.2) (Frame.exploded_skills df).
Proof.
  split_and!.
  - apply exploded_skills_length.
  - intros sal cell. apply elem_of_df_skills.
  - intros sal tok. apply elem_of_exploded_skills.
  - apply Forall_forall.
    intros [sal tok] (cell & t & -> & _)%elem_of_exploded_skills. by eexists.
Qed.

Section count_facts.
Context {K : Type} `{EqDecision K}.
Implicit Types (xs : list K) (col : list (option K)) (t : list (K * nat)).

Lemma total_incr k t : total (Counting.incr k t) = S (total t).
Proof.
  unfold total. induction t as [|[k' n] t IH]; csimpl; [done|].
  destruct (decide (k = k')); csimpl; [done|]. by rewrite IH.
Qed.

Lemma total_Counter xs : total (Counting.Counter xs) = length xs.
Proof.
  induction xs as [|x xs IH] using rev_ind; [done|].
  unfold Counting.Counter in *. rewrite foldl_app. simpl.
  rewrite total_incr, IH, length_app. simpl. lia.
Qed.

Lemma total_Permutation t t' : t ≡ₚ t' → total t = total t'.
Proof. intros Hp. unfold total. by rewrite Hp. Qed.

Lemma total_take n t : (total (take n t) ≤ total t)%nat.
Proof.
  unfold total. rewrite <-(take_drop n t) at 2.
  rewrite fmap_app, sum_list_with_app. lia.
Qed.

Lemma total_value_counts col :
  total (Counting.value_counts col) = Series.count col.
Proof.
  unfold Counting.value_counts.
  rewrite (total_Permutation _ (Counting.Counter (omap id col))).
  - by rewrite total_Counter, count_dropna.
  - apply sort_desc_perm.
Qed.

Lemma elem_of_value_counts col k m :
  (k, m) ∈ Counting.value_counts col ↔
    Some k ∈ col ∧ m = Counting.occurrences (Some k) col.
Proof.
  unfold Counting.value_counts.
  rewrite elem_of_sort_desc, elem_of_Counter.
  change (omap id col) with (Series.dropna col).
  by rewrite elem_of_dropna, occurrences_dropna.
Qed.

Lemma value_counts_NoDup col : NoDup (Counting.value_counts col).*1.
Proof.
  unfold Counting.value_counts.
  rewrite sort_desc_perm, Counter_keys. apply NoDup_first_seen.
Qed.

Lemma value_counts_descending col :
  StronglySorted (λ a b, (b.2 ≤ a.2)%nat) (Counting.value_counts col).
Proof.
  unfold Counting.value_counts.
  eapply StronglySorted_weaken;
    [|apply sort_desc_stable; [apply count_leb_total|apply count_leb_trans]].
  intros a b _ _ [[Hba _]|[[_ Hba] _]];
    unfold Counting.count_leb in Hba; by apply Nat.leb_le in Hba.
Qed.
End count_facts.

Section size_facts.
Context {K V : Type} `{EqDecision K}.
Implicit Types (rows : list (option K * V)) (g : list (K * list V)).

Lemma total_add_to_group k v g :
  total (GroupBy.agg length (GroupBy.add_to_group k v g)) =
    S (total (GroupBy.agg length g)).
Proof.
  unfold total, GroupBy.agg.
  induction g as [|[k' vs] g IH]; csimpl; [done|].
  destruct (decide (k = k')); csimpl.
  - rewrite length_app. simpl. lia.
  - by rewrite IH.
Qed.

Lemma total_groups rows :
  total (GroupBy.agg length (GroupBy.groups rows)) = Series.count rows.*1.
Proof.
  rewrite count_dropna.
  induction rows as [|[o v] rows IH] using rev_ind; [done|].
  unfold GroupBy.groups in *. rewrite foldl_app, fmap_app, dropna_app, length_app.
  simpl. destruct o as [k|]; simpl.
  - rewrite total_add_to_group, IH. lia.
  - rewrite IH. lia.
Qed.

(** The group sizes add up to the number of rows whose key is present. *)
Lemma total_sizes key_leb rows :
  total (GroupBy.agg length (GroupBy.groupby key_leb rows)) =
    Series.count rows.*1.
Proof.
  rewrite <-total_groups. apply total_Permutation.
  unfold GroupBy.agg, GroupBy.groupby. apply fmap_Permutation, sort_perm.
Qed.

Lemma members_nonempty k rows :
  Some k ∈ rows.*1 → (1 ≤ length (GroupBy.members k rows))%nat.
Proof.
  intros ([o v] & Hk & Hr)%list_elem_of_fmap. simpl in Hk. subst o.
  unfold GroupBy.members. rewrite length_fmap.
  assert ((Some k, v) ∈ filter (λ r : option K * V, r.1 = Some k) rows) as Hin
    by by apply list_elem_of_filter.
  destruct (filter _ rows); [by apply elem_of_nil in Hin|simpl; lia].
Qed.

(** The keys of a grouping do not depend on the cells that are grouped. *)
Lemma groups_keys rows :
  (GroupBy.groups rows).*1 = Counting.first_seen (Series.dropna rows.*1).
Proof. by rewrite groups_spec, fst_tagged. Qed.
End size_facts.

Section sort_facts.
Context {A B : Type} (f : A → B) (leb : B → B → bool).

Lemma insert_fmap x l :
  f <$> Stable.insert (λ a b, leb (f a) (f b)) x l =
    Stable.insert leb (f x) (f <$> l).
Proof.
  induction l as [|y l IH]; csimpl; [done|].
  destruct (leb (f x) (f y)); csimpl; [done|]. by rewrite IH.
Qed.

(** Sorting by a key and reading the keys is sorting the keys. *)
Lemma sort_fmap l :
  f <$> Stable.sort (λ a b, leb (f a) (f b)) l = Stable.sort leb (f <$> l).
Proof.
  induction l as [|x l IH]; csimpl; [done|].
  by rewrite insert_fmap, IH.
Qed.
End sort_facts.

Section key_order_facts.
Context {K V : Type} `{EqDecision K} (key_leb : K → K → bool).
Hypothesis key_leb_total : ∀ a b, key_leb a b = true ∨ key_leb b a = true.
Hypothesis key_leb_trans :
  ∀ a b c, key_leb a b = true → key_leb b c = true → key_leb a c = true.

Lemma groupby_keys_sorted (rows : list (option K * V)) :
  StronglySorted (λ a b, key_leb a b = true)
    (GroupBy.groupby key_leb rows).*1.
Proof.
  unfold GroupBy.groupby.
  rewrite (sort_fmap fst key_leb).
  eapply StronglySorted_weaken; [|by apply sort_stable].
  intros a b _ _ Hab. by apply asc_stable_leb in Hab.
Qed.
End key_order_facts.

Section table_facts.
Import Frame.

Lemma StronglySorted_NoDup_strict {A} (R : relation A) (l : list A) :
  StronglySorted R l → NoDup l → StronglySorted (λ a b, R a b ∧ a ≠ b) l.
Proof.
  induction l as [|x l IH]; intros Hs Hnd; [constructor|].
  apply StronglySorted_cons in Hs as [Hx Hs].
  apply NoDup_cons in Hnd as [Hni Hnd].
  apply StronglySorted_cons. split; [|by apply IH].
  apply Forall_forall. intros y Hy. split.
  - by apply (proj1 (Forall_forall _ _) Hx).
  - by intros ->.
Qed.

Lemma groupby_keys {K V} `{EqDecision K} (key_leb : K → K → bool)
    (rows : list (option K * V)) :
  (GroupBy.groupby key_leb rows).*1 =
    Stable.sort key_leb (Counting.first_seen (Series.dropna rows.*1)).
Proof.
  unfold GroupBy.groupby. by rewrite (sort_fmap fst key_leb), groups_keys.
Qed.

Lemma elem_of_monthly df m n :
  (m, n) ∈ monthly df ↔
    (∃ r, r ∈ df ∧ posting_month r = Some m) ∧
    n = length (filter (λ r, posting_month r = Some m) df).
Proof.
  unfold monthly.
  rewrite elem_of_agg, keys_keyed, members_keyed. by rewrite length_fmap.
Qed.

Lemma filter_witness_length {A} (Q : A → Prop) `{∀ x, Decision (Q x)}
    (l : list A) x :
  x ∈ l → Q x → (1 ≤ length (filter Q l))%nat.
Proof.
  intros Hx HQ.
  assert (x ∈ filter Q l) as Hin by by apply list_elem_of_filter.
  destruct (filter Q l); [by apply elem_of_nil in Hin|simpl; lia].
Qed.

Lemma elem_of_exp_bar locations df k n :
  (k, n) ∈ Charts.exp_bar locations df ↔
    (∃ r, r ∈ df ∧ location_level r = Some k ∧ k.1 ∈ locations) ∧
    n = length (filter (λ r, location_level r = Some k) df).
Proof.
  unfold Charts.exp_bar, Charts.exp_data. rewrite boolean_index_fmap.
  rewrite elem_of_agg, keys_keyed, members_keyed, length_fmap.
  fold location_level.
  assert (∀ r, location_level r = Some k →
            (isin (company_location r) locations = true ↔ k.1 ∈ locations))
    as Hloc.
  { intros r. unfold location_level, key2, isin.
    destruct (company_location r) as [l|]; [|done].
    destruct (experience_level r); [|done].
    intros [= <-]. simpl. apply bool_decide_eq_true. }
  split.
  - intros [(r & [Hin Hr]%list_elem_of_filter & Hk) ->].
    apply (Hloc r Hk) in Hin.
    rewrite filter_filter_implied; [by eauto|].
    intros x Hx. by apply (Hloc x Hx).
  - intros [(r & Hr & Hk & Hin) ->].
    rewrite filter_filter_implied.
    + split; [|done]. exists r. split; [|done].
      apply list_elem_of_filter. split; [by apply (Hloc r Hk)|done].
    + intros x Hx. by apply (Hloc x Hx).
Qed.

Lemma exp_bar_keys locations df :
  (Charts.exp_bar locations df).*1 = (exp_country locations df).*1.
Proof.
  unfold Charts.exp_bar, exp_country, mean_salary_by, Charts.exp_data.
  rewrite !agg_keys, !groupby_keys. do 3 f_equal.
  rewrite <-!list_fmap_compose. by apply list_fmap_ext.
Qed.
End table_facts.

(** X6.  The employment-type table of the pie chart
    ([value_counts()] of the column) has one entry per distinct present
    value, holding the number of cells with that value; no count is zero,
    the counts add up to the number of present cells, and they come in
    descending order.  A missing cell is in no entry. *)
Theorem employment_counts_partition_the_column (col : list (option string)) :
  NoDup (Charts.emp_counts col).*1 ∧
  (∀ (k : string) (m : nat),
     (k, m) ∈ Charts.emp_counts col ↔
       Some k ∈ col ∧ m = Counting.occurrences (Some k) col) ∧
  Forall (λ e, (1 ≤ e.2)%nat) (Charts.emp_counts col) ∧
  total (Charts.emp_counts col) = Series.count col ∧
  StronglySorted (λ a b, (b.2 ≤ a.2)%nat) (Charts.emp_counts col).
Proof.
  unfold Charts.emp_counts. split_and!.
  - apply value_counts_NoDup.
  - intros k m. apply elem_of_value_counts.
  - apply Forall_forall. intros [k m] [Hk ->]%elem_of_value_counts.
    by apply occurrences_pos.
  - apply total_value_counts.
  - apply value_counts_descending.
Qed.

(** X7.  The job-title bar chart shows at most 15 titles, each with the
    number of postings that carry it, in descending order of that number.
    The ten titles the heatmap and the box plot are restricted to are the
    first ten bars of this chart.  The bars never count more postings than
    have a title, and count all of them when the table of all titles has no
    more than 15 entries. *)
Theorem job_title_bars (df : list Frame.Row) :
  (length (Charts.job_freq df) ≤ 15)%nat ∧
  NoDup (Charts.job_freq df).*1 ∧
  Forall
    (λ e, Some e.1 ∈ Frame.job_title <$> df ∧
          e.2 = Counting.occurrences (Some e.1) (Frame.job_title <$> df))
    (Charts.job_freq df) ∧
  StronglySorted (λ a b, (b.2 ≤ a.2)%nat) (Charts.job_freq df) ∧
  Frame.top_titles df = take 10 (Charts.job_freq df).*1 ∧
  (total (Charts.job_freq df) ≤ Series.count (Frame.job_title <$> df))%nat ∧
  ((length (Counting.value_counts (Frame.job_title <$> df)) ≤ 15)%nat →
   total (Charts.job_freq df) = Series.count (Frame.job_title <$> df)).
Proof.
  unfold Charts.job_freq, Counting.head. split_and!.
  - rewrite length_take. lia.
  - rewrite fmap_take. eapply sublist_NoDup; [|apply sublist_take].
    apply value_counts_NoDup.
  - apply Forall_forall.
    intros [k m] (i & Hk%list_elem_of_lookup_2 & _)%elem_of_take.
    by apply elem_of_value_counts in Hk.
  - apply StronglySorted_take, value_counts_descending.
  - unfold Frame.top_titles, Frame.top_values, Counting.index, Counting.head.
    rewrite !fmap_take, take_take. done.
  - rewrite <-total_value_counts. apply total_take.
  - intros Hlen. by rewrite take_ge, total_value_counts.
Qed.

(** X8.  The skill table of line 89 has at most 15 entries, each a counted
    token with the number of times it occurs among all counted tokens.  The
    entries never count more tokens than there are, and count every token
    when there are no more than 15 distinct ones. *)
Theorem skill_counts_count_tokens (df : list Frame.Row) :
  (length (Frame.skill_counts df) ≤ 15)%nat ∧
  Forall
    (λ e, e.1 ∈ Text.all_skills (Frame.required_skills <$> df) ∧
          e.2 = Counting.occurrences e.1
                  (Text.all_skills (Frame.required_skills <$> df)) ∧
          (1 ≤ e.2)%nat)
    (Frame.skill_counts df) ∧
  (total (Frame.skill_counts df)
     ≤ length (Text.all_skills (Frame.required_skills <$> df)))%nat ∧
  ((length
      (Counting.first_seen (Text.all_skills (Frame.required_skills <$> df)))
      ≤ 15)%nat →
   total (Frame.skill_counts df) =
     length (Text.all_skills (Frame.required_skills <$> df))).
Proof.
  unfold Frame.skill_counts, Counting.most_common. split_and!.
  - rewrite length_take. lia.
  - apply Forall_forall.
    intros [k m] (i & Hk%list_elem_of_lookup_2 & _)%elem_of_take.
    apply elem_of_sort_desc, elem_of_Counter in Hk as [Hk ->].
    split_and!; [done..|]. by apply occurrences_pos.
  - etransitivity; [apply total_take|].
    rewrite (total_Permutation _ _ (sort_desc_perm _ _)).
    by rewrite total_Counter.
  - intros Hlen. rewrite take_ge.
    + rewrite (total_Permutation _ _ (sort_desc_perm _ _)).
      by rewrite total_Counter.
    + by rewrite length_sort_desc, Counter_spec, length_fmap.
Qed.

(** X9.  The monthly line chart has one point per month in which some
    posting was made, holding the number of postings of that month; the
    months come in strictly ascending order, no count is zero, and the
    counts add up to the number of postings whose posting month is known.
    A posting without a posting month is counted nowhere. *)
Theorem monthly_counts_partition_dated_rows (df : list Frame.Row) :
  (∀ (m : Z) (n : nat),
     (m, n) ∈ Frame.monthly df ↔
       (∃ r, r ∈ df ∧ Frame.posting_month r = Some m) ∧
       n = length (filter (λ r, Frame.posting_month r = Some m) df)) ∧
  Forall (λ e, (1 ≤ e.2)%nat) (Frame.monthly df) ∧
  StronglySorted (λ a b, (a < b)%Z) (Frame.monthly df).*1 ∧
  total (Frame.monthly df) = Series.count (Frame.posting_month <$> df).
Proof.
  split_and!.
  - intros m n. apply elem_of_monthly.
  - apply Forall_forall. intros [m n] [(r & Hr & Hm) ->]%elem_of_monthly.
    by apply (filter_witness_length _ df r).
  - unfold Frame.monthly. rewrite agg_keys.
    eapply StronglySorted_weaken;
      [|apply StronglySorted_NoDup_strict;
        [apply (groupby_keys_sorted Z.leb)|apply groupby_keys_NoDup]].
    + intros a b _ _ [Hab%Z.leb_le Hne]. lia.
    + intros a b. destruct (Z.leb_spec a b); [by left|right].
      apply Z.leb_le. lia.
    + intros a b c. rewrite !Z.leb_le. lia.
  - unfold Frame.monthly. rewrite total_sizes.
    by rewrite <-list_fmap_compose.
Qed.

(** X10.  The experience-level bar chart counts postings per pair of
    company location and experience level, for the locations among the top
    ones only: a pair is shown when some posting carries it and its
    location is a top location, with the number of such postings, never
    zero.  The pairs shown are, in the same order, the pairs for which the
    salary chart of lines 144-145 shows a mean. *)
Theorem experience_bars_count_top_locations
    (locations : list string) (df : list Frame.Row) :
  NoDup (Charts.exp_bar locations df).*1 ∧
  (∀ (k : string * string) (n : nat),
     (k, n) ∈ Charts.exp_bar locations df ↔
       (∃ r, r ∈ df ∧ location_level r = Some k ∧ k.1 ∈ locations) ∧
       n = length (filter (λ r, location_level r = Some k) df)) ∧
  Forall (λ e, (1 ≤ e.2)%nat) (Charts.exp_bar locations df) ∧
  (Charts.exp_bar locations df).*1 = (Frame.exp_country locations df).*1 ∧
  total (Charts.exp_bar locations df) =
    Series.count (location_level <$> Charts.exp_data locations df).
Proof.
  split_and!.
  - unfold Charts.exp_bar. rewrite agg_keys. apply groupby_keys_NoDup.
  - intros k n. apply elem_of_exp_bar.
  - apply Forall_forall.
    intros [k n] [(r & Hr & Hk & _) ->]%elem_of_exp_bar.
    by apply (filter_witness_length _ df r).
  - apply exp_bar_keys.
  - unfold Charts.exp_bar. rewrite total_sizes.
    by rewrite <-list_fmap_compose.
Qed.

(** ** Order and rounding of the numeric summaries *)

Section bounds.

Lemma reduce_min_spec x xs :
  Series.Plain.reduce Series.Qc_min x xs ∈ x :: xs ∧
  ∀ y, y ∈ x :: xs → Series.Plain.reduce Series.Qc_min x xs ≤ y.
Proof.
  revert x. induction xs as [|z xs IH]; intros x; simpl.
  { split; [left|]. intros y ->%list_elem_of_singleton. apply Qcle_refl. }
  destruct (IH z) as [Hin Hlb]. unfold Series.Qc_min at 1 3.
  destruct (decide (x ≤ Series.Plain.reduce Series.Qc_min z xs)) as [Hle|Hgt].
  - split; [left|]. intros y [->|Hy]%elem_of_cons; [apply Qcle_refl|].
    eapply Qcle_trans; [exact Hle|by apply Hlb].
  - apply Qcnot_le_lt, Qclt_le_weak in Hgt. split; [by right|].
    intros y [->|Hy]%elem_of_cons; [done|by apply Hlb].
Qed.

Lemma plain_min_spec xs lo :
  Series.Plain.min xs = Some lo → lo ∈ xs ∧ ∀ y, y ∈ xs → lo ≤ y.
Proof.
  destruct xs as [|x xs]; [done|]. intros [= <-]. apply reduce_min_spec.
Qed.



End bounds.

Section quantile_facts.



End quantile_facts.

Section rounding_facts.






End rounding_facts.

Section summary_order.






Lemma mean_present s : is_Some (Series.mean s) ↔ (0 < Series.count s)%nat.
Proof.
  rewrite count_dropna, mean_dropna.
  destruct (Series.dropna s); simpl; split; try done; try lia; by intros [? ?].
Qed.





End summary_order.

Section string_order.

Lemma ascii_compare_trans (a b c : ascii) (o : comparison) :
  Ascii.compare a b = o → Ascii.compare b c = o → Ascii.compare a c = o.
Proof.
  unfold Ascii.compare. destruct o.
  - rewrite !N.compare_eq_iff. congruence.
  - rewrite !N.compare_lt_iff. lia.
  - rewrite !N.compare_gt_iff. lia.
Qed.

Lemma ascii_compare_Eq (a b : ascii) : Ascii.compare a b = Eq → a = b.
Proof. apply Ascii.compare_eq_iff. Qed.

Lemma string_compare_trans (a b c : string) (o : comparison) :
  String.compare a b = o → String.compare b c = o → String.compare a c = o.
Proof.
  revert b c. induction a as [|x a IH]; intros [|y b] [|z c]; simpl;
    try congruence.
  destruct (Ascii.compare x y) eqn:Hxy, (Ascii.compare y z) eqn:Hyz;
    try congruence.
  - apply ascii_compare_Eq in Hxy as ->. apply ascii_compare_Eq in Hyz as ->.
    unfold Ascii.compare. rewrite N.compare_refl. apply IH.
  - apply ascii_compare_Eq in Hxy as ->. by rewrite Hyz.
  - apply ascii_compare_Eq in Hxy as ->. by rewrite Hyz.
  - apply ascii_compare_Eq in Hyz as <-. by rewrite Hxy.
  - by rewrite (ascii_compare_trans x y z Lt).
  - apply ascii_compare_Eq in Hyz as <-. by rewrite Hxy.
  - by rewrite (ascii_compare_trans x y z Gt).
Qed.

Lemma string_compare_Eq_l (a b c : string) :
  String.compare a b = Eq → String.compare a c = String.compare b c.
Proof. by intros ->%String.compare_eq_iff. Qed.

Lemma string_leb_total (a b : string) :
  Frame.string_leb a b = true ∨ Frame.string_leb b a = true.
Proof. apply String.leb_total. Qed.

Lemma string_leb_trans (a b c : string) :
  Frame.string_leb a b = true → Frame.string_leb b c = true →
  Frame.string_leb a c = true.
Proof.
  unfold Frame.string_leb, String.leb.
  destruct (String.compare a b) eqn:Hab; [| |done].
  - by rewrite (string_compare_Eq_l a b c Hab).
  - destruct (String.compare b c) eqn:Hbc; [| |done].
    + apply String.compare_eq_iff in Hbc as <-. by rewrite Hab.
    + by rewrite (string_compare_trans a b c Lt).
Qed.
End string_order.

Section range_facts.
Import Frame.

Lemma min_Some s m :
  Series.min s = Some m ↔ Some m ∈ s ∧ ∀ v, Some v ∈ s → m ≤ v.
Proof.
  assert (∀ v, Some v ∈ s ↔ v ∈ Series.dropna s) as Hin
    by (intros v; by rewrite elem_of_dropna).
  rewrite min_dropna. split.
  - intros [Hm Hlb]%plain_min_spec. split; [by apply Hin|].
    intros v Hv%Hin. by apply Hlb.
  - intros [Hm Hlb]. destruct (Series.Plain.min _) as [lo|] eqn:Hlo.
    + apply plain_min_spec in Hlo as [Hlo1 Hlo2]. f_equal.
      apply Qcle_antisym; [by apply Hlo2, Hin|by apply Hlb, Hin].
    + apply Hin in Hm. unfold Series.Plain.min in Hlo.
      destruct (Series.dropna s); [by apply elem_of_nil in Hm|done].
Qed.

Lemma elem_of_salary_ranges df t r :
  (t, r) ∈ Charts.salary_ranges df ↔
    (∃ row, row ∈ df ∧ job_title row = Some t) ∧
    r = (let cells := salary_usd <$> filter (λ row, job_title row = Some t) df in
         {| Charts.r_min := Series.min cells;
            Charts.r_max := Series.max cells;
            Charts.r_mean := Series.mean cells |}).
Proof.
  unfold Charts.salary_ranges.
  by rewrite elem_of_agg, keys_keyed, members_keyed.
Qed.

Lemma range_cases (s : list (option Qc)) :
  (∃ lo hi m, Series.min s = Some lo ∧ Series.max s = Some hi ∧
              Series.mean s = Some m) ∨
  (Series.min s = None ∧ Series.max s = None ∧ Series.mean s = None).
Proof.
  rewrite min_dropna, max_dropna, mean_dropna.
  destruct (Series.dropna s); [by right|left]. by eexists _, _, _.
Qed.
End range_facts.


(** X12.  The salary-range chart has one bar per job title of the frame,
    the titles in ascending order.  When some posting of the title has a
    salary, the smallest and the largest salary of the title are both
    salaries of postings of that title with every salary of the title
    between them, the bar starts at the smallest, and its height and its
    label are present, the height not negative.  When no posting of the
    title has a salary, the bar has neither base, height nor label. *)
Theorem salary_range_bars (df : list Frame.Row) :
  StronglySorted (λ a b, Frame.string_leb a b = true ∧ a ≠ b)
    (Charts.salary_ranges df).*1 ∧
  (∀ t, t ∈ (Charts.salary_ranges df).*1 ↔ Some t ∈ Frame.job_title <$> df) ∧
  Forall
    (λ e,
       let s := Frame.salary_usd
                  <$> filter (λ row, Frame.job_title row = Some e.1) df in
       match Charts.r_min e.2, Charts.r_max e.2, Charts.r_mean e.2 with
       | Some lo, Some hi, Some m =>
           Some lo ∈ s ∧ Some hi ∈ s ∧
           (∀ v, Some v ∈ s → lo ≤ v ∧ v ≤ hi) ∧
           Charts.bar_base e.2 = Some lo ∧
           is_Some (Charts.bar_height e.2) ∧
           le_cell (Some 0) (Charts.bar_height e.2) ∧
           is_Some (Charts.bar_text e.2)
       | None, None, None =>
           (∀ v, Some v ∉ s) ∧
           Charts.bar_base e.2 = None ∧ Charts.bar_height e.2 = None ∧
           Charts.bar_text e.2 = None
       | _, _, _ => False
       end)
    (Charts.salary_ranges df).
Proof.
  split_and!.
  - apply StronglySorted_NoDup_strict.
    + unfold Charts.salary_ranges. rewrite agg_keys.
      apply groupby_keys_sorted;
        [apply string_leb_total|apply string_leb_trans].
    + unfold Charts.salary_ranges. rewrite agg_keys.
      apply groupby_keys_NoDup.
  - intros t. rewrite list_elem_of_fmap. split.
    + intros ([t' r] & -> & [(row & Hrow & Ht) _]%elem_of_salary_ranges).
      simpl. rewrite <-Ht. by apply list_elem_of_fmap_2.
    + intros (row & Ht & Hrow)%list_elem_of_fmap.
      eexists (t, _). split; [done|].
      apply elem_of_salary_ranges. split; [by exists row|done].
  - apply Forall_forall. intros [t r] [_ ->]%elem_of_salary_ranges.
    cbn [fst snd]. cbv zeta.
    set (s := Frame.salary_usd <$> filter _ df).
    unfold Charts.bar_base, Charts.bar_height, Charts.bar_text, Charts.sub_cell.
    cbn [Charts.r_min Charts.r_max Charts.r_mean].
    destruct (range_cases s) as [(lo & hi & m & Hlo & Hhi & Hm)|(Hlo & Hhi & Hm)].
    + rewrite Hlo, Hhi, Hm.
      apply min_Some in Hlo as [Hlo1 Hlo2].
      apply max_Some in Hhi as [Hhi1 Hhi2].
      split_and!; try done.
      * intros v Hv. split; [by apply Hlo2|by apply Hhi2].
      * simpl. assert (lo ≤ hi) as Hle by (by apply Hlo2).
        clear -Hle. qc_to_q. lra.
    + rewrite Hlo, Hhi, Hm. split; [|done]. by apply max_None.
Qed.



(** ** Sorted tables, the pivot table and the remaining sections *)

Section sort_ext_facts.
Context {A : Type} (leb leb' : A → A → bool).

Lemma insert_ext x l :
  (∀ y, y ∈ l → leb x y = leb' x y) →
  Stable.insert leb x l = Stable.insert leb' x l.
Proof.
  induction l as [|y l IH]; intros Hl; simpl; [done|].
  rewrite <-(Hl y) by left. destruct (leb x y); [done|].
  rewrite IH; [done|]. intros z Hz. apply Hl. by right.
Qed.

Lemma sort_ext l :
  (∀ x y, x ∈ l → y ∈ l → leb x y = leb' x y) →
  Stable.sort leb l = Stable.sort leb' l.
Proof.
  induction l as [|x l IH]; intros Hl; simpl; [done|].
  rewrite IH by (intros y z Hy Hz; apply Hl; by right).
  apply insert_ext. intros y Hy%elem_of_sort. apply Hl; [left|by right].
Qed.

Lemma sort_desc_ext l :
  (∀ x y, x ∈ l → y ∈ l → leb x y = leb' x y) →
  Stable.sort_desc leb l = Stable.sort_desc leb' l.
Proof.
  intros Hl. unfold Stable.sort_desc. f_equal. apply sort_ext.
  intros x y Hx Hy. rewrite elem_of_reverse in Hx, Hy. by apply Hl.
Qed.
End sort_ext_facts.

Section sort_values_facts.
Import Frame.
Context {K : Type}.
Implicit Types t : list (K * option Qc).

Lemma present_leb_total (a b : K * option Qc) :
  present_leb a b = true ∨ present_leb b a = true.
Proof.
  unfold present_leb. destruct a.2 as [x|], b.2 as [y|]; auto.
  apply Qc_leb_total.
Qed.

Lemma present_leb_trans (a b c : K * option Qc) :
  present_leb a b = true → present_leb b c = true → present_leb a c = true.
Proof.
  unfold present_leb. destruct a.2 as [x|], b.2 as [y|], c.2 as [z|]; try done.
  apply Qc_leb_trans.
Qed.

Lemma sort_values_desc_perm t : sort_values_desc t ≡ₚ t.
Proof.
  unfold sort_values_desc. rewrite sort_desc_perm.
  induction t as [|[k [v|]] t IH]; [done| |].
  - rewrite filter_cons_True by (by eexists).
    rewrite filter_cons_False by done. simpl. by f_equiv.
  - rewrite filter_cons_False by (by intros [? ?]).
    rewrite filter_cons_True by done.
    rewrite <-Permutation_middle. by f_equiv.
Qed.

Lemma elem_of_sort_values_desc t e : e ∈ sort_values_desc t ↔ e ∈ t.
Proof. by rewrite sort_values_desc_perm. Qed.

Lemma sort_values_desc_sorted t :
  StronglySorted (λ a b, desc_nan_last a.2 b.2) (sort_values_desc t).
Proof.
  unfold sort_values_desc. apply StronglySorted_app. split_and!.
  - intros a b Ha [Hb _]%list_elem_of_filter.
    rewrite Hb. unfold desc_nan_last. by destruct a.2.
  - rewrite (sort_desc_ext _ present_leb).
    2:{ intros x y [[vx Hx] _]%list_elem_of_filter [[vy Hy] _]%list_elem_of_filter.
        unfold present_leb, opt_leb. by rewrite Hx, Hy. }
    eapply StronglySorted_weaken;
      [|apply sort_desc_stable;
          [apply present_leb_total|apply present_leb_trans]].
    intros a b [[va Ha] _]%elem_of_sort_desc%list_elem_of_filter
                [[vb Hb] _]%elem_of_sort_desc%list_elem_of_filter.
    unfold Stable.desc_stable, Stable.klt, Stable.keq, present_leb, desc_nan_last.
    rewrite Ha, Hb. rewrite !bool_decide_eq_true.
    intros [[? _]|[[_ ?] _]]; done.
  - induction t as [|[k [v|]] t IH]; [constructor| |].
    + by rewrite filter_cons_False by done.
    + rewrite filter_cons_True by done. apply StronglySorted_cons.
      split; [|done]. apply Forall_forall.
      by intros b [-> _]%list_elem_of_filter.
Qed.

Lemma head_sort_values_desc (n : nat) t :
  length (Counting.head n (sort_values_desc t)) = Nat.min n (length t) ∧
  (∀ e, e ∈ Counting.head n (sort_values_desc t) → e ∈ t) ∧
  StronglySorted (λ a b, desc_nan_last a.2 b.2)
    (Counting.head n (sort_values_desc t)) ∧
  (∀ a b i, a ∈ Counting.head n (sort_values_desc t) →
     sort_values_desc t !! i = Some b → (n ≤ i)%nat →
     desc_nan_last a.2 b.2).
Proof.
  unfold Counting.head. split_and!.
  - by rewrite length_take, sort_values_desc_perm.
  - intros e (i & He%list_elem_of_lookup_2 & _)%elem_of_take.
    by apply elem_of_sort_values_desc.
  - apply StronglySorted_take, sort_values_desc_sorted.
  - intros a b i Ha Hb Hi.
    apply elem_of_take in Ha as (j & Hj & Hjn).
    exact (StronglySorted_lookup (λ a b, desc_nan_last a.2 b.2) _ j i a b
             (sort_values_desc_sorted t) ltac:(lia) Hj Hb).
Qed.
End sort_values_facts.

Section top_facts.
Import Frame.
Context {K : Type}.
Implicit Types t : list (K * option Qc).

Lemma head_sort_values_desc_NoDup (n : nat) t :
  NoDup t.*1 → NoDup (Counting.head n (sort_values_desc t)).*1.
Proof.
  intros Hnd. unfold Counting.head. rewrite fmap_take.
  eapply sublist_NoDup; [|apply sublist_take].
  by rewrite sort_values_desc_perm.
Qed.

(** An entry the head leaves out is no larger than any entry it keeps. *)
Lemma head_sort_values_desc_rest (n : nat) t a b :
  a ∈ Counting.head n (sort_values_desc t) → b ∈ t →
  b.1 ∉ (Counting.head n (sort_values_desc t)).*1 →
  desc_nan_last a.2 b.2.
Proof.
  intros Ha Hb Hout.
  apply elem_of_sort_values_desc, list_elem_of_lookup in Hb as [i Hi].
  destruct (head_sort_values_desc n t) as (_ & _ & _ & Hrest).
  apply (Hrest a b i Ha Hi).
  destruct (decide (n ≤ i)%nat) as [?|Hlt]; [done|].
  exfalso. apply Hout. apply list_elem_of_fmap_2.
  apply elem_of_take. exists i. split; [done|lia].
Qed.
End top_facts.

(** X15.  The table of top paying companies holds at most five companies
    of the frame, each once and with the mean of the salaries of its
    postings, the largest mean first and a company without any salary
    after those with one.  No company left out of the table has a larger
    mean than a company in it. *)
Theorem top_companies_have_the_largest_means (df : list Frame.Row) :
  length (Charts.top_companies df) =
    Nat.min 5 (length (Frame.mean_salary_by Frame.string_leb
                         Frame.company_name df)) ∧
  NoDup (Charts.top_companies df).*1 ∧
  Forall
    (λ e, (∃ r, r ∈ df ∧ Frame.company_name r = Some e.1) ∧
          e.2 = Series.mean
                  (Frame.salary_usd
                     <$> filter (λ r, Frame.company_name r = Some e.1) df))
    (Charts.top_companies df) ∧
  StronglySorted (λ a b, desc_nan_last a.2 b.2) (Charts.top_companies df) ∧
  (∀ k : string,
     (∃ r, r ∈ df ∧ Frame.company_name r = Some k) →
     k ∉ (Charts.top_companies df).*1 →
     Forall
       (λ e, desc_nan_last e.2
               (Series.mean
                  (Frame.salary_usd
                     <$> filter (λ r, Frame.company_name r = Some k) df)))
       (Charts.top_companies df)).
Proof.
  unfold Charts.top_companies.
  destruct (head_sort_values_desc 5
              (Frame.mean_salary_by Frame.string_leb Frame.company_name df))
    as (Hlen & Hin & Hsorted & _).
  split_and!; [done| | |done|].
  - apply head_sort_values_desc_NoDup, mean_salary_by_NoDup.
  - apply Forall_forall. intros [k m] He%Hin.
    by apply elem_of_mean_salary_by in He.
  - intros k Hk Hout. apply Forall_forall. intros a Ha.
    apply (head_sort_values_desc_rest 5 _ a (k, _) Ha); [|done].
    by apply elem_of_mean_salary_by.
Qed.

(** X16.  The industry table lists every industry of the frame once, with
    the mean salary of its postings, in descending order of that mean and
    the industries without any salary last; a posting without an industry
    is in no mean.  The chart shows the first 15 entries of the table, so
    no industry it leaves out has a larger mean than one it shows. *)
Theorem industry_chart_shows_the_largest_means
    (rows : list (option string * option Qc)) :
  NoDup (Charts.industry_salary rows).*1 ∧
  (∀ (k : string) (m : option Qc),
     (k, m) ∈ Charts.industry_salary rows ↔
       Some k ∈ rows.*1 ∧ m = Series.mean (GroupBy.members k rows)) ∧
  StronglySorted (λ a b, desc_nan_last a.2 b.2) (Charts.industry_salary rows) ∧
  Charts.industry_chart rows = take 15 (Charts.industry_salary rows) ∧
  (∀ a b : string * option Qc,
     a ∈ Charts.industry_chart rows → b ∈ Charts.industry_salary rows →
     b.1 ∉ (Charts.industry_chart rows).*1 → desc_nan_last a.2 b.2).
Proof.
  unfold Charts.industry_chart, Charts.industry_salary. split_and!.
  - rewrite sort_values_desc_perm, agg_keys. apply groupby_keys_NoDup.
  - intros k m. by rewrite elem_of_sort_values_desc, elem_of_agg.
  - apply sort_values_desc_sorted.
  - done.
  - intros a b Ha Hb Hout. rewrite elem_of_sort_values_desc in Hb.
    exact (head_sort_values_desc_rest 15 _ a b Ha Hb Hout).
Qed.

Section keyed_facts.
Context {A K V : Type} `{EqDecision K}.

Lemma members_fmap (key : A → option K) (val : A → V) (l : list A) k :
  GroupBy.members k ((λ r, (key r, val r)) <$> l) =
    val <$> filter (λ r, key r = Some k) l.
Proof.
  unfold GroupBy.members. induction l as [|r l IH]; csimpl; [done|].
  rewrite !filter_cons. simpl.
  destruct (decide (key r = Some k)); csimpl; by rewrite IH.
Qed.

Lemma keys_fmap (key : A → option K) (val : A → V) (l : list A) k :
  Some k ∈ ((λ r, (key r, val r)) <$> l).*1 ↔ ∃ r, r ∈ l ∧ key r = Some k.
Proof.
  rewrite <-list_fmap_compose, list_elem_of_fmap. simpl. split.
  - intros (r & Hk & Hr). by exists r.
  - intros (r & Hr & Hk). by exists r.
Qed.
End keyed_facts.

Section skill_salary_facts.
Import Frame.

Lemma isin_true (c : option string) (values : list string) :
  isin c values = true ↔ ∃ s, c = Some s ∧ s ∈ values.
Proof.
  unfold isin. destruct c as [s|].
  - rewrite bool_decide_eq_true. split; [by exists s|].
    by intros (s' & [= <-] & Hs).
  - split; [done|]. by intros (s' & ? & _).
Qed.

Lemma mean_all_present (xs : list Qc) :
  xs ≠ [] → is_Some (Series.mean (Some <$> xs)).
Proof.
  intros Hne. apply mean_present.
  rewrite count_dropna, dropna_Some. destruct xs; [done|simpl; lia].
Qed.

Lemma elem_of_skill_salary sc df k m :
  (k, m) ∈ skill_salary sc df ↔
    k ∈ (take 10 sc).*1 ∧
    (∃ sal, (sal, Some k) ∈ exploded_skills df) ∧
    m = Series.mean
          (Some <$> (fst <$> filter (λ r, r.2 = Some k) (exploded_skills df))).
Proof.
  unfold skill_salary, Counting.index, Counting.head.
  rewrite elem_of_sort_values_desc, boolean_index_fmap.
  rewrite elem_of_agg, keys_fmap, members_fmap.
  assert (∀ r : Qc * option string, r.2 = Some k →
            (isin r.2 (take 10 sc).*1 = true ↔ k ∈ (take 10 sc).*1)) as Hk.
  { intros r ->. rewrite isin_true. split; [|by exists k].
    by intros (s & [= <-] & Hs). }
  assert (∀ l : list (Qc * option string),
            (λ r, Some r.1) <$> l = Some <$> (fst <$> l)) as ->
    by (intros l; by rewrite <-list_fmap_compose).
  split.
  - intros [([sal tok] & [Hin Hr]%list_elem_of_filter & Htok) ->].
    simpl in Htok. subst tok. apply (Hk (sal, Some k) eq_refl) in Hin.
    split_and!; [done|by exists sal|].
    rewrite filter_filter_implied; [done|].
    intros x Hx. by apply (Hk x Hx).
  - intros (Hin & [sal Hsal] & ->).
    rewrite filter_filter_implied by (intros x Hx; by apply (Hk x Hx)).
    split; [|done]. exists (sal, Some k). split; [|done].
    apply list_elem_of_filter. split; [|done]. by apply (Hk (sal, Some k)).
Qed.
End skill_salary_facts.

(** X17.  The skill salary chart has one bar per skill that is among the
    first ten of the skill table and is the token of some exploded row.
    The bar holds the mean of the salaries of the exploded rows with that
    token, which is never missing, and the bars come with the largest mean
    first. *)
Theorem skill_salary_bars (sc : list (string * nat)) (df : list Frame.Row) :
  NoDup (Frame.skill_salary sc df).*1 ∧
  (∀ (k : string) (m : option Qc),
     (k, m) ∈ Frame.skill_salary sc df ↔
       k ∈ (take 10 sc).*1 ∧
       (∃ sal, (sal, Some k) ∈ Frame.exploded_skills df) ∧
       m = Series.mean
             (Some <$> (fst <$> filter (λ r, r.2 = Some k)
                                  (Frame.exploded_skills df)))) ∧
  Forall (λ e, is_Some e.2) (Frame.skill_salary sc df) ∧
  StronglySorted (λ a b, le_cell b.2 a.2) (Frame.skill_salary sc df).
Proof.
  split_and!.
  - unfold Frame.skill_salary.
    rewrite sort_values_desc_perm, agg_keys. apply groupby_keys_NoDup.
  - apply elem_of_skill_salary.
  - apply Forall_forall.
    intros [k m] (_ & [sal Hsal] & ->)%elem_of_skill_salary.
    apply mean_all_present. intros Hnil.
    assert (sal ∈ fst <$> filter (λ r, r.2 = Some k) (Frame.exploded_skills df))
      as Hin.
    { apply list_elem_of_fmap. exists (sal, Some k). split; [done|].
      by apply list_elem_of_filter. }
    rewrite Hnil in Hin. by apply elem_of_nil in Hin.
  - eapply StronglySorted_weaken; [|apply sort_values_desc_sorted].
    intros a b _ _. unfold desc_nan_last, le_cell.
    by destruct a.2, b.2.
Qed.

Section map_facts.
Import Frame.

Lemma elem_of_top_values n col k :
  k ∈ top_values n col → Some k ∈ col.
Proof.
  unfold top_values, Counting.index, Counting.head.
  intros ([k' m] & -> & Hin)%list_elem_of_fmap.
  apply elem_of_take in Hin as (i & Hi%list_elem_of_lookup_2 & _).
  by apply elem_of_value_counts in Hi as [? _].
Qed.

Lemma top_values_length n col : (length (top_values n col) ≤ n)%nat.
Proof.
  unfold top_values, Counting.index, Counting.head.
  rewrite length_fmap, length_take. lia.
Qed.

Lemma elem_of_map_avg df k m :
  (k, m) ∈ Charts.map_avg df ↔
    k ∈ top_values 30 (company_location <$> df) ∧
    m = Series.mean
          (salary_usd <$> filter (λ r, company_location r = Some k) df).
Proof.
  unfold Charts.map_avg, Charts.map_data. rewrite boolean_index_fmap.
  rewrite elem_of_mean_salary_by.
  set (top := top_values 30 (company_location <$> df)).
  assert (∀ r, company_location r = Some k →
            (isin (company_location r) top = true ↔ k ∈ top)) as Hk.
  { intros r ->. rewrite isin_true. split; [|by exists k].
    by intros (s & [= <-] & Hs). }
  split.
  - intros [(r & [Hin Hr]%list_elem_of_filter & Hloc) ->].
    apply (Hk r Hloc) in Hin. split; [done|].
    rewrite filter_filter_implied; [done|].
    intros x Hx. by apply (Hk x Hx).
  - intros [Hin ->].
    rewrite filter_filter_implied by (intros x Hx; by apply (Hk x Hx)).
    split; [|done].
    pose proof (elem_of_top_values _ _ _ Hin) as (r & Hloc & Hr)%list_elem_of_fmap.
    exists r. split; [|done].
    apply list_elem_of_filter. split; [|done]. by apply (Hk r).
Qed.
End map_facts.

(** X18.  The world map colours at most 30 countries: exactly the 30 most
    frequent company locations, in ascending order of their name.  The
    value of a country is the mean salary of all postings of the frame in
    that country; restricting the frame to the top locations first changes
    no mean. *)
Theorem map_shows_the_top_locations (df : list Frame.Row) :
  (length (Charts.map_avg df) ≤ 30)%nat ∧
  StronglySorted (λ a b, Frame.string_leb a b = true ∧ a ≠ b)
    (Charts.map_avg df).*1 ∧
  (Charts.map_avg df).*1
    ≡ₚ Frame.top_values 30 (Frame.company_location <$> df) ∧
  Forall
    (λ e, e ∈ Frame.mean_salary_by Frame.string_leb Frame.company_location df)
    (Charts.map_avg df).
Proof.
  assert (NoDup (Charts.map_avg df).*1) as Hnd
    by apply mean_salary_by_NoDup.
  assert ((Charts.map_avg df).*1
            ≡ₚ Frame.top_values 30 (Frame.company_location <$> df)) as Hperm.
  { apply NoDup_Permutation; [done| |].
    - unfold Frame.top_values, Counting.index, Counting.head.
      rewrite fmap_take. eapply sublist_NoDup; [|apply sublist_take].
      apply value_counts_NoDup.
    - intros k. rewrite list_elem_of_fmap. split.
      + intros ([k' m] & -> & [? _]%elem_of_map_avg). done.
      + intros Hk. eexists (k, _). split; [done|].
        apply elem_of_map_avg. by split. }
  split_and!.
  - rewrite <-(length_fmap fst), Hperm. apply top_values_length.
  - apply StronglySorted_NoDup_strict; [|done].
    unfold Charts.map_avg, Frame.mean_salary_by. rewrite agg_keys.
    apply groupby_keys_sorted; [apply string_leb_total|apply string_leb_trans].
  - done.
  - apply Forall_forall. intros [k m] [Hk ->]%elem_of_map_avg.
    apply elem_of_mean_salary_by. split; [|done].
    apply elem_of_top_values, list_elem_of_fmap in Hk as (r & Hloc & Hr).
    by exists r.
Qed.

Section pivot_facts.
Import Frame.

Lemma keyed_unique {K V} (t : list (K * V)) k v v' :
  NoDup t.*1 → (k, v) ∈ t → (k, v') ∈ t → v = v'.
Proof.
  induction t as [|[k0 v0] t IH]; csimpl; intros Hnd Hv Hv'.
  { by apply elem_of_nil in Hv. }
  apply NoDup_cons in Hnd as [Hk0 Hnd].
  apply elem_of_cons in Hv as [Hv|Hv];
    apply elem_of_cons in Hv' as [Hv'|Hv']; simplify_eq.
  - done.
  - exfalso. apply Hk0. by apply (list_elem_of_fmap_2 fst _ (k0, v')).
  - exfalso. apply Hk0. by apply (list_elem_of_fmap_2 fst _ (k0, v)).
  - by apply IH.
Qed.

Lemma cell_of_elem {K} `{EqDecision K} (t : list (K * option Qc)) k m :
  NoDup t.*1 → (k, m) ∈ t → cell_of k t = m.
Proof.
  intros Hnd Hin. unfold cell_of.
  destruct (list_find _ t) as [[i [k' m']]|] eqn:Hf.
  - apply list_find_Some in Hf as (Hi%list_elem_of_lookup_2 & Hk & _).
    simpl in Hk. subst k'. simpl. by apply (keyed_unique t k).
  - destruct (list_find_elem_of (λ kv, kv.1 = k) t (k, m) Hin eq_refl)
      as [? Hsome].
    by rewrite Hsome in Hf.
Qed.

Lemma cell_of_absent {K} `{EqDecision K} (t : list (K * option Qc)) k :
  k ∉ t.*1 → cell_of k t = None.
Proof.
  intros Hout. unfold cell_of.
  destruct (list_find _ t) as [[i [k' m']]|] eqn:Hf; [|done].
  apply list_find_Some in Hf as (Hi%list_elem_of_lookup_2 & Hk & _).
  simpl in Hk. subst k'. exfalso. apply Hout.
  by apply (list_elem_of_fmap_2 fst _ (k, m')).
Qed.

Lemma key2_Some {A B} (a : option A) (b : option B) x y :
  key2 a b = Some (x, y) ↔ a = Some x ∧ b = Some y.
Proof.
  unfold key2. destruct a, b; split; try done; try (by intros [? ?]).
  - by intros [= -> ->].
  - by intros [[= ->] [= ->]].
Qed.

Section pivot.
Context (row_key col_key : Row → option string).
Implicit Types df : list Row.

Lemma pair_salaries_key2 i c df :
  salary_usd <$> filter (λ r, key2 (row_key r) (col_key r) = Some (i, c)) df =
    pair_salaries row_key col_key i c df.
Proof.
  unfold pair_salaries. f_equal. apply list_filter_iff.
  intros r. apply key2_Some.
Qed.

Lemma elem_of_pivot_agged df i c m :
  ((i, c), m) ∈ pivot_agged row_key col_key df ↔
    is_Some m ∧ m = Series.mean (pair_salaries row_key col_key i c df).
Proof.
  unfold pivot_agged.
  rewrite list_elem_of_filter, elem_of_mean_salary_by, pair_salaries_key2.
  simpl. split; [by intros (? & _ & ?)|]. intros [Hm ->]. split_and!; [done| |done].
  destruct Hm as [v Hv]. apply mean_Some_present in Hv as [w Hw].
  unfold pair_salaries in Hw.
  apply list_elem_of_fmap in Hw as (r & _ & [[Hi Hc] Hr]%list_elem_of_filter).
  exists r. split; [done|]. by apply key2_Some.
Qed.

Lemma pivot_agged_NoDup df : NoDup (pivot_agged row_key col_key df).*1.
Proof.
  unfold pivot_agged.
  eapply sublist_NoDup; [apply mean_salary_by_NoDup|].
  apply fmap_sublist, sublist_filter.
Qed.

(** A cell of the table is the mean of the salaries of its pair of labels,
    whether or not the pair has data. *)
Lemma cell_of_pivot_agged df i c :
  cell_of (i, c) (pivot_agged row_key col_key df) =
    Series.mean (pair_salaries row_key col_key i c df).
Proof.
  destruct (Series.mean (pair_salaries row_key col_key i c df)) as [v|] eqn:Hm.
  - apply cell_of_elem; [apply pivot_agged_NoDup|].
    apply elem_of_pivot_agged. by rewrite Hm.
  - apply cell_of_absent.
    intros ([[i' c'] m] & [= <- <-] & Hin)%list_elem_of_fmap.
    apply elem_of_pivot_agged in Hin as [[v Hv] Heq].
    rewrite Hm in Heq. by rewrite Heq in Hv.
Qed.

Lemma elem_of_pivot_index df i :
  i ∈ pt_index (pivot_mean row_key col_key df) ↔
    ∃ r, r ∈ df ∧ row_key r = Some i ∧ is_Some (col_key r) ∧
         is_Some (salary_usd r).
Proof.
  unfold pivot_mean. cbn [pt_index].
  rewrite elem_of_sort, elem_of_first_seen, <-list_fmap_compose.
  rewrite list_elem_of_fmap. split.
  - intros ([[i' c] m] & -> & [[v Hv] Hm]%elem_of_pivot_agged). simpl.
    rewrite Hm in Hv. apply mean_Some_present in Hv as [w Hw].
    apply list_elem_of_fmap in Hw as (r & Hs & [[Hi Hc] Hr]%list_elem_of_filter).
    exists r. split_and!; [done..| |]; by eexists.
  - intros (r & Hr & Hi & [c Hc] & [v Hv]).
    exists ((i, c), Series.mean (pair_salaries row_key col_key i c df)). split; [done|].
    apply elem_of_pivot_agged. split; [|done].
    apply mean_present.
    apply (Nat.lt_le_trans _ 1); [lia|].
    rewrite count_dropna.
    assert (v ∈ Series.dropna (pair_salaries row_key col_key i c df)) as Hin.
    { apply elem_of_dropna. unfold pair_salaries. rewrite <-Hv.
      apply list_elem_of_fmap_2, list_elem_of_filter. by split. }
    destruct (Series.dropna _); [by apply elem_of_nil in Hin|simpl; lia].
Qed.

Lemma elem_of_pivot_columns df c :
  c ∈ pt_columns (pivot_mean row_key col_key df) ↔
    ∃ r, r ∈ df ∧ col_key r = Some c ∧ is_Some (row_key r) ∧
         is_Some (salary_usd r).
Proof.
  unfold pivot_mean. cbn [pt_columns].
  rewrite elem_of_sort, elem_of_first_seen, <-list_fmap_compose.
  rewrite list_elem_of_fmap. split.
  - intros ([[i c'] m] & -> & [[v Hv] Hm]%elem_of_pivot_agged). simpl.
    rewrite Hm in Hv. apply mean_Some_present in Hv as [w Hw].
    apply list_elem_of_fmap in Hw as (r & Hs & [[Hi Hc] Hr]%list_elem_of_filter).
    exists r. split_and!; [done..| |]; by eexists.
  - intros (r & Hr & Hc & [i Hi] & [v Hv]).
    exists ((i, c), Series.mean (pair_salaries row_key col_key i c df)). split; [done|].
    apply elem_of_pivot_agged. split; [|done].
    apply mean_present.
    apply (Nat.lt_le_trans _ 1); [lia|].
    rewrite count_dropna.
    assert (v ∈ Series.dropna (pair_salaries row_key col_key i c df)) as Hin.
    { apply elem_of_dropna. unfold pair_salaries. rewrite <-Hv.
      apply list_elem_of_fmap_2, list_elem_of_filter. by split. }
    destruct (Series.dropna _); [by apply elem_of_nil in Hin|simpl; lia].
Qed.

Lemma sorted_labels (l : list string) :
  StronglySorted (λ a b, string_leb a b = true ∧ a ≠ b)
    (Stable.sort string_leb (Counting.first_seen l)).
Proof.
  apply StronglySorted_NoDup_strict.
  - eapply StronglySorted_weaken;
      [|apply sort_stable; [apply string_leb_total|apply string_leb_trans]].
    intros a b _ _ Hab. by apply asc_stable_leb in Hab.
  - rewrite sort_perm. apply NoDup_first_seen.
Qed.

Lemma pivot_cell df a b i c :
  pt_index (pivot_mean row_key col_key df) !! a = Some i →
  pt_columns (pivot_mean row_key col_key df) !! b = Some c →
  pt_values (pivot_mean row_key col_key df) !! a ≫= (.!! b) =
    Some (Series.mean (pair_salaries row_key col_key i c df)).
Proof.
  unfold pivot_mean. cbn [pt_index pt_columns pt_values].
  intros Ha Hb. rewrite list_lookup_fmap, Ha. simpl.
  rewrite list_lookup_fmap, Hb. simpl. by rewrite cell_of_pivot_agged.
Qed.
End pivot.
End pivot_facts.

Section heatmap_facts.
Import Frame.

Lemma elem_of_top_data titles locations df r :
  r ∈ top_data titles locations df ↔
    r ∈ df ∧ isin (job_title r) titles = true ∧
    isin (company_location r) locations = true.
Proof.
  unfold top_data. rewrite boolean_index_fmap, list_elem_of_filter.
  rewrite andb_true_iff. tauto.
Qed.

Lemma pair_salaries_top_data titles locations df i c :
  i ∈ titles → c ∈ locations →
  pair_salaries job_title company_location i c (top_data titles locations df) =
    pair_salaries job_title company_location i c df.
Proof.
  intros Hi Hc. unfold pair_salaries, top_data. rewrite boolean_index_fmap.
  f_equal. apply filter_filter_implied. intros r [-> ->].
  apply andb_true_iff. split; apply isin_true; eauto.
Qed.

Lemma heatmap_index titles locations df i :
  i ∈ pt_index (heatmap_df titles locations df) ↔
    i ∈ titles ∧
    ∃ r, r ∈ df ∧ job_title r = Some i ∧
         isin (company_location r) locations = true ∧ is_Some (salary_usd r).
Proof.
  unfold heatmap_df, round_table. cbn [pt_index].
  rewrite elem_of_pivot_index. split.
  - intros (r & (Hr & Ht & Hl)%elem_of_top_data & Hi & _ & Hs).
    split.
    + apply isin_true in Ht as (s & Hs' & Hin). congruence.
    + by exists r.
  - intros (Hi & r & Hr & Ht & Hl & Hs). exists r. split_and!; [|done| |done].
    + apply elem_of_top_data. split_and!; [done| |done].
      apply isin_true. eauto.
    + apply isin_true in Hl as (c & -> & _). by eexists.
Qed.

Lemma heatmap_columns titles locations df c :
  c ∈ pt_columns (heatmap_df titles locations df) ↔
    c ∈ locations ∧
    ∃ r, r ∈ df ∧ company_location r = Some c ∧
         isin (job_title r) titles = true ∧ is_Some (salary_usd r).
Proof.
  unfold heatmap_df, round_table. cbn [pt_columns].
  rewrite elem_of_pivot_columns. split.
  - intros (r & (Hr & Ht & Hl)%elem_of_top_data & Hc & _ & Hs).
    split.
    + apply isin_true in Hl as (s & Hs' & Hin). congruence.
    + by exists r.
  - intros (Hc & r & Hr & Hl & Ht & Hs). exists r. split_and!; [|done| |done].
    + apply elem_of_top_data. split_and!; [done..|].
      apply isin_true. eauto.
    + apply isin_true in Ht as (i & -> & _). by eexists.
Qed.
End heatmap_facts.

(** X19.  The heatmap is a rectangular table: one line per row label and
    one cell per column label on every line, no label twice and the
    labels in ascending order.  A job title is a row label exactly when
    it is one of the given titles and some posting with that title, a
    location among the given ones and a salary exists; likewise for the
    locations as column labels.  The cell of a title and a location is
    the mean salary of all postings of the frame with that title and
    that location, rounded to two decimals, and is missing when no such
    posting has a salary. *)
Theorem heatmap_is_a_table_of_rounded_means
    (titles locations : list string) (df : list Frame.Row) :
  (length (Frame.pt_values (Frame.heatmap_df titles locations df)) =
     length (Frame.pt_index (Frame.heatmap_df titles locations df)) ∧
   Forall
     (λ line,
        length line =
          length (Frame.pt_columns (Frame.heatmap_df titles locations df)))
     (Frame.pt_values (Frame.heatmap_df titles locations df))) ∧
  (StronglySorted (λ a b, Frame.string_leb a b = true ∧ a ≠ b)
     (Frame.pt_index (Frame.heatmap_df titles locations df)) ∧
   StronglySorted (λ a b, Frame.string_leb a b = true ∧ a ≠ b)
     (Frame.pt_columns (Frame.heatmap_df titles locations df))) ∧
  (∀ i : string,
     i ∈ Frame.pt_index (Frame.heatmap_df titles locations df) ↔
       i ∈ titles ∧
       ∃ r, r ∈ df ∧ Frame.job_title r = Some i ∧
            Frame.isin (Frame.company_location r) locations = true ∧
            is_Some (Frame.salary_usd r)) ∧
  (∀ c : string,
     c ∈ Frame.pt_columns (Frame.heatmap_df titles locations df) ↔
       c ∈ locations ∧
       ∃ r, r ∈ df ∧ Frame.company_location r = Some c ∧
            Frame.isin (Frame.job_title r) titles = true ∧
            is_Some (Frame.salary_usd r)) ∧
  (∀ (a b : nat) (i c : string),
     Frame.pt_index (Frame.heatmap_df titles locations df) !! a = Some i →
     Frame.pt_columns (Frame.heatmap_df titles locations df) !! b = Some c →
     Frame.pt_values (Frame.heatmap_df titles locations df) !! a ≫= (.!! b) =
       Some (Frame.round2
               <$> Series.mean
                     (pair_salaries Frame.job_title Frame.company_location
                        i c df))).
Proof.
  split_and!.
  - unfold Frame.heatmap_df, Frame.round_table, Frame.pivot_mean.
    cbn [Frame.pt_values Frame.pt_index]. by rewrite !length_fmap.
  - unfold Frame.heatmap_df, Frame.round_table, Frame.pivot_mean.
    cbn [Frame.pt_values Frame.pt_columns].
    apply Forall_forall. intros line Hline.
    apply list_elem_of_fmap in Hline as (line' & -> & Hline').
    apply list_elem_of_fmap in Hline' as (i & -> & _).
    by rewrite !length_fmap.
  - apply sorted_labels.
  - apply sorted_labels.
  - apply heatmap_index.
  - apply heatmap_columns.
  - intros a b i c Ha Hb.
    assert (i ∈ titles) as Hi.
    { apply list_elem_of_lookup_2 in Ha. by apply heatmap_index in Ha as [? _]. }
    assert (c ∈ locations) as Hc.
    { apply list_elem_of_lookup_2 in Hb. by apply heatmap_columns in Hb as [? _]. }
    unfold Frame.heatmap_df, Frame.round_table in *.
    cbn [Frame.pt_values Frame.pt_index Frame.pt_columns] in *.
    pose proof (pivot_cell _ _ _ a b i c Ha Hb) as Hcell.
    rewrite pair_salaries_top_data in Hcell by done.
    rewrite list_lookup_fmap.
    destruct (Frame.pt_values _ !! a) as [line|] eqn:Hline; [|done].
    simpl in *. rewrite list_lookup_fmap, Hcell. done.
Qed.

Section deadline_facts.
Import Frame.
Local Open Scope Z_scope.

Lemma floor_days (x : Z) :
  (x `div` nanos_per_day) * nanos_per_day ≤ x <
    (x `div` nanos_per_day + 1) * nanos_per_day.
Proof.
  unfold nanos_per_day.
  pose proof (Z.div_mod x 86400000000000 ltac:(done)) as Hdm.
  pose proof (Z.mod_pos_bound x 86400000000000 ltac:(done)) as Hb.
  lia.
Qed.

Lemma floor_days_unique (x d : Z) :
  d * nanos_per_day ≤ x < (d + 1) * nanos_per_day → x `div` nanos_per_day = d.
Proof.
  intros Hx. pose proof (floor_days x) as Hf. revert Hx Hf.
  generalize (x `div` nanos_per_day). unfold nanos_per_day. intros q Hx Hf.
  lia.
Qed.

Lemma epoch_nanos_next_day t :
  epoch_nanos (next_day t) = epoch_nanos t + nanos_per_day.
Proof.
  unfold epoch_nanos, next_day, days_from_civil. cbn [ts_year ts_month ts_day ts_nanos].
  destruct (ts_month t <=? 2), (2 <? ts_month t); cbv zeta; lia.
Qed.

Lemma deadline_span_present (df : list Row) :
  length (Series.dropna (deadline_span <$> df)) =
    length (filter (λ r, is_Some (application_deadline r) ∧
                         is_Some (posting_date r)) df).
Proof.
  induction df as [|r df IH]; [done|]. rewrite fmap_cons, filter_cons.
  unfold Series.dropna in *. cbn [omap list_omap]. unfold deadline_span at 1.
  destruct (decide _) as [[[a Ha] [p Hp]]|Hno].
  - rewrite Ha, Hp. simpl. by rewrite IH.
  - destruct (application_deadline r) as [a|], (posting_date r) as [p|];
      simpl; try done.
    exfalso. apply Hno. split; by eexists.
Qed.
End deadline_facts.

(** X20.  [.dt.days] rounds the time between posting and deadline down to
    whole days: the span times one day is at most the difference and less
    than one day below it.  So the span is negative exactly when the
    deadline lies before the posting, even by less than a day; swapping
    the two dates gives the opposite span or one less; moving the deadline
    one day on adds one; and two timestamps at the same time of day are
    apart by the difference of their day numbers.  The histogram has one
    value per posting with both dates. *)
Theorem deadline_days_round_down (a p : Frame.Timestamp) (df : list Frame.Row) :
  ((Frame.timedelta_days a p * Frame.nanos_per_day
      ≤ Frame.epoch_nanos a - Frame.epoch_nanos p)%Z ∧
   (Frame.epoch_nanos a - Frame.epoch_nanos p
      < (Frame.timedelta_days a p + 1) * Frame.nanos_per_day)%Z) ∧
  ((Frame.timedelta_days a p < 0)%Z
     ↔ (Frame.epoch_nanos a < Frame.epoch_nanos p)%Z) ∧
  (Frame.timedelta_days p a = (- Frame.timedelta_days a p)%Z ∨
   Frame.timedelta_days p a = (- Frame.timedelta_days a p - 1)%Z) ∧
  Frame.timedelta_days (next_day a) p = (Frame.timedelta_days a p + 1)%Z ∧
  (Frame.ts_nanos a = Frame.ts_nanos p →
   Frame.timedelta_days a p =
     (Frame.days_from_civil (Frame.ts_year a) (Frame.ts_month a) (Frame.ts_day a)
      - Frame.days_from_civil (Frame.ts_year p) (Frame.ts_month p)
          (Frame.ts_day p))%Z) ∧
  length (Series.dropna (Frame.deadline_span <$> df)) =
    length (filter (λ r, is_Some (Frame.application_deadline r) ∧
                         is_Some (Frame.posting_date r)) df).
Proof.
  pose proof (floor_days (Frame.epoch_nanos a - Frame.epoch_nanos p)) as Hap.
  pose proof (floor_days (Frame.epoch_nanos p - Frame.epoch_nanos a)) as Hpa.
  fold (Frame.timedelta_days a p) in Hap.
  fold (Frame.timedelta_days p a) in Hpa.
  split_and!.
  - apply Hap.
  - apply Hap.
  - revert Hap. generalize (Frame.timedelta_days a p).
    unfold Frame.nanos_per_day. intros d Hap. lia.
  - revert Hap Hpa.
    generalize (Frame.timedelta_days a p) (Frame.timedelta_days p a).
    unfold Frame.nanos_per_day. intros d d' Hap Hpa. lia.
  - unfold Frame.timedelta_days at 1. apply floor_days_unique.
    rewrite epoch_nanos_next_day. revert Hap.
    generalize (Frame.timedelta_days a p).
    unfold Frame.nanos_per_day. intros d Hap. lia.
  - intros Hn. unfold Frame.timedelta_days. apply floor_days_unique.
    unfold Frame.epoch_nanos. rewrite Hn. unfold Frame.nanos_per_day. lia.
  - apply deadline_span_present.
Qed.

Section slider_facts.
Import Frame.

Lemma at_least_mono t t' x : t ≤ t' → at_least t' x → at_least t x.
Proof.
  intros Hle (v & Hv & Ht). exists v. split; [done|]. by eapply Qcle_trans.
Qed.

Lemma filtered_df_twice df t t' :
  t ≤ t' → filtered_df (filtered_df df t) t' = filtered_df df t'.
Proof.
  intros Hle. rewrite !filtered_df_filter.
  apply filter_filter_implied. intros x. by apply at_least_mono.
Qed.
End slider_facts.

(** X21.  Moving the slider up never brings a row back: for two thresholds
    [t ≤ t'] the rows kept at [t'] are among the rows kept at [t], in the
    same order, they are what filtering the rows kept at [t] once more at
    [t'] gives, and there are no more of them.  A threshold keeps every row
    of a frame it has already filtered. *)
Theorem raising_the_threshold_only_removes_rows
    (df : list Frame.Row) (t t' : Qc) :
  Frame.filtered_df (Frame.filtered_df df t) t = Frame.filtered_df df t ∧
  (t ≤ t' →
   Frame.filtered_df (Frame.filtered_df df t) t' = Frame.filtered_df df t' ∧
   Frame.filtered_df df t' `sublist_of` Frame.filtered_df df t ∧
   (length (Frame.filtered_df df t') ≤ length (Frame.filtered_df df t))%nat).
Proof.
  split; [apply filtered_df_twice, Qcle_refl|].
  intros Hle.
  assert (Frame.filtered_df df t' `sublist_of` Frame.filtered_df df t) as Hsub.
  { rewrite <-(filtered_df_twice df t t' Hle).
    rewrite (filtered_df_filter (Frame.filtered_df df t)).
    apply sublist_filter. }
  split_and!; [by apply filtered_df_twice|done|by apply sublist_length].
Qed.

Section raise_facts.
Import Frame Script.

Lemma heatmap_is_empty_index df :
  heatmap_is_empty df = true ↔
    pt_index (heatmap_df (top_titles df) (top_locations df) df) = [].
Proof.
  unfold heatmap_is_empty, heatmap_df, round_table, pivot_mean.
  cbn [pt_values pt_index].
  match goal with
  | |- context [empty (_ <$> (_ <$> ?l))] => destruct l
  end; simpl; split; done.
Qed.

(** The heatmap table has a line when some posting has a top title, a top
    location and a salary, and only then. *)
Lemma heatmap_is_empty_false df :
  heatmap_is_empty df = false ↔
    ∃ r, r ∈ df ∧ isin (job_title r) (top_titles df) = true ∧
         isin (company_location r) (top_locations df) = true ∧
         is_Some (salary_usd r).
Proof.
  rewrite <-not_true_iff_false, heatmap_is_empty_index. split.
  - intros Hne.
    destruct (pt_index (heatmap_df (top_titles df) (top_locations df) df))
      as [|i l] eqn:Hidx; [done|].
    assert (i ∈ pt_index (heatmap_df (top_titles df) (top_locations df) df))
      as Hi by (rewrite Hidx; left).
    apply heatmap_index in Hi as (Hi & r & Hr & Ht & Hl & Hs).
    exists r. split_and!; [done| |done..]. apply isin_true. eauto.
  - intros (r & Hr & (i & Hi & Hin)%isin_true & Hl & Hs) Hnil.
    assert (i ∈ pt_index (heatmap_df (top_titles df) (top_locations df) df))
      as Hidx by (apply heatmap_index; eauto 10).
    rewrite Hnil in Hidx. by apply elem_of_nil in Hidx.
Qed.
End raise_facts.

(** X22.  A run ends in one of two ways.  When some posting of the
    dataset has a salary, a job title among the ten most frequent and a
    location among the ten most frequent, every section runs and the page
    receives all the charts.  When no posting has, as on a dataset without
    postings or without any parseable salary, line 46 raises [IndexError]:
    the page has received what the threshold section shows and nothing
    else, [top_locations] is assigned and [df] is the ingested frame. *)
Theorem run_ends_at_an_empty_heatmap
    (P : Frame.Parsers) (raw : list Frame.RawRow) (t : Qc) :
  (heatmap_is_empty (Frame.rows (Frame.ingest P raw)) = false ↔
     ∃ r, r ∈ Frame.rows (Frame.ingest P raw) ∧
          Frame.isin (Frame.job_title r)
            (Frame.top_titles (Frame.rows (Frame.ingest P raw))) = true ∧
          Frame.isin (Frame.company_location r)
            (Frame.top_locations (Frame.rows (Frame.ingest P raw))) = true ∧
          is_Some (Frame.salary_usd r)) ∧
  (heatmap_is_empty (Frame.rows (Frame.ingest P raw)) = false →
   ∃ s : Script.State,
     Script.run P raw t = Script.Done s ∧
     Script.shown s = views t (Frame.rows (Frame.ingest P raw)) ∧
     length (Script.shown s) = 24%nat) ∧
  (heatmap_is_empty (Frame.rows (Frame.ingest P raw)) = true →
   ∃ s : Script.State,
     Script.run P raw t = Script.Raise Script.IndexError s ∧
     Script.shown s = [threshold_view t (Frame.rows (Frame.ingest P raw))] ∧
     Script.v_top_locations s =
       Frame.top_locations (Frame.rows (Frame.ingest P raw)) ∧
     Script.v_df s = Frame.ingest P raw) ∧
  ((∀ r, r ∈ Frame.rows (Frame.ingest P raw) → Frame.salary_usd r = None) →
   heatmap_is_empty (Frame.rows (Frame.ingest P raw)) = true).
Proof.
  split_and!.
  - apply heatmap_is_empty_false.
  - intros He. eexists. rewrite run_outcome. unfold outcome_after.
    rewrite decide_False by lia. rewrite He. split_and!; [done| |].
    + unfold globals_after. cbn [Script.shown].
      by rewrite take_ge by (simpl; lia).
    + reflexivity.
  - intros He. eexists. rewrite run_outcome. unfold outcome_after.
    rewrite decide_False by lia. rewrite He. done.
  - intros Hall. apply not_false_iff_true.
    intros (r & Hr & _ & _ & [v Hv])%heatmap_is_empty_false.
    by rewrite (Hall r Hr) in Hv.
Qed.
